(** * Janggi (Korean chess): a shallow embedding of JanggiGame.py

    The development follows the layout of the source file: the piece
    classes with their recursive [get_legal_moves] first, then the
    [JanggiGame] class with its board, its two piece lists and the move
    arbiter [make_move].

    Modelling conventions.
    - A position is a pair of Python integers (row, column), here [Z * Z].
    - A Python [set] of positions is a [gset pos].
    - A piece object has three fields that are assigned once by
      [__init__] and never written again ([_owner], [_type], and the class
      that fixes its [get_legal_moves]) and one mutable field, [_location].
      A piece reference is therefore a record holding the object identity
      [pid] with the immutable fields, and the heap maps identities to
      locations; an identity that is absent from the heap has location
      [None] (a captured piece).
    - Every recursive method takes a recursion budget; [None] means the
      recursion did not finish within the budget (for the interpreter: a
      [RecursionError]).  The public entry points use [recursion_limit],
      and the lemmas below show that the budget is never exhausted for a
      piece that has a location: on a 10 x 9 grid no call chain is deeper
      than twelve frames.
    - A method of the game object is a function from the state of the
      object to a returned value or a raised exception, each with the
      state the call left behind. *)

From stdpp Require Import gmap strings list pretty.
From Stdlib Require Import ZArith Lia Ascii.

Local Open Scope Z_scope.

(** ** Data model *)

Abbreviation pos := (Z * Z)%type.

Inductive player := blue | red.

Inductive piece_class :=
| BlueGeneral | RedGeneral | BlueGuard | RedGuard
| Horse | Elephant | Chariot | Cannon | RedSoldier | BlueSoldier.

(** The direction strings threaded through the recursions of the Elephant,
    the Chariot and the Cannon: the first sign is the row step, the second
    the column step. *)
Inductive direction :=
| d_plus_eq    (* "+=" *)
| d_minus_eq   (* "-=" *)
| d_eq_plus    (* "=+" *)
| d_eq_minus   (* "=-" *)
| d_plus_plus  (* "++" *)
| d_plus_minus (* "+-" *)
| d_minus_plus (* "-+" *)
| d_minus_minus(* "--" *).

Record piece := Piece {
  pid : nat;                 (* object identity *)
  get_owner : player;        (* self._owner *)
  get_type : string;         (* self._type *)
  get_class : piece_class    (* the class the object was built from *)
}.

#[global] Instance player_eq_dec : EqDecision player.
Proof. solve_decision. Defined.
#[global] Instance piece_class_eq_dec : EqDecision piece_class.
Proof. solve_decision. Defined.
#[global] Instance direction_eq_dec : EqDecision direction.
Proof. solve_decision. Defined.
#[global] Instance piece_eq_dec : EqDecision piece.
Proof. solve_decision. Defined.

(** The board: a list of rows, each a list of cells; a cell is [""]
    ([None]) or a piece reference. *)
Abbreviation cell := (option piece).
Abbreviation board_t := (list (list (option piece))).

(** [board[row][column]] where the indices have already passed the
    on-board test of the caller (the grid built by [create_board] is 10 x 9
    and item assignment never changes its shape). *)
Definition board_at (board : board_t) (p : pos) : cell :=
  match board !! Z.to_nat (fst p) with
  | Some r => match r !! Z.to_nat (snd p) with Some c => c | None => None end
  | None => None
  end.

(** [(r, c) in {(row, column) for row in range(r0, r1) for column in range(c0, c1)}] *)
Definition in_ranges (r0 r1 c0 c1 : Z) (p : pos) : bool :=
  (r0 <=? fst p) && (fst p <? r1) && (c0 <=? snd p) && (snd p <? c1).

Definition on_board : pos → bool := in_ranges 0 10 0 9.
Definition in_red_fortress : pos → bool := in_ranges 0 3 3 6.
Definition in_blue_fortress : pos → bool := in_ranges 7 10 3 6.

Definition mem (p : pos) (s : gset pos) : bool := bool_decide (p ∈ s).
Definition is_empty (board : board_t) (p : pos) : bool :=
  match board_at board p with None => true | Some _ => false end.

Definition recursion_limit : nat := 16.

(** Union of the results of recursive calls: all of them must return. *)
Definition ou (a b : option (gset pos)) : option (gset pos) :=
  match a, b with
  | Some x, Some y => Some (x ∪ y)
  | _, _ => None
  end.
Infix "∪?" := ou (at level 50, left associativity).

(** ** General and Guard

    The four classes BlueGeneral, RedGeneral, BlueGuard and RedGuard have
    the same method body up to the fortress they test against and the set
    of cells that carry a diagonal. *)
Section Palace.
Variable in_fortress : pos → bool.
Variable diagonal_cells : list pos.

Fixpoint palace_get_legal_moves (fuel : nat) (location : option pos)
    (board : board_t) (opposition : gset pos) (count : Z)
    (current_spot : option pos) : option (gset pos) :=
  match fuel with
  | O => None
  | S fuel =>
    let self := palace_get_legal_moves fuel location board opposition in
    match current_spot with
    | None => self count location
    | Some (row, column) =>
      if negb (in_fortress (row, column)) then Some ∅
      else if (count =? 1) && negb (is_empty board (row, column))
              && negb (mem (row, column) opposition) then Some ∅
      else if count =? 1 then Some {[ (row, column) ]}
      else
        let moves :=
          if bool_decide ((row, column) ∈ diagonal_cells) then
            Some ∅ ∪? (self (count + 1) (Some (row + 1, column + 1)) ∪?
                       self (count + 1) (Some (row + 1, column - 1)) ∪?
                       self (count + 1) (Some (row - 1, column + 1)) ∪?
                       self (count + 1) (Some (row - 1, column - 1)))
          else Some ∅ in
        moves ∪? (self (count + 1) (Some (row + 1, column)) ∪?
                  self (count + 1) (Some (row - 1, column)) ∪?
                  self (count + 1) (Some (row, column + 1)) ∪?
                  self (count + 1) (Some (row, column - 1)))
    end
  end.
End Palace.

Definition blue_diagonal_cells : list pos := [(7, 3); (7, 5); (9, 3); (9, 5); (8, 4)].
Definition red_diagonal_cells : list pos := [(0, 3); (0, 5); (2, 3); (2, 5); (1, 4)].

Definition BlueGeneral_get_legal_moves := palace_get_legal_moves in_blue_fortress blue_diagonal_cells.
Definition RedGeneral_get_legal_moves := palace_get_legal_moves in_red_fortress red_diagonal_cells.
Definition BlueGuard_get_legal_moves := palace_get_legal_moves in_blue_fortress blue_diagonal_cells.
Definition RedGuard_get_legal_moves := palace_get_legal_moves in_red_fortress red_diagonal_cells.

(** ** Horse *)

(** [row > self.get_row()] and friends read [self._location]; subscripting
    a [None] location is a [TypeError], rendered as [None] like any other
    failure to return. *)
Fixpoint Horse_get_legal_moves (fuel : nat) (location : option pos)
    (board : board_t) (opposition : gset pos) (count : Z)
    (current_spot : option pos) : option (gset pos) :=
  match fuel with
  | O => None
  | S fuel =>
    let self := Horse_get_legal_moves fuel location board opposition in
    match current_spot with
    | None => self count location
    | Some (row, column) =>
      if negb (on_board (row, column)) then Some ∅
      else if (count =? 1) && negb (is_empty board (row, column)) then Some ∅
      else if (count =? 2) && negb (is_empty board (row, column))
              && negb (mem (row, column) opposition) then Some ∅
      else if count =? 2 then Some {[ (row, column) ]}
      else if count =? 1 then
        match location with
        | None => None
        | Some (self_row, self_column) =>
          if self_row <? row then
            self (count + 1) (Some (row + 1, column + 1)) ∪?
            self (count + 1) (Some (row + 1, column - 1))
          else if row <? self_row then
            self (count + 1) (Some (row - 1, column + 1)) ∪?
            self (count + 1) (Some (row - 1, column - 1))
          else if self_column <? column then
            self (count + 1) (Some (row + 1, column + 1)) ∪?
            self (count + 1) (Some (row - 1, column + 1))
          else
            self (count + 1) (Some (row + 1, column - 1)) ∪?
            self (count + 1) (Some (row - 1, column - 1))
        end
      else
        self (count + 1) (Some (row + 1, column)) ∪?
        self (count + 1) (Some (row - 1, column)) ∪?
        self (count + 1) (Some (row, column + 1)) ∪?
        self (count + 1) (Some (row, column - 1))
    end
  end.

(** ** Elephant *)

Fixpoint Elephant_get_legal_moves (fuel : nat) (location : option pos)
    (board : board_t) (opposition : gset pos) (count : Z)
    (current_spot : option pos) (direction : option direction)
    : option (gset pos) :=
  match fuel with
  | O => None
  | S fuel =>
    let self := Elephant_get_legal_moves fuel location board opposition in
    match current_spot with
    | None => self count location direction
    | Some (row, column) =>
      if negb (on_board (row, column)) then Some ∅
      else if ((count =? 1) || (count =? 2)) && negb (is_empty board (row, column))
      then Some ∅
      else if (count =? 3) && negb (is_empty board (row, column))
              && negb (mem (row, column) opposition) then Some ∅
      else if count =? 3 then Some {[ (row, column) ]}
      else if count =? 1 then
        match location with
        | None => None
        | Some (self_row, self_column) =>
          if self_row <? row then
            self (count + 1) (Some (row + 1, column + 1)) (Some d_plus_plus) ∪?
            self (count + 1) (Some (row + 1, column - 1)) (Some d_plus_minus)
          else if row <? self_row then
            self (count + 1) (Some (row - 1, column + 1)) (Some d_minus_plus) ∪?
            self (count + 1) (Some (row - 1, column - 1)) (Some d_minus_minus)
          else if self_column <? column then
            self (count + 1) (Some (row + 1, column + 1)) (Some d_plus_plus) ∪?
            self (count + 1) (Some (row - 1, column + 1)) (Some d_minus_plus)
          else
            self (count + 1) (Some (row + 1, column - 1)) (Some d_plus_minus) ∪?
            self (count + 1) (Some (row - 1, column - 1)) (Some d_minus_minus)
        end
      else if count =? 2 then
        if bool_decide (direction = Some d_plus_plus) then
          self (count + 1) (Some (row + 1, column + 1)) None
        else if bool_decide (direction = Some d_plus_minus) then
          self (count + 1) (Some (row + 1, column - 1)) None
        else if bool_decide (direction = Some d_minus_plus) then
          self (count + 1) (Some (row - 1, column + 1)) None
        else
          self (count + 1) (Some (row - 1, column - 1)) None
      else
        self (count + 1) (Some (row + 1, column)) direction ∪?
        self (count + 1) (Some (row - 1, column)) direction ∪?
        self (count + 1) (Some (row, column + 1)) direction ∪?
        self (count + 1) (Some (row, column - 1)) direction
    end
  end.

(** ** Chariot *)

Definition is_diagonal (direction : option direction) : bool :=
  bool_decide (direction = Some d_plus_plus) || bool_decide (direction = Some d_plus_minus)
  || bool_decide (direction = Some d_minus_plus) || bool_decide (direction = Some d_minus_minus).

Definition fortress_diagonal_cells : list pos :=
  [(0, 3); (0, 5); (1, 4); (2, 3); (2, 5); (7, 3); (7, 5); (9, 3); (9, 5); (8, 4)].

Fixpoint Chariot_get_legal_moves (fuel : nat) (location : option pos)
    (board : board_t) (opposition : gset pos)
    (current_spot : option pos) (direction : option direction)
    : option (gset pos) :=
  match fuel with
  | O => None
  | S fuel =>
    let self := Chariot_get_legal_moves fuel location board opposition in
    match current_spot with
    | None => self location None
    | Some (row, column) =>
      let moved := bool_decide (location ≠ Some (row, column)) in
      (* the tail of the method, reached from two places *)
      let fan_out (_ : unit) :=
        let moves :=
          if bool_decide ((row, column) ∈ fortress_diagonal_cells) then
            Some ∅ ∪? (self (Some (row + 1, column + 1)) (Some d_plus_plus) ∪?
                       self (Some (row + 1, column - 1)) (Some d_plus_minus) ∪?
                       self (Some (row - 1, column + 1)) (Some d_minus_plus) ∪?
                       self (Some (row - 1, column - 1)) (Some d_minus_minus))
          else Some ∅ in
        moves ∪? (self (Some (row + 1, column)) (Some d_plus_eq) ∪?
                  self (Some (row - 1, column)) (Some d_minus_eq) ∪?
                  self (Some (row, column + 1)) (Some d_eq_plus) ∪?
                  self (Some (row, column - 1)) (Some d_eq_minus)) in
      if negb (on_board (row, column)) then Some ∅
      else if is_diagonal direction && negb (in_red_fortress (row, column))
              && negb (in_blue_fortress (row, column)) then Some ∅
      else if moved && negb (is_empty board (row, column))
              && negb (mem (row, column) opposition) then Some ∅
      else if moved && mem (row, column) opposition then Some {[ (row, column) ]}
      else if moved && is_empty board (row, column) then
        match direction with
        | Some d_plus_eq => Some {[ (row, column) ]} ∪? self (Some (row + 1, column)) direction
        | Some d_minus_eq => Some {[ (row, column) ]} ∪? self (Some (row - 1, column)) direction
        | Some d_eq_plus => Some {[ (row, column) ]} ∪? self (Some (row, column + 1)) direction
        | Some d_eq_minus => Some {[ (row, column) ]} ∪? self (Some (row, column - 1)) direction
        | Some d_plus_plus => Some {[ (row, column) ]} ∪? self (Some (row + 1, column + 1)) direction
        | Some d_plus_minus => Some {[ (row, column) ]} ∪? self (Some (row + 1, column - 1)) direction
        | Some d_minus_plus => Some {[ (row, column) ]} ∪? self (Some (row - 1, column + 1)) direction
        | Some d_minus_minus => Some {[ (row, column) ]} ∪? self (Some (row - 1, column - 1)) direction
        | None => fan_out ()
        end
      else fan_out ()
    end
  end.

(** ** Cannon *)

(** [[(row, column) for row in range(10) for column in range(9)]] *)
Definition all_cells : list pos :=
  r ← Z.of_nat <$> seq 0 10; c ← Z.of_nat <$> seq 0 9; [(r, c)].

(** [positions]: the occupied cells whose piece is not of type "Cannon". *)
Definition non_cannon_positions (board : board_t) : list pos :=
  List.filter (λ p, match board_at board p with
                    | Some q => negb (String.eqb (get_type q) "Cannon")
                    | None => false
                    end)
              (List.filter (λ p, negb (is_empty board p)) all_cells).

Definition red_corners (p : pos) : option pos :=
  if bool_decide (p = (0, 3)) then Some (2, 5)
  else if bool_decide (p = (0, 5)) then Some (2, 3)
  else if bool_decide (p = (2, 3)) then Some (0, 5)
  else if bool_decide (p = (2, 5)) then Some (0, 3)
  else None.

Definition blue_corners (p : pos) : option pos :=
  if bool_decide (p = (7, 3)) then Some (9, 5)
  else if bool_decide (p = (7, 5)) then Some (9, 3)
  else if bool_decide (p = (9, 3)) then Some (7, 5)
  else if bool_decide (p = (9, 5)) then Some (7, 3)
  else None.

(** [self.get_location() in corners and centre in positions], then
    [diagonals | {corners.get(self.get_location())}]. *)
Definition corner_jump (corners : pos → option pos) (centre : pos)
    (location : option pos) (positions : list pos) : gset pos :=
  match location ≫= corners with
  | Some target => if bool_decide (centre ∈ positions) then {[ target ]} else ∅
  | None => ∅
  end.

Fixpoint Cannon_get_legal_moves (fuel : nat) (location : option pos)
    (board : board_t) (opposition : gset pos) (positions : list pos)
    (count : Z) (current : option pos) (direction : option direction)
    : option (gset pos) :=
  match fuel with
  | O => None
  | S fuel =>
    let self := Cannon_get_legal_moves fuel location board opposition in
    match current with
    | None => self (non_cannon_positions board) count location None
    | Some (row, column) =>
      (* the four-way [if direction == ... elif ... else] ladder *)
      let onward (count : Z) :=
        match direction with
        | Some d_plus_eq => self positions count (Some (row + 1, column)) (Some d_plus_eq)
        | Some d_minus_eq => self positions count (Some (row - 1, column)) (Some d_minus_eq)
        | Some d_eq_plus => self positions count (Some (row, column + 1)) (Some d_eq_plus)
        | _ => self positions count (Some (row, column - 1)) (Some d_eq_minus)
        end in
      if negb (on_board (row, column)) then Some ∅
      else if bool_decide (Some (row, column) ≠ location)
              && negb (is_empty board (row, column))
              && negb (bool_decide ((row, column) ∈ positions)) then Some ∅
      else if 1 <? count then Some ∅
      else if (count =? 1) && mem (row, column) opposition then Some {[ (row, column) ]}
      else if (count =? 1) && is_empty board (row, column) then
        Some {[ (row, column) ]} ∪? onward count
      else if is_empty board (row, column) then onward count
      else if bool_decide ((row, column) ∈ positions) then onward (count + 1)
      else
        let diagonals := ∅ ∪ corner_jump red_corners (0, 4) location positions in
        let diagonals := diagonals ∪ corner_jump blue_corners (8, 4) location positions in
        Some diagonals ∪? (self positions count (Some (row + 1, column)) (Some d_plus_eq) ∪?
                           self positions count (Some (row - 1, column)) (Some d_minus_eq) ∪?
                           self positions count (Some (row, column + 1)) (Some d_eq_plus) ∪?
                           self positions count (Some (row, column - 1)) (Some d_eq_minus))
    end
  end.

(** ** Soldiers *)

Fixpoint RedSoldier_get_legal_moves (fuel : nat) (location : option pos)
    (board : board_t) (opposition : gset pos) (count : Z)
    (current_spot : option pos) : option (gset pos) :=
  match fuel with
  | O => None
  | S fuel =>
    let self := RedSoldier_get_legal_moves fuel location board opposition in
    match current_spot with
    | None => self count location
    | Some (row, column) =>
      if negb (on_board (row, column)) then Some ∅
      else if (count =? 1) && negb (is_empty board (row, column))
              && negb (mem (row, column) opposition) then Some ∅
      else if count =? 1 then Some {[ (row, column) ]}
      else
        let moves : gset pos := ∅ in
        let moves := if bool_decide (location = Some (7, 3)) then {[ (8, 4) ]} else moves in
        let moves := if bool_decide (location = Some (7, 5)) then {[ (8, 4) ]} else moves in
        let moves := if bool_decide (location = Some (8, 4)) then {[ (9, 3); (9, 5) ]} else moves in
        Some moves ∪? (self (count + 1) (Some (row + 1, column)) ∪?
                       self (count + 1) (Some (row, column + 1)) ∪?
                       self (count + 1) (Some (row, column - 1)))
    end
  end.

Fixpoint BlueSoldier_get_legal_moves (fuel : nat) (location : option pos)
    (board : board_t) (opposition : gset pos) (count : Z)
    (current_spot : option pos) : option (gset pos) :=
  match fuel with
  | O => None
  | S fuel =>
    let self := BlueSoldier_get_legal_moves fuel location board opposition in
    match current_spot with
    | None => self count location
    | Some (row, column) =>
      if negb (on_board (row, column)) then Some ∅
      else if (count =? 1) && negb (is_empty board (row, column))
              && negb (mem (row, column) opposition) then Some ∅
      else if count =? 1 then Some {[ (row, column) ]}
      else
        let moves : gset pos := ∅ in
        let moves := if bool_decide (location = Some (2, 3)) then {[ (1, 4) ]} else moves in
        let moves := if bool_decide (location = Some (2, 5)) then {[ (1, 4) ]} else moves in
        let moves := if bool_decide (location = Some (1, 4)) then {[ (0, 3); (0, 5) ]} else moves in
        Some moves ∪? (self (count + 1) (Some (row - 1, column)) ∪?
                       self (count + 1) (Some (row, column + 1)) ∪?
                       self (count + 1) (Some (row, column - 1)))
    end
  end.

(** ** Method dispatch: [piece.get_legal_moves(board, opposition)]

    The call with the default arguments of the class of [piece], on a
    piece whose [_location] is [location]. *)
Definition get_legal_moves (class : piece_class) (location : option pos)
    (board : board_t) (opposition : gset pos) : option (gset pos) :=
  match class with
  | BlueGeneral => BlueGeneral_get_legal_moves recursion_limit location board opposition 0 None
  | RedGeneral => RedGeneral_get_legal_moves recursion_limit location board opposition 0 None
  | BlueGuard => BlueGuard_get_legal_moves recursion_limit location board opposition 0 None
  | RedGuard => RedGuard_get_legal_moves recursion_limit location board opposition 0 None
  | Horse => Horse_get_legal_moves recursion_limit location board opposition 0 None
  | Elephant => Elephant_get_legal_moves recursion_limit location board opposition 0 None None
  | Chariot => Chariot_get_legal_moves recursion_limit location board opposition None None
  | Cannon => Cannon_get_legal_moves recursion_limit location board opposition [] 0 None None
  | RedSoldier => RedSoldier_get_legal_moves recursion_limit location board opposition 0 None
  | BlueSoldier => BlueSoldier_get_legal_moves recursion_limit location board opposition 0 None
  end.

(** ** The game object *)

Inductive game_state := UNFINISHED | RED_WON | BLUE_WON.

#[global] Instance game_state_eq_dec : EqDecision game_state.
Proof. solve_decision. Defined.

Record JanggiGame := Game {
  _blue_pieces : list piece;
  _red_pieces : list piece;
  _game_state : game_state;
  _current_turn : player;
  _board : board_t;
  _location : gmap nat pos     (* the [_location] field of every piece object *)
}.

(** Exceptions the methods can leave through; [NonTermination] marks a
    loop that ran out of its budget (shown below never to happen). *)
Inductive exn :=
| KeyError | ValueError | IndexError | AttributeError | TypeError
| RecursionError | NonTermination.

(** A method call returns a value or raises; either way the mutations done
    so far stay in the object. *)
Inductive result (A : Type) :=
| Return (a : A) (g : JanggiGame)
| Raise (e : exn) (g : JanggiGame).
Arguments Return {A} a g.
Arguments Raise {A} e g.

Definition M (A : Type) : Type := JanggiGame → result A.

Definition ret {A} (a : A) : M A := λ g, Return a g.
Definition raise {A} (e : exn) : M A := λ g, Raise e g.
Definition bind {A B} (m : M A) (f : A → M B) : M B :=
  λ g, match m g with
       | Return a g' => f a g'
       | Raise e g' => Raise e g'
       end.
Definition gets {A} (f : JanggiGame → A) : M A := λ g, Return (f g) g.
Definition modify (f : JanggiGame → JanggiGame) : M unit := λ g, Return tt (f g).
Definition lift {A} (e : exn) (o : option A) : M A :=
  match o with Some a => ret a | None => raise e end.

Declare Scope game_scope.
Delimit Scope game_scope with game.
Notation "'let*' x := m 'in' k" := (bind m (λ x, k))
  (at level 10, x name, m at level 100, k at level 200) : game_scope.
Notation "m ;; k" := (bind m (λ _, k))
  (at level 100, right associativity) : game_scope.
Local Open Scope game_scope.

(** the final state of a call, whichever way it ended *)
Definition state_of {A} (r : result A) : JanggiGame :=
  match r with Return _ g => g | Raise _ g => g end.

(** *** Python sequence indexing *)

(** [l[i]] accepts [-len(l) <= i < len(l)] and raises IndexError otherwise. *)
Definition py_index (len : nat) (i : Z) : option nat :=
  if (0 <=? i) && (i <? Z.of_nat len) then Some (Z.to_nat i)
  else if (- Z.of_nat len <=? i) && (i <? 0) then Some (Z.to_nat (i + Z.of_nat len))
  else None.

Definition getitem {A} (l : list A) (i : Z) : option A :=
  n ← py_index (length l) i; l !! n.

Definition setitem {A} (l : list A) (i : Z) (x : A) : option (list A) :=
  n ← py_index (length l) i; Some (<[n := x]> l).

(** [board[p[0]][p[1]]] *)
Definition board_get (board : board_t) (p : pos) : option cell :=
  row ← getitem board (fst p); getitem row (snd p).

(** [board[p[0]][p[1]] = x] *)
Definition board_set (board : board_t) (p : pos) (x : cell) : option board_t :=
  row ← getitem board (fst p); row' ← setitem row (snd p) x; setitem board (fst p) row'.

(** *** Accessors *)

Definition get_location (g : JanggiGame) (p : piece) : option pos :=
  _location g !! pid p.

Definition with_location (p : piece) (new_location : option pos) (g : JanggiGame)
    : JanggiGame :=
  Game (_blue_pieces g) (_red_pieces g) (_game_state g) (_current_turn g) (_board g)
       (match new_location with
        | Some l => <[pid p := l]> (_location g)
        | None => delete (pid p) (_location g)
        end).

Definition with_board (b : board_t) (g : JanggiGame) : JanggiGame :=
  Game (_blue_pieces g) (_red_pieces g) (_game_state g) (_current_turn g) b (_location g).

Definition with_blue_pieces (l : list piece) (g : JanggiGame) : JanggiGame :=
  Game l (_red_pieces g) (_game_state g) (_current_turn g) (_board g) (_location g).

Definition with_red_pieces (l : list piece) (g : JanggiGame) : JanggiGame :=
  Game (_blue_pieces g) l (_game_state g) (_current_turn g) (_board g) (_location g).

Definition with_current_turn (t : player) (g : JanggiGame) : JanggiGame :=
  Game (_blue_pieces g) (_red_pieces g) (_game_state g) t (_board g) (_location g).

Definition with_game_state (s : game_state) (g : JanggiGame) : JanggiGame :=
  Game (_blue_pieces g) (_red_pieces g) s (_current_turn g) (_board g) (_location g).

Definition set_location (p : piece) (new_location : option pos) : M unit :=
  modify (with_location p new_location).

Definition board_read (p : pos) : M cell :=
  λ g, lift IndexError (board_get (_board g) p) g.

Definition board_write (p : pos) (x : cell) : M unit :=
  λ g, match board_set (_board g) p x with
       | Some b => Return tt (with_board b g)
       | None => Raise IndexError g
       end.

(** Objects are compared by identity (the classes define no [__eq__]). *)
Definition same_object (p q : piece) : bool := Nat.eqb (pid p) (pid q).

(** [opponent in pieces] *)
Definition contains (pieces : list piece) (p : piece) : bool :=
  existsb (same_object p) pieces.

(** [pieces.remove(p)]: drops the first occurrence, ValueError if none. *)
Fixpoint list_remove (p : piece) (pieces : list piece) : option (list piece) :=
  match pieces with
  | [] => None
  | q :: rest => if same_object p q then Some rest
                 else cons q <$> list_remove p rest
  end.

(** [{piece.get_location() for piece in pieces}]; the set is only ever
    asked for the membership of a (row, column) pair, so a [None] location
    contributes nothing. *)
Definition locations (g : JanggiGame) (pieces : list piece) : gset pos :=
  list_to_set (omap (get_location g) pieces).

Definition get_opposition_positions (g : JanggiGame) (player : player) : gset pos :=
  match player with
  | blue => locations g (_red_pieces g)
  | red => locations g (_blue_pieces g)
  end.

Definition get_opposition (g : JanggiGame) : player :=
  match _current_turn g with blue => red | red => blue end.

Definition change_turn : M unit :=
  modify (λ g, with_current_turn (match _current_turn g with blue => red | red => blue end) g).

Definition set_game_state (player : player) : M unit :=
  modify (with_game_state (match player with blue => BLUE_WON | red => RED_WON end)).

(** [piece.get_legal_moves(board, opposition)] on the live object. *)
Definition piece_legal_moves (g : JanggiGame) (p : piece) (opposition : gset pos)
    : option (gset pos) :=
  get_legal_moves (get_class p) (get_location g p) (_board g) opposition.

(** *** is_in_check *)

(** The first loop: [position] ends as the location of the last piece of
    type "General" in the list. *)
Definition general_position (g : JanggiGame) (pieces : list piece) : option pos :=
  foldl (λ position piece,
           if String.eqb (get_type piece) "General" then get_location g piece
           else position)
        None pieces.

(** The second loop: the union of the legal moves of every piece. *)
Definition all_legal_moves (g : JanggiGame) (pieces : list piece)
    (opposition : gset pos) : option (gset pos) :=
  foldl (λ all_positions piece, all_positions ∪? piece_legal_moves g piece opposition)
        (Some ∅) pieces.

Definition is_in_check_pure (g : JanggiGame) (player : player) : option bool :=
  match player with
  | blue =>
    let position := general_position g (_blue_pieces g) in
    all_positions ← all_legal_moves g (_red_pieces g) (get_opposition_positions g red);
    Some (match position with Some p => mem p all_positions | None => false end)
  | red =>
    let position := general_position g (_red_pieces g) in
    all_positions ← all_legal_moves g (_blue_pieces g) (get_opposition_positions g blue);
    Some (match position with Some p => mem p all_positions | None => false end)
  end.

Definition is_in_check (player : player) : M bool :=
  λ g, lift RecursionError (is_in_check_pure g player) g.

(** *** update_board and leaves_in_check *)

(** [if opponent in red: red.remove(opponent) else: blue.remove(opponent)] *)
Definition remove_from_game (opponent : piece) : M unit :=
  λ g, if contains (_red_pieces g) opponent then
         match list_remove opponent (_red_pieces g) with
         | Some l => Return tt (with_red_pieces l g)
         | None => Raise ValueError g
         end
       else
         match list_remove opponent (_blue_pieces g) with
         | Some l => Return tt (with_blue_pieces l g)
         | None => Raise ValueError g
         end.

(** [x.set_location(...)] where [x] was read from a board cell: the
    empty string has no such method. *)
Definition cell_set_location (x : cell) (new_location : option pos) : M unit :=
  match x with
  | Some p => set_location p new_location
  | None => raise AttributeError
  end.

(** The capture block shared by [update_board] and [leaves_in_check]. *)
Definition capture (move_to : pos) : M (option piece) :=
  let* target := board_read move_to in
  match target with
  | Some opponent =>
    board_write move_to None ;;
    set_location opponent None ;;
    remove_from_game opponent ;;
    ret (Some opponent)
  | None => ret None
  end.

Definition update_board (move_from move_to : pos) : M unit :=
  let* piece := board_read move_from in
  board_write move_from None ;;
  capture move_to ;;
  board_write move_to piece ;;
  cell_set_location piece (Some move_to).

Definition leaves_in_check (move_from move_to : pos) : M bool :=
  let* piece := board_read move_from in
  board_write move_from None ;;
  let* opponent := capture move_to in
  board_write move_to piece ;;
  cell_set_location piece (Some move_to) ;;
  let* owner := lift AttributeError (get_owner <$> piece) in
  let* is_in_check := is_in_check owner in
  board_write move_from piece ;;
  cell_set_location piece (Some move_from) ;;
  match opponent with
  | Some opponent =>
    board_write move_to (Some opponent) ;;
    set_location opponent (Some move_to) ;;
    match get_owner opponent with
    | blue => modify (λ g, with_blue_pieces (_blue_pieces g ++ [opponent]) g)
    | red => modify (λ g, with_red_pieces (_red_pieces g ++ [opponent]) g)
    end
  | None => board_write move_to None
  end ;;
  ret is_in_check.

(** *** is_check_mate *)

Definition pieces_of (player : player) (g : JanggiGame) : list piece :=
  match player with red => _red_pieces g | blue => _blue_pieces g end.

(** [for move_to in moves: if not self.leaves_in_check(piece.get_location(),
    move_to): return False]; the result is [true] when the loop body
    returned, i.e. when some move escapes. *)
Fixpoint try_moves (piece : piece) (moves : list pos) : M bool :=
  match moves with
  | [] => ret false
  | move_to :: moves =>
    let* location := gets (λ g, get_location g piece) in
    let* move_from := lift TypeError location in
    let* still_in_check := leaves_in_check move_from move_to in
    if negb still_in_check then ret true else try_moves piece moves
  end.

(** [for piece in self.get_red_pieces(): ...].  The list iterator keeps an
    index into the live list, and [leaves_in_check] removes from and
    appends to the piece lists while the loop runs, so the loop is an
    index loop over the list as it is at each step.

    The order in which the interpreter walks the set [moves] is that of
    its hash table; it depends on how the set was built and is not
    modelled: the moves are tried here in the order of [elements].  The
    order decides which simulated captures take place before an escape is
    found, hence the order of the piece lists afterwards and, through the
    index loop, which pieces later loops skip.  What is proved of
    [is_check_mate] for every game uses the moves through membership
    only. *)
Fixpoint is_check_mate_loop (fuel : nat) (player : player) (index : nat) : M bool :=
  match fuel with
  | O => raise NonTermination
  | S fuel =>
    let* pieces := gets (pieces_of player) in
    match pieces !! index with
    | None => ret true
    | Some piece =>
      let* opposition := gets (λ g, get_opposition_positions g player) in
      let* moves := (λ g, lift RecursionError (piece_legal_moves g piece opposition) g) in
      let* escaped := try_moves piece (elements moves) in
      if escaped then ret false else is_check_mate_loop fuel player (S index)
    end
  end.

Definition is_check_mate (player : player) : M bool :=
  let* budget := gets (λ g, S (length (_blue_pieces g) + length (_red_pieces g))) in
  is_check_mate_loop budget player 0.

(** *** Translating the algebraic notation *)

Definition translate (c : ascii) : option Z :=
  if Ascii.eqb c "a"%char then Some 0 else if Ascii.eqb c "b"%char then Some 1
  else if Ascii.eqb c "c"%char then Some 2 else if Ascii.eqb c "d"%char then Some 3
  else if Ascii.eqb c "e"%char then Some 4 else if Ascii.eqb c "f"%char then Some 5
  else if Ascii.eqb c "g"%char then Some 6 else if Ascii.eqb c "h"%char then Some 7
  else if Ascii.eqb c "i"%char then Some 8 else None.

(** [int(s)] for a [str] whose code points are below 256.  The
    interpreter first turns the blanks outside ASCII into a space (below
    256 these are U+0085 and U+00A0) and then reads the text as the C
    function does: the blanks it skips on both sides are tab, line feed,
    vertical tab, form feed, carriage return and space, so the separators
    U+001C to U+001F, blanks for [str.isspace] and [str.strip], are not
    skipped here and make the text invalid.  One sign is allowed, the
    digits may be separated by single underscores, and a text of more than
    [int_max_str_digits] digits is refused.  [None] is the ValueError. *)
Definition is_space (c : ascii) : bool :=
  let n := nat_of_ascii c in
  ((9 <=? n) && (n <=? 13) || (n =? 32) || (n =? 133) || (n =? 160))%nat.

Definition digit_value (c : ascii) : option Z :=
  let n := nat_of_ascii c in
  if ((48 <=? n) && (n <=? 57))%nat then Some (Z.of_nat (n - 48)) else None.

Definition is_digit (c : ascii) : bool :=
  match digit_value c with Some _ => true | None => false end.

(** [sys.get_int_max_str_digits()], as the interpreter starts. *)
Definition int_max_str_digits : Z := 4300.

Fixpoint lstrip (s : list ascii) : list ascii :=
  match s with
  | c :: s' => if is_space c then lstrip s' else s
  | [] => []
  end.

Fixpoint int_digits (acc : Z) (after_digit : bool) (s : list ascii) : option Z :=
  match s with
  | [] => if after_digit then Some acc else None
  | c :: s' =>
    match digit_value c with
    | Some d => int_digits (10 * acc + d) true s'
    | None => if Ascii.eqb c "_"%char && after_digit then int_digits acc false s' else None
    end
  end.

(** The digits after the sign: the leading zeros count as digits, the
    underscores do not. *)
Definition int_body (s : list ascii) : option Z :=
  if int_max_str_digits <? Z.of_nat (length (List.filter is_digit s)) then None
  else int_digits 0 false s.

Definition py_int (s : string) : option Z :=
  match reverse (lstrip (reverse (lstrip (String.list_ascii_of_string s)))) with
  | c :: s' =>
    if Ascii.eqb c "-"%char then Z.opp <$> int_body s'
    else if Ascii.eqb c "+"%char then int_body s'
    else int_body (c :: s')
  | [] => None
  end.

(** [s[1:]] and [s[0]] *)
Definition tail_of (s : string) : string :=
  match s with String.String _ s' => s' | String.EmptyString => String.EmptyString end.

(** [(int(s[1:]) - 1, translate[s[0]])], evaluated left to right. *)
Definition parse_position (s : string) : exn + pos :=
  match py_int (tail_of s) with
  | None => inl ValueError
  | Some rank =>
    match s with
    | String.EmptyString => inl IndexError
    | String.String c _ =>
      match translate c with
      | None => inl KeyError
      | Some column => inr (rank - 1, column)
      end
    end
  end.

Definition lift_exn {A} (x : exn + A) : M A :=
  match x with inl e => raise e | inr a => ret a end.

(** *** make_move *)

Definition make_move (move_from move_to : string) : M bool :=
  let* to_position := lift_exn (parse_position move_to) in
  let* from_position := lift_exn (parse_position move_from) in
  let* state := gets _game_state in
  if bool_decide (state ≠ UNFINISHED) then ret false else
  let* origin := board_read from_position in
  match origin with
  | None => ret false
  | Some piece =>
    let player := get_owner piece in
    let* turn := gets _current_turn in
    if bool_decide (player ≠ turn) then ret false else
    let* passing :=
      (if String.eqb move_from move_to
       then let* in_check := is_in_check player in ret (negb in_check)
       else ret false) in
    if passing then change_turn ;; ret true else
    let* opposition := gets (λ g, get_opposition_positions g player) in
    let* moves := (λ g, lift RecursionError (piece_legal_moves g piece opposition) g) in
    if negb (mem to_position moves) then ret false else
    let* in_check := leaves_in_check from_position to_position in
    if in_check then ret false else
    update_board from_position to_position ;;
    let* opponent := gets get_opposition in
    let* in_check := is_in_check opponent in
    let* mate := (if in_check then
                    let* opponent := gets get_opposition in is_check_mate opponent
                  else ret false) in
    if mate then set_game_state player ;; ret true
    else change_turn ;; ret true
  end.

(** *** Setting up the game *)

(** A constructor call [Class(owner, location, piece_type)] followed by
    [self._<owner>_pieces += [...]]: the new object gets a fresh identity. *)
Definition new_piece (class : piece_class) (owner : player) (location : pos)
    (piece_type : string) : M unit :=
  λ g, let p := Piece (size (_location g)) owner piece_type class in
       let g := with_location p (Some location) g in
       Return tt (match owner with
                  | blue => with_blue_pieces (_blue_pieces g ++ [p]) g
                  | red => with_red_pieces (_red_pieces g ++ [p]) g
                  end).

Fixpoint for_each {A} (l : list A) (body : A → M unit) : M unit :=
  match l with
  | [] => ret tt
  | x :: l => body x ;; for_each l body
  end.

Definition blue_initial : pos * list (list pos) :=
  ((8, 4), [[(9, 3); (9, 5)]; [(9, 2); (9, 7)]; [(9, 1); (9, 6)]; [(9, 0); (9, 8)];
            [(7, 1); (7, 7)]; [(6, 0); (6, 2); (6, 4); (6, 6); (6, 8)]]).

Definition red_initial : pos * list (list pos) :=
  ((1, 4), [[(0, 3); (0, 5)]; [(0, 2); (0, 7)]; [(0, 1); (0, 6)]; [(0, 0); (0, 8)];
            [(2, 1); (2, 7)]; [(3, 0); (3, 2); (3, 4); (3, 6); (3, 8)]]).

(** [initial[i][number]] for [i >= 1] *)
Definition initial_at (initial : pos * list (list pos)) (i number : nat) : M pos :=
  lift IndexError (snd initial !! (i - 1)%nat ≫= (.!! number)).

Definition create_pieces : M unit :=
  new_piece BlueGeneral blue (fst blue_initial) "General" ;;
  new_piece RedGeneral red (fst red_initial) "General" ;;
  for_each (seq 0 2) (λ number,
    (let* l := initial_at blue_initial 1 number in new_piece BlueGuard blue l "Guard") ;;
    (let* l := initial_at blue_initial 2 number in new_piece Horse blue l "Horse") ;;
    (let* l := initial_at blue_initial 3 number in new_piece Elephant blue l "Elephant") ;;
    (let* l := initial_at blue_initial 4 number in new_piece Chariot blue l "Chariot") ;;
    (let* l := initial_at blue_initial 5 number in new_piece Cannon blue l "Cannon") ;;
    (let* l := initial_at red_initial 1 number in new_piece RedGuard red l "Guard") ;;
    (let* l := initial_at red_initial 2 number in new_piece Horse red l "Horse") ;;
    (let* l := initial_at red_initial 3 number in new_piece Elephant red l "Elephant") ;;
    (let* l := initial_at red_initial 4 number in new_piece Chariot red l "Chariot") ;;
    (let* l := initial_at red_initial 5 number in new_piece Cannon red l "Cannon")) ;;
  for_each (seq 0 5) (λ number,
    (let* l := initial_at blue_initial 6 number in new_piece BlueSoldier blue l "Soldier") ;;
    (let* l := initial_at red_initial 6 number in new_piece RedSoldier red l "Soldier")).

Definition place (piece : piece) : M unit :=
  let* location := gets (λ g, get_location g piece) in
  let* position := lift TypeError location in
  board_write position (Some piece).

Definition add_pieces : M unit :=
  (let* pieces := gets _blue_pieces in for_each pieces place) ;;
  (let* pieces := gets _red_pieces in for_each pieces place).

Definition create_board : M unit :=
  modify (with_board (replicate 10 (replicate 9 None))) ;;
  create_pieces ;;
  add_pieces.

(** [JanggiGame()] *)
Definition new_game : result unit :=
  create_board (Game [] [] UNFINISHED blue [] ∅).

Definition initial_game : JanggiGame := Eval vm_compute in state_of new_game.

(** Running a sequence of [make_move] calls on one game object. *)
Definition play (g : JanggiGame) (calls : list (string * string)) : JanggiGame :=
  foldl (λ g call, state_of (make_move call.1 call.2 g)) g calls.

Definition returned {A} (r : result A) : option A :=
  match r with Return a _ => Some a | Raise _ _ => None end.

(** The value returned by each call of a sequence of [make_move] calls
    ([None] for a call that raises). *)
Fixpoint outcomes (g : JanggiGame) (calls : list (string * string)) : list (option bool) :=
  match calls with
  | [] => []
  | call :: calls =>
    let r := make_move call.1 call.2 g in returned r :: outcomes (state_of r) calls
  end.

(** *** print_board

    The method only reads the grid; its value here is the list of the lines
    it has printed when it returns. *)

Definition a_i : string := "abcdefghi".

(** [self._name = owner + piece_type], where [owner] is the string the
    constructor was given. *)
Definition owner_name (side : player) : string :=
  match side with blue => "blue" | red => "red" end.

Definition get_name (p : piece) : string := owner_name (get_owner p) +:+ get_type p.

(** [s * n]: the empty string when [n] is not positive. *)
Definition str_repeat (s : string) (n : Z) : string :=
  foldr String.append "" (replicate (Z.to_nat n) s).

(** [str(n)] for an integer. *)
Definition str (n : Z) : string := pretty n.

(** The first loop: the line of column letters. *)
Definition top_line : string :=
  foldl (λ top letter,
           (if Ascii.eqb letter "a" then top +:+ "   " else top)
           +:+ (" ______" +:+ String.String letter "" +:+ "______ "))
        "" (String.list_ascii_of_string a_i).

(** What one cell adds to its line. *)
Definition cell_text (c : cell) : string :=
  match c with
  | Some p =>
    let difference := 13 - Z.of_nat (String.length (get_name p)) in
    let extra_spaces := str_repeat " " difference in
    "|" +:+ get_name p +:+ extra_spaces +:+ "|"
  | None => "|_____________|"
  end.

Definition row_label (row : Z) : string :=
  if row =? 9 then str (row + 1) +:+ " " else str (row + 1) +:+ "  ".

(** [for column in range(9): ...] *)
Fixpoint print_cells (row : Z) (columns : list Z) (line : string) : M string :=
  match columns with
  | [] => ret line
  | column :: columns =>
    let* c := board_read (row, column) in
    print_cells row columns (line +:+ cell_text c)
  end.

(** [for row in range(10): ...; print(line)] *)
Fixpoint print_rows (rows : list Z) : M (list string) :=
  match rows with
  | [] => ret []
  | row :: rows =>
    let* line := print_cells row (Z.of_nat <$> seq 0 9) (row_label row) in
    let* lines := print_rows rows in
    ret (line :: lines)
  end.

(** The lines that [print_board] has printed when it returns. *)
Definition print_board : M (list string) :=
  let* lines := print_rows (Z.of_nat <$> seq 0 10) in
  ret (top_line :: lines ++ [""]).

(** ** Games played out from the initial layout

    The calls of the first block of [main()], in order. *)
Definition readme_calls : list (string * string) :=
  [("c1", "e3"); ("a7", "b7"); ("a4", "a5"); ("b7", "b6"); ("b3", "b6");
   ("a1", "a4"); ("c7", "d7"); ("a4", "a4")].

(** The game that [main()] plays out on its second board [j], call by
    call, and what the comment next to each call says it returns. *)
Definition demo_calls : list (string * string) :=
  [
   ("a7", "a6"); ("c4", "c5"); ("a6", "b5"); ("a6", "a5"); ("i4", "h5");
   ("c1", "d3"); ("e7", "e6"); ("d3", "e5"); ("a4", "b3"); ("g10", "e7");
   ("e5", "d7"); ("e5", "c4"); ("e7", "h5"); ("d1", "c1"); ("e2", "d3");
   ("e9", "g9"); ("f10", "g10"); ("b10", "c8"); ("c10", "d8"); ("f1", "e2");
   ("a10", "a5"); ("a10", "a6"); ("h3", "f3"); ("h3", "h7"); ("h8", "h6");
   ("a6", "d6"); ("a4", "a5"); ("b1", "d4"); ("f10", "f9"); ("h7", "f7");
   ("h5", "f2"); ("f7", "f10"); ("h10", "g8"); ("f10", "c7"); ("f10", "d8");
   ("a5", "a4"); ("a1", "a4"); ("e9", "d8"); ("e2", "f2"); ("i7", "i6");
   ("c5", "c6"); ("d6", "c6"); ("a4", "b4"); ("b10", "d7"); ("b4", "b8");
   ("d8", "e9"); ("b3", "b9"); ("h8", "b8"); ("b9", "f9"); ("e9", "f9");
   ("h1", "g3"); ("c6", "c4"); ("i4", "i5"); ("i6", "i5"); ("g4", "g5");
   ("c4", "c3"); ("d3", "e2"); ("c3", "g3"); ("f2", "f3"); ("d7", "b4");
   ("e2", "e1"); ("g3", "g5"); ("d4", "f1"); ("b8", "b1"); ("e1", "f2");
   ("d1", "d2"); ("g5", "g3"); ("f1", "d4"); ("b1", "g1"); ("i1", "h1");
   ("i10", "h10"); ("h1", "h10"); ("g8", "h10"); ("e4", "f4"); ("g3", "g2");
   ("d2", "d3"); ("g2", "g4"); ("e1", "e2"); ("g4", "f4"); ("d4", "a6");
   ("e6", "e5"); ("a6", "c9"); ("e5", "e4"); ("c9", "e6"); ("b4", "e6");
   ("d3", "d2"); ("h10", "g8"); ("e2", "e1"); ("f4", "f3"); ("d2", "e2");
   ("e4", "e3"); ("e1", "e1"); ("e6", "h4"); ("e1", "e1"); ("f3", "e2");
   ("e1", "e2"); ("e2", "e2")].

Definition demo_expected : list bool :=
  [
   true; true; false; true; false; true; true; true; false; true; false; true;
   true; false; true; false; false; false; true; true; false; true; false;
   true; false; true; false; true; true; true; true; true; true; false; true;
   true; true; true; true; true; true; true; true; true; true; true; true;
   true; true; true; true; true; true; true; true; true; true; true; true;
   true; true; true; true; true; false; true; true; true; true; true; true;
   true; true; true; true; true; true; true; true; true; true; true; true;
   true; true; true; true; true; true; true; true; true; true; true; true;
   false; false].

(** Blue opens the a-file and checks along rank 2, while a red Soldier
    walks up to the blue Soldier on c7. *)
Definition rank_two_check : list (string * string) :=
  [("a7", "b7"); ("c4", "c5"); ("a10", "a4"); ("c5", "c6"); ("a4", "a2")].

(** The blue Cannon jumps its Horse into the corner f8 of its own
    fortress; red passes in between. *)
Definition cannon_to_f8 : list (string * string) :=
  [("c10", "d8"); ("a4", "a4"); ("b8", "f8"); ("a4", "a4")].

(** The red Cannon jumps its Chariot into the corner d3 of its own
    fortress and the Guard leaves the opposite corner f1; blue passes. *)
Definition cannon_to_d3 : list (string * string) :=
  [("a7", "a7"); ("a1", "a2"); ("a7", "a7"); ("a2", "c2"); ("a7", "a7");
   ("c2", "c3"); ("a7", "a7"); ("b3", "d3"); ("a7", "a7"); ("f1", "f2");
   ("a7", "a7")].

(** Then the red General steps from the centre e2 to e1. *)
Definition general_to_e1 : list (string * string) :=
  cannon_to_d3 ++ [("e2", "e1"); ("a7", "a7")].

(** Blue walls its General in on e10 (Guards on d10 and f10, Horse on
    e9), puts a Cannon on the corner f8, and a red Horse comes round to
    i8, one jump from g9. *)
Definition walled_in_general : list (string * string) :=
  [("e9", "e10"); ("g4", "f4"); ("c10", "d8"); ("h1", "g3"); ("d8", "f7");
   ("g3", "f5"); ("f7", "e9"); ("a4", "a4"); ("g7", "h7"); ("f5", "g7");
   ("h8", "h5"); ("a4", "a4"); ("h7", "h6"); ("g7", "i8"); ("b10", "e8");
   ("a4", "a4"); ("b8", "f8")].

(** * Specification vocabulary *)

(** A cell is friendly-occupied for a piece whose opponents stand on
    [opposition] when it holds a piece and is not in [opposition]: the
    test [board[row][column] != "" and current_spot not in opposition]. *)
Definition friendly (board : board_t) (opposition : gset pos) (p : pos) : bool :=
  negb (is_empty board p) && negb (mem p opposition).

(** The call returns, and every cell of the returned set satisfies [P]. *)
Definition returns (o : option (gset pos)) (P : pos → Prop) : Prop :=
  ∃ S, o = Some S ∧ ∀ m, m ∈ S → P m.

Definition king_step (loc m : pos) : Prop :=
  m ≠ loc ∧ -1 ≤ fst m - fst loc ≤ 1 ∧ -1 ≤ snd m - snd loc ≤ 1.

Definition horse_jump (loc m : pos) : Prop :=
  (Z.abs (fst m - fst loc) = 2 ∧ Z.abs (snd m - snd loc) = 1) ∨
  (Z.abs (fst m - fst loc) = 1 ∧ Z.abs (snd m - snd loc) = 2).

Definition elephant_jump (loc m : pos) : Prop :=
  (Z.abs (fst m - fst loc) = 3 ∧ Z.abs (snd m - snd loc) = 2) ∨
  (Z.abs (fst m - fst loc) = 2 ∧ Z.abs (snd m - snd loc) = 3).

(** The last step of the Elephant, as chosen by its direction string. *)
Definition diagonal_step (direction : option direction) : pos :=
  match direction with
  | Some d_plus_plus => (1, 1)
  | Some d_plus_minus => (1, -1)
  | Some d_minus_plus => (-1, 1)
  | _ => (-1, -1)
  end.

(** What one recursive call of a Soldier at [count = 1] contributes. *)
Definition soldier_step (board : board_t) (opposition : gset pos) (p : pos) : gset pos :=
  if on_board p && negb (friendly board opposition p) then {[ p ]} else ∅.

(** The value of [moves] after the three location tests of RedSoldier. *)
Definition red_soldier_diagonals (location : pos) : gset pos :=
  if bool_decide (location = (8, 4)) then {[ (9, 3); (9, 5) ]}
  else if bool_decide (location = (7, 5)) then {[ (8, 4) ]}
  else if bool_decide (location = (7, 3)) then {[ (8, 4) ]}
  else ∅.

Definition blue_soldier_diagonals (location : pos) : gset pos :=
  if bool_decide (location = (1, 4)) then {[ (0, 3); (0, 5) ]}
  else if bool_decide (location = (2, 5)) then {[ (1, 4) ]}
  else if bool_decide (location = (2, 3)) then {[ (1, 4) ]}
  else ∅.

Definition step_of (d : direction) : pos :=
  match d with
  | d_plus_eq => (1, 0) | d_minus_eq => (-1, 0)
  | d_eq_plus => (0, 1) | d_eq_minus => (0, -1)
  | d_plus_plus => (1, 1) | d_plus_minus => (1, -1)
  | d_minus_plus => (-1, 1) | d_minus_minus => (-1, -1)
  end.

Definition advance (d : direction) (p : pos) : pos :=
  (fst p + fst (step_of d), snd p + snd (step_of d)).

(** [m] lies on the ray that leaves [loc] in direction [d]. *)
Definition beyond (loc : pos) (d : direction) (m : pos) : Prop :=
  ∃ k, 1 ≤ k ∧ m = (fst loc + k * fst (step_of d), snd loc + k * snd (step_of d)).

(** How many more cells a slide from [p] in direction [d] can visit
    before it leaves the board: the recursion depth it needs. *)
Definition room (d : direction) (p : pos) : Z :=
  match d with
  | d_plus_eq | d_plus_plus | d_plus_minus => 10 - fst p
  | d_minus_eq | d_minus_plus | d_minus_minus => fst p + 1
  | d_eq_plus => 9 - snd p
  | d_eq_minus => snd p + 1
  end.

Definition orthogonal (d : direction) : Prop :=
  d = d_plus_eq ∨ d = d_minus_eq ∨ d = d_eq_plus ∨ d = d_eq_minus.

(** The set [diagonals] of the Cannon. *)
Definition cannon_diagonals (loc : pos) (positions : list pos) : gset pos :=
  corner_jump red_corners (0, 4) (Some loc) positions
  ∪ corner_jump blue_corners (8, 4) (Some loc) positions.

Definition other (side : player) : player :=
  match side with blue => red | red => blue end.

(** The piece whose location the first loop of [is_in_check] ends with. *)
Definition the_general (pieces : list piece) : option piece :=
  last (List.filter (λ p, String.eqb (get_type p) "General") pieces).

(** *** Well-formed games

    The invariant of section 3 of the specification, in the form the
    proofs use: the grid is 10 x 9; the occupant of a cell records that
    cell as its location and is listed with its owner's pieces; every
    listed piece has a location and is owned by the side that lists it;
    and no object is listed twice. *)
Definition board_shape (b : board_t) : Prop :=
  length b = 10%nat ∧ Forall (λ r, length r = 9%nat) b.

Definition cell_ok (g : JanggiGame) (l : pos) : Prop :=
  match board_at (_board g) l with
  | Some p => get_location g p = Some l ∧ p ∈ pieces_of (get_owner p) g
  | None => True
  end.

Record wf (g : JanggiGame) : Prop := {
  wf_shape : board_shape (_board g);
  wf_cells : Forall (cell_ok g) all_cells;
  wf_located : Forall (λ p, is_Some (get_location g p)) (_blue_pieces g ++ _red_pieces g);
  wf_blue : Forall (λ p, get_owner p = blue) (_blue_pieces g);
  wf_red : Forall (λ p, get_owner p = red) (_red_pieces g);
  wf_distinct : NoDup (pid <$> _blue_pieces g ++ _red_pieces g)
}.

(** Well-formedness of a concrete game is decided by evaluation. *)

#[global] Instance cell_ok_dec g l : Decision (cell_ok g l).
Proof. unfold cell_ok. destruct (board_at (_board g) l); apply _. Defined.

#[global] Instance board_shape_dec b : Decision (board_shape b).
Proof. unfold board_shape. apply _. Defined.

Definition wf_check (g : JanggiGame) : bool :=
  bool_decide (board_shape (_board g))
  && bool_decide (Forall (cell_ok g) all_cells)
  && bool_decide (Forall (λ p, is_Some (get_location g p)) (_blue_pieces g ++ _red_pieces g))
  && bool_decide (Forall (λ p, get_owner p = blue) (_blue_pieces g))
  && bool_decide (Forall (λ p, get_owner p = red) (_red_pieces g))
  && bool_decide (NoDup (pid <$> _blue_pieces g ++ _red_pieces g)).

(** the list of [side] replaced by [l] *)
Definition with_pieces (side : player) (l : list piece) (g : JanggiGame) : JanggiGame :=
  match side with
  | blue => with_blue_pieces l g
  | red => with_red_pieces l g
  end.

(** The number of listed pieces, which the simulation preserves. *)
Definition total_pieces (g : JanggiGame) : nat :=
  (length (_blue_pieces g) + length (_red_pieces g))%nat.

(** The call never leaves through an exhausted loop budget. *)
Definition never_loops {A} (m : M A) : Prop :=
  ∀ g e g', m g = Raise e g' → e ≠ NonTermination.

(** Two states that differ at most in the order of the two piece lists. *)
Definition same_up_to_order (g g' : JanggiGame) : Prop :=
  _board g' = _board g ∧ _location g' = _location g
  ∧ _game_state g' = _game_state g ∧ _current_turn g' = _current_turn g
  ∧ _blue_pieces g' ≡ₚ _blue_pieces g ∧ _red_pieces g' ≡ₚ _red_pieces g.

(** The union of [get_legal_moves(board, positions of S's pieces)] over the
    pieces of the opponent of [S] contains the location of S's General. *)
Definition general_attacked (g : JanggiGame) (S : player) : Prop :=
  ∃ general position attacker moves,
    the_general (pieces_of S g) = Some general
    ∧ get_location g general = Some position
    ∧ attacker ∈ pieces_of (other S) g
    ∧ piece_legal_moves g attacker (locations g (pieces_of S g)) = Some moves
    ∧ position ∈ moves.

(** *** The moves of the pieces, in words of the board *)

(** The fortress of a side, the cells of it that have diagonal lines, and
    the two classes of its palace pieces. *)
Definition fortress_of (side : player) : pos → bool :=
  match side with blue => in_blue_fortress | red => in_red_fortress end.

Definition diagonal_cells_of (side : player) : list pos :=
  match side with blue => blue_diagonal_cells | red => red_diagonal_cells end.

Definition General_of (side : player) : piece_class :=
  match side with blue => BlueGeneral | red => RedGeneral end.

Definition Guard_of (side : player) : piece_class :=
  match side with blue => BlueGuard | red => RedGuard end.

(** [m] is the next cell along a row or a column; along a diagonal. *)
Definition orthogonal_step (loc m : pos) : Prop :=
  Z.abs (fst m - fst loc) + Z.abs (snd m - snd loc) = 1.

Definition diagonal_neighbour (loc m : pos) : Prop :=
  Z.abs (fst m - fst loc) = 1 ∧ Z.abs (snd m - snd loc) = 1.

(** A move of a General or a Guard of [side] from [loc] to [m]. *)
Definition palace_move (side : player) (board : board_t) (opposition : gset pos)
    (loc m : pos) : Prop :=
  fortress_of side loc = true ∧ fortress_of side m = true
  ∧ friendly board opposition m = false
  ∧ (orthogonal_step loc m ∨ (loc ∈ diagonal_cells_of side ∧ diagonal_neighbour loc m)).

(** The cell next to [loc] that a Horse crosses on its way to [m]. *)
Definition horse_leg (loc m : pos) : pos :=
  if Z.abs (fst m - fst loc) =? 2 then (fst loc + Z.sgn (fst m - fst loc), snd loc)
  else (fst loc, snd loc + Z.sgn (snd m - snd loc)).

(** The two cells an Elephant crosses on its way from [loc] to [m]. *)
Definition elephant_legs (loc m : pos) : pos * pos :=
  let sr := Z.sgn (fst m - fst loc) in
  let sc := Z.sgn (snd m - snd loc) in
  if Z.abs (fst m - fst loc) =? 3
  then ((fst loc + sr, snd loc), (fst loc + 2 * sr, snd loc + sc))
  else ((fst loc, snd loc + sc), (fst loc + sr, snd loc + 2 * sc)).

(** The cell [k] steps away from [loc] in direction [d]. *)
Definition ray (loc : pos) (d : direction) (k : Z) : pos :=
  (fst loc + k * fst (step_of d), snd loc + k * snd (step_of d)).

(** A cell a Chariot moving in direction [d] may stand on: on the board,
    and inside a fortress when [d] is diagonal. *)
Definition chariot_cell (d : direction) (c : pos) : Prop :=
  on_board c = true
  ∧ (is_diagonal (Some d) = true → in_red_fortress c || in_blue_fortress c = true).

(** A cell the Chariot slides across, and a cell it may stop on. *)
Definition chariot_passes (board : board_t) (opposition : gset pos) (d : direction)
    (c : pos) : Prop :=
  chariot_cell d c ∧ is_empty board c = true ∧ c ∉ opposition.

Definition chariot_stops (board : board_t) (opposition : gset pos) (d : direction)
    (c : pos) : Prop :=
  chariot_cell d c ∧ friendly board opposition c = false.

(** The piece a Cannon jumps over: a piece that is not a Cannon. *)
Definition cannon_screen (board : board_t) (positions : list pos) (c : pos) : Prop :=
  on_board c = true ∧ is_empty board c = false ∧ c ∈ positions.

(** A cell the Cannon flies over after the screen, and a cell it may land on. *)
Definition cannon_passes (board : board_t) (opposition : gset pos) (c : pos) : Prop :=
  on_board c = true ∧ is_empty board c = true ∧ c ∉ opposition.

Definition cannon_lands (board : board_t) (opposition : gset pos) (positions : list pos)
    (c : pos) : Prop :=
  on_board c = true ∧ (is_empty board c = true ∨ (c ∈ positions ∧ c ∈ opposition)).

(** The cells a piece of a class is confined to: its own fortress for a
    General and a Guard. *)
Definition in_palace (class : piece_class) (l : pos) : bool :=
  match class with
  | BlueGeneral | BlueGuard => in_blue_fortress l
  | RedGeneral | RedGuard => in_red_fortress l
  | _ => true
  end.

(** *** The invariant of the game object, and what a call does to it *)

(** A listed piece stands on the cell it records. *)
Definition on_its_cell (g : JanggiGame) (p : piece) : Prop :=
  match get_location g p with
  | Some l => on_board l = true ∧ board_at (_board g) l = Some p
  | None => False
  end.

(** Every listed piece stands on the cell it records. *)
Definition placed (g : JanggiGame) : Prop :=
  Forall (on_its_cell g) (_blue_pieces g ++ _red_pieces g).

(** The invariant of the game object between two calls of [make_move]. *)
Definition consistent (g : JanggiGame) : Prop := wf g ∧ placed g.

#[global] Instance on_its_cell_dec g p : Decision (on_its_cell g p).
Proof. unfold on_its_cell. destruct (get_location g p); apply _. Defined.

(** The invariant as a test, for concrete games. *)
Definition consistent_check (g : JanggiGame) : bool :=
  wf_check g && bool_decide (placed g).

(** The state that [set_game_state] sets when [side] has won. *)
Definition win (side : player) : game_state :=
  match side with blue => BLUE_WON | red => RED_WON end.

(** The rank of an origin is 1 or more (ranks of 0 and below are read by
    Python from the far end of the grid). *)
Definition rank_ok (s : string) : bool :=
  match parse_position s with
  | inr f => 0 <=? fst f
  | inl _ => true
  end.

(** [g'] is [g] after the piece [p] has gone from [f] to [t]: the grid
    differs on these two cells only, [p] records [t], and the piece that
    stood on [t], if any, has lost its location and its place in the list
    of its owner.  The order of the lists is left open. *)
Definition moved (g g' : JanggiGame) (p : piece) (f t : pos) : Prop :=
  board_at (_board g') t = Some p ∧ board_at (_board g') f = None
  ∧ (∀ l, on_board l = true → l ≠ f → l ≠ t →
          board_at (_board g') l = board_at (_board g) l)
  ∧ get_location g' p = Some t
  ∧ match board_at (_board g) t with
    | Some o =>
      get_location g' o = None
      ∧ (∀ x, pid x ≠ pid p → pid x ≠ pid o → get_location g' x = get_location g x)
      ∧ pieces_of (get_owner o) g ≡ₚ o :: pieces_of (get_owner o) g'
      ∧ pieces_of (other (get_owner o)) g' ≡ₚ pieces_of (other (get_owner o)) g
    | None =>
      (∀ x, pid x ≠ pid p → get_location g' x = get_location g x)
      ∧ _blue_pieces g' ≡ₚ _blue_pieces g ∧ _red_pieces g' ≡ₚ _red_pieces g
    end.

(** The ways a call [make_move(move_from, move_to)] can end on an
    unfinished game once both arguments have been translated, to [f] and
    [t]: one constructor for each [return] of the method, and one for the
    IndexError of the first subscript. *)
Inductive move_outcome (g : JanggiGame) (move_from move_to : string) (f t : pos)
    : result bool → Prop :=
| origin_beyond_the_grid :
    10 ≤ fst f →
    move_outcome g move_from move_to f t (Raise IndexError g)
| origin_empty :
    on_board f = true → board_at (_board g) f = None →
    move_outcome g move_from move_to f t (Return false g)
| not_the_movers_piece p :
    on_board f = true → board_at (_board g) f = Some p →
    get_owner p ≠ _current_turn g →
    move_outcome g move_from move_to f t (Return false g)
| turn_passed p :
    on_board f = true → board_at (_board g) f = Some p →
    get_owner p = _current_turn g →
    move_from = move_to → is_in_check_pure g (_current_turn g) = Some false →
    move_outcome g move_from move_to f t
      (Return true (with_current_turn (other (_current_turn g)) g))
| not_a_legal_move p moves :
    on_board f = true → board_at (_board g) f = Some p →
    get_owner p = _current_turn g →
    move_from ≠ move_to ∨ is_in_check_pure g (_current_turn g) = Some true →
    piece_legal_moves g p (get_opposition_positions g (_current_turn g)) = Some moves →
    t ∉ moves →
    move_outcome g move_from move_to f t (Return false g)
| own_general_exposed p moves g1 :
    on_board f = true → board_at (_board g) f = Some p →
    get_owner p = _current_turn g →
    move_from ≠ move_to ∨ is_in_check_pure g (_current_turn g) = Some true →
    piece_legal_moves g p (get_opposition_positions g (_current_turn g)) = Some moves →
    t ∈ moves →
    leaves_in_check f t g = Return true g1 →
    move_outcome g move_from move_to f t (Return false g1)
| move_made p moves g1 g2 :
    on_board f = true → board_at (_board g) f = Some p →
    get_owner p = _current_turn g →
    move_from ≠ move_to ∨ is_in_check_pure g (_current_turn g) = Some true →
    piece_legal_moves g p (get_opposition_positions g (_current_turn g)) = Some moves →
    t ∈ moves →
    leaves_in_check f t g = Return false g1 →
    update_board f t g1 = Return tt g2 →
    is_in_check_pure g2 (other (_current_turn g)) = Some false →
    move_outcome g move_from move_to f t
      (Return true (with_current_turn (other (_current_turn g)) g2))
| check_given p moves g1 g2 g3 :
    on_board f = true → board_at (_board g) f = Some p →
    get_owner p = _current_turn g →
    move_from ≠ move_to ∨ is_in_check_pure g (_current_turn g) = Some true →
    piece_legal_moves g p (get_opposition_positions g (_current_turn g)) = Some moves →
    t ∈ moves →
    leaves_in_check f t g = Return false g1 →
    update_board f t g1 = Return tt g2 →
    is_in_check_pure g2 (other (_current_turn g)) = Some true →
    is_check_mate (other (_current_turn g)) g2 = Return false g3 →
    move_outcome g move_from move_to f t
      (Return true (with_current_turn (other (_current_turn g)) g3))
| game_won p moves g1 g2 g3 :
    on_board f = true → board_at (_board g) f = Some p →
    get_owner p = _current_turn g →
    move_from ≠ move_to ∨ is_in_check_pure g (_current_turn g) = Some true →
    piece_legal_moves g p (get_opposition_positions g (_current_turn g)) = Some moves →
    t ∈ moves →
    leaves_in_check f t g = Return false g1 →
    update_board f t g1 = Return tt g2 →
    is_in_check_pure g2 (other (_current_turn g)) = Some true →
    is_check_mate (other (_current_turn g)) g2 = Return true g3 →
    move_outcome g move_from move_to f t
      (Return true (with_game_state (win (_current_turn g)) g3)).

(** A General or a Guard that has a location stands in its fortress. *)
Definition stays_in_palace (g : JanggiGame) (p : piece) : Prop :=
  match get_location g p with
  | Some l => in_palace (get_class p) l = true
  | None => True
  end.

Definition confined (g : JanggiGame) : Prop :=
  Forall (stays_in_palace g) (_blue_pieces g ++ _red_pieces g).

#[global] Instance stays_in_palace_dec g p : Decision (stays_in_palace g p).
Proof. unfold stays_in_palace. destruct (get_location g p); apply _. Defined.

(** * Lemmas on the piece classes *)

Lemma returns_empty P : returns (Some ∅) P.
Proof. exists ∅. split; [done |]. intros m Hm. by apply not_elem_of_empty in Hm. Qed.

Lemma returns_singleton (P : pos → Prop) x : P x → returns (Some {[ x ]}) P.
Proof. intros H. exists {[ x ]}. split; [done |]. by intros m ->%elem_of_singleton. Qed.

Lemma returns_set (P : pos → Prop) (S : gset pos) : (∀ m, m ∈ S → P m) → returns (Some S) P.
Proof. intros H. by exists S. Qed.

Lemma returns_ou P a b : returns a P → returns b P → returns (a ∪? b) P.
Proof.
  intros (Sa & -> & Ha) (Sb & -> & Hb). exists (Sa ∪ Sb). split; [done |].
  intros m [?|?]%elem_of_union; auto.
Qed.

Lemma returns_mono (P Q : pos → Prop) o : (∀ m, P m → Q m) → returns o P → returns o Q.
Proof. intros H (S & -> & HS). exists S. split; [done | auto]. Qed.

Lemma returns_elim P o S m : returns o P → o = Some S → m ∈ S → P m.
Proof. intros (S' & -> & H) [= ->]. auto. Qed.

Lemma returns_is_Some P o : returns o P → is_Some o.
Proof. intros (S & -> & _). eauto. Qed.

Lemma on_board_spec p : on_board p = true ↔ 0 ≤ fst p < 10 ∧ 0 ≤ snd p < 9.
Proof. unfold on_board, in_ranges. rewrite !andb_true_iff. lia. Qed.

Ltac ret_ou := repeat (apply returns_ou); try apply returns_empty.

(** ** General and Guard *)
Lemma palace_step in_fortress diagonal_cells fuel location board opposition p :
  (1 ≤ fuel)%nat →
  returns (palace_get_legal_moves in_fortress diagonal_cells fuel location board opposition 1 (Some p))
          (λ m, m = p ∧ in_fortress m = true ∧ friendly board opposition m = false).
Proof.
  intros Hf. destruct fuel as [|fuel]; [lia |].
  destruct p as [row column]. cbn [palace_get_legal_moves]. unfold friendly.
  destruct (in_fortress (row, column)) eqn:E1; cbn; [| apply returns_empty].
  destruct (is_empty board (row, column)) eqn:E2; cbn.
  - apply returns_singleton. rewrite E1, E2. done.
  - destruct (mem (row, column) opposition) eqn:E3; cbn.
    + apply returns_singleton. rewrite E1, E2, E3. done.
    + apply returns_empty.
Qed.

Lemma palace_entry in_fortress diagonal_cells fuel loc board opposition :
  (3 ≤ fuel)%nat →
  returns (palace_get_legal_moves in_fortress diagonal_cells fuel (Some loc) board opposition 0 None)
          (λ m, king_step loc m ∧ in_fortress m = true ∧ friendly board opposition m = false).
Proof.
  intros Hf. destruct fuel as [|[|fuel]]; [lia | lia |].
  destruct loc as [row column].
  cbn [palace_get_legal_moves].
  destruct (in_fortress (row, column)); cbn [negb]; [| apply returns_empty].
  change (0 =? 1) with false. cbn [andb]. change (0 + 1) with 1.
  assert (Hs : ∀ p dr dc, p = (row + dr, column + dc) →
     (dr, dc) ≠ (0, 0) → -1 ≤ dr ≤ 1 → -1 ≤ dc ≤ 1 →
     returns (palace_get_legal_moves in_fortress diagonal_cells fuel (Some (row, column)) board opposition 1 (Some p))
       (λ m, king_step (row, column) m ∧ in_fortress m = true ∧ friendly board opposition m = false)).
  { intros p dr dc -> Hne Hr Hc. eapply returns_mono; [| apply palace_step; lia].
    intros m (-> & ? & ?). split_and!; try done. unfold king_step; cbn.
    split; [| lia]. intros [=]. apply Hne. f_equal; lia. }
  apply returns_ou.
  - destruct (bool_decide _); [| apply returns_empty].
    apply returns_ou; [apply returns_empty |].
    repeat apply returns_ou.
    + apply (Hs _ 1 1); [done | done | lia | lia].
    + apply (Hs _ 1 (-1)); [done | done | lia | lia].
    + apply (Hs _ (-1) 1); [done | done | lia | lia].
    + apply (Hs _ (-1) (-1)); [done | done | lia | lia].
  - repeat apply returns_ou.
    + apply (Hs _ 1 0); [f_equal; lia | done | lia | lia].
    + apply (Hs _ (-1) 0); [f_equal; lia | done | lia | lia].
    + apply (Hs _ 0 1); [f_equal; lia | done | lia | lia].
    + apply (Hs _ 0 (-1)); [f_equal; lia | done | lia | lia].
Qed.

Lemma Horse_final fuel location board opposition p :
  (1 ≤ fuel)%nat →
  returns (Horse_get_legal_moves fuel location board opposition 2 (Some p))
          (λ m, m = p ∧ on_board m = true ∧ friendly board opposition m = false).
Proof.
  intros Hf. destruct fuel as [|fuel]; [lia |].
  destruct p as [row column]. cbn [Horse_get_legal_moves]. unfold friendly.
  destruct (on_board (row, column)) eqn:E1; cbn; [| apply returns_empty].
  destruct (is_empty board (row, column)) eqn:E2; cbn.
  - apply returns_singleton. rewrite E1, E2. done.
  - destruct (mem (row, column) opposition) eqn:E3; cbn.
    + apply returns_singleton. rewrite E1, E2, E3. done.
    + apply returns_empty.
Qed.

Lemma Horse_mid fuel loc board opposition p :
  (2 ≤ fuel)%nat →
  (Z.abs (fst p - fst loc) = 1 ∧ snd p = snd loc) ∨ (fst p = fst loc ∧ Z.abs (snd p - snd loc) = 1) →
  returns (Horse_get_legal_moves fuel (Some loc) board opposition 1 (Some p))
          (λ m, horse_jump loc m ∧ on_board m = true ∧ friendly board opposition m = false).
Proof.
  intros Hf Hp. destruct fuel as [|fuel]; [lia |].
  destruct p as [row column], loc as [self_row self_column]. cbn in Hp.
  cbn [Horse_get_legal_moves].
  destruct (on_board (row, column)); cbn [negb]; [| apply returns_empty].
  destruct (is_empty board (row, column)); cbn; [| apply returns_empty].
  assert (Hs : ∀ q, horse_jump (self_row, self_column) q →
     returns (Horse_get_legal_moves fuel (Some (self_row, self_column)) board opposition 2 (Some q))
       (λ m, horse_jump (self_row, self_column) m ∧ on_board m = true
             ∧ friendly board opposition m = false)).
  { intros q Hq. eapply returns_mono; [| apply Horse_final; lia].
    intros m (-> & ? & ?). done. }
  unfold horse_jump in Hs; cbn in Hs.
  repeat case_match; ret_ou; apply Hs; cbn; lia.
Qed.

Lemma Horse_entry fuel loc board opposition :
  (4 ≤ fuel)%nat →
  returns (Horse_get_legal_moves fuel (Some loc) board opposition 0 None)
          (λ m, horse_jump loc m ∧ on_board m = true ∧ friendly board opposition m = false).
Proof.
  intros Hf. destruct fuel as [|[|fuel]]; [lia | lia |].
  destruct loc as [row column].
  cbn [Horse_get_legal_moves].
  destruct (on_board (row, column)); cbn [negb]; [| apply returns_empty].
  cbn. ret_ou; apply Horse_mid; cbn; lia.
Qed.

Lemma Elephant_final fuel location board opposition p direction :
  (1 ≤ fuel)%nat →
  returns (Elephant_get_legal_moves fuel location board opposition 3 (Some p) direction)
          (λ m, m = p ∧ on_board m = true ∧ friendly board opposition m = false).
Proof.
  intros Hf. destruct fuel as [|fuel]; [lia |].
  destruct p as [row column]. cbn [Elephant_get_legal_moves]. unfold friendly.
  destruct (on_board (row, column)) eqn:E1; cbn; [| apply returns_empty].
  destruct (is_empty board (row, column)) eqn:E2; cbn.
  - apply returns_singleton. rewrite E1, E2. done.
  - destruct (mem (row, column) opposition) eqn:E3; cbn.
    + apply returns_singleton. rewrite E1, E2, E3. done.
    + apply returns_empty.
Qed.

Lemma Elephant_last fuel location board opposition p direction :
  (2 ≤ fuel)%nat →
  returns (Elephant_get_legal_moves fuel location board opposition 2 (Some p) direction)
          (λ m, m = (fst p + fst (diagonal_step direction), snd p + snd (diagonal_step direction))
                ∧ on_board m = true ∧ friendly board opposition m = false).
Proof.
  intros Hf. destruct fuel as [|fuel]; [lia |].
  destruct p as [row column]. cbn [Elephant_get_legal_moves].
  destruct (on_board (row, column)); cbn [negb]; [| apply returns_empty].
  destruct (is_empty board (row, column)); cbn; [| apply returns_empty].
  assert (Hs : ∀ q d, q = (row + fst (diagonal_step direction), column + snd (diagonal_step direction)) →
     returns (Elephant_get_legal_moves fuel location board opposition 3 (Some q) d)
       (λ m, m = (row + fst (diagonal_step direction), column + snd (diagonal_step direction))
             ∧ on_board m = true ∧ friendly board opposition m = false)).
  { intros q d ->. eapply returns_mono; [| apply Elephant_final; lia].
    intros m (-> & ? & ?). done. }
  destruct direction as [[]|]; cbn; apply Hs; cbn; f_equal; lia.
Qed.

Lemma Elephant_mid fuel loc board opposition p direction :
  (3 ≤ fuel)%nat →
  (Z.abs (fst p - fst loc) = 1 ∧ snd p = snd loc) ∨ (fst p = fst loc ∧ Z.abs (snd p - snd loc) = 1) →
  returns (Elephant_get_legal_moves fuel (Some loc) board opposition 1 (Some p) direction)
          (λ m, elephant_jump loc m ∧ on_board m = true ∧ friendly board opposition m = false).
Proof.
  intros Hf Hp. destruct fuel as [|fuel]; [lia |].
  destruct p as [row column], loc as [self_row self_column]. cbn in Hp.
  cbn [Elephant_get_legal_moves].
  destruct (on_board (row, column)); cbn [negb]; [| apply returns_empty].
  destruct (is_empty board (row, column)); cbn; [| apply returns_empty].
  assert (Hs : ∀ q d,
     elephant_jump (self_row, self_column)
       (fst q + fst (diagonal_step d), snd q + snd (diagonal_step d)) →
     returns (Elephant_get_legal_moves fuel (Some (self_row, self_column)) board opposition 2 (Some q) d)
       (λ m, elephant_jump (self_row, self_column) m ∧ on_board m = true
             ∧ friendly board opposition m = false)).
  { intros q d Hq. eapply returns_mono; [| apply Elephant_last; lia].
    intros m (-> & ? & ?). done. }
  unfold elephant_jump in Hs; cbn in Hs.
  repeat case_match; ret_ou; apply Hs; cbn; lia.
Qed.

Lemma Elephant_entry fuel loc board opposition :
  (5 ≤ fuel)%nat →
  returns (Elephant_get_legal_moves fuel (Some loc) board opposition 0 None None)
          (λ m, elephant_jump loc m ∧ on_board m = true ∧ friendly board opposition m = false).
Proof.
  intros Hf. destruct fuel as [|[|fuel]]; [lia | lia |].
  destruct loc as [row column].
  cbn [Elephant_get_legal_moves].
  destruct (on_board (row, column)); cbn [negb]; [| apply returns_empty].
  cbn. ret_ou; apply Elephant_mid; cbn; lia.
Qed.

Lemma RedSoldier_step fuel location board opposition p :
  (1 ≤ fuel)%nat →
  RedSoldier_get_legal_moves fuel location board opposition 1 (Some p)
  = Some (soldier_step board opposition p).
Proof.
  intros Hf. destruct fuel as [|fuel]; [lia |].
  destruct p as [row column]. cbn [RedSoldier_get_legal_moves]. unfold soldier_step, friendly.
  destruct (on_board (row, column)); cbn; [| done].
  destruct (is_empty board (row, column)); cbn; [done |].
  destruct (mem (row, column) opposition); done.
Qed.

Lemma BlueSoldier_step fuel location board opposition p :
  (1 ≤ fuel)%nat →
  BlueSoldier_get_legal_moves fuel location board opposition 1 (Some p)
  = Some (soldier_step board opposition p).
Proof.
  intros Hf. destruct fuel as [|fuel]; [lia |].
  destruct p as [row column]. cbn [BlueSoldier_get_legal_moves]. unfold soldier_step, friendly.
  destruct (on_board (row, column)); cbn; [| done].
  destruct (is_empty board (row, column)); cbn; [done |].
  destruct (mem (row, column) opposition); done.
Qed.

Lemma RedSoldier_entry fuel row column board opposition :
  (3 ≤ fuel)%nat →
  RedSoldier_get_legal_moves fuel (Some (row, column)) board opposition 0 None
  = Some (if on_board (row, column) then
            red_soldier_diagonals (row, column)
            ∪ (soldier_step board opposition (row + 1, column)
               ∪ soldier_step board opposition (row, column + 1)
               ∪ soldier_step board opposition (row, column - 1))
          else ∅).
Proof.
  intros Hf. destruct fuel as [|[|fuel]]; [lia | lia |].
  cbn [RedSoldier_get_legal_moves].
  destruct (on_board (row, column)); cbn [negb]; [| done].
  change (0 =? 1) with false. cbn [andb]. change (0 + 1) with 1.
  rewrite !RedSoldier_step by lia. cbn [ou]. f_equal. f_equal.
  unfold red_soldier_diagonals.
  repeat case_bool_decide; simplify_eq; done.
Qed.

Lemma BlueSoldier_entry fuel row column board opposition :
  (3 ≤ fuel)%nat →
  BlueSoldier_get_legal_moves fuel (Some (row, column)) board opposition 0 None
  = Some (if on_board (row, column) then
            blue_soldier_diagonals (row, column)
            ∪ (soldier_step board opposition (row - 1, column)
               ∪ soldier_step board opposition (row, column + 1)
               ∪ soldier_step board opposition (row, column - 1))
          else ∅).
Proof.
  intros Hf. destruct fuel as [|[|fuel]]; [lia | lia |].
  cbn [BlueSoldier_get_legal_moves].
  destruct (on_board (row, column)); cbn [negb]; [| done].
  change (0 =? 1) with false. cbn [andb]. change (0 + 1) with 1.
  rewrite !BlueSoldier_step by lia. cbn [ou]. f_equal. f_equal.
  unfold blue_soldier_diagonals.
  repeat case_bool_decide; simplify_eq; done.
Qed.

Lemma beyond_ne loc d m : beyond loc d m → m ≠ loc.
Proof.
  intros (k & Hk & ->) E. destruct loc as [r c]. injection E.
  destruct d; cbn; lia.
Qed.

Lemma beyond_advance loc d p : beyond loc d p → beyond loc d (advance d p).
Proof.
  intros (k & Hk & ->). exists (k + 1). split; [lia |].
  unfold advance. cbn. f_equal; lia.
Qed.

Lemma beyond_first loc d : beyond loc d (advance d loc).
Proof. exists 1. split; [lia |]. unfold advance. f_equal; lia. Qed.

Lemma room_advance d p :
  on_board p = true → 1 ≤ room d p ∧ room d (advance d p) = room d p - 1.
Proof.
  rewrite on_board_spec. destruct p as [r c]. destruct d; cbn; lia.
Qed.

Lemma room_bound d p : on_board p = true → room d (advance d p) ≤ 9.
Proof.
  rewrite on_board_spec. destruct p as [r c]. destruct d; cbn; lia.
Qed.

Lemma Chariot_slide fuel loc board opposition d p :
  beyond loc d p →
  (Z.to_nat (room d p) < fuel)%nat →
  returns (Chariot_get_legal_moves fuel (Some loc) board opposition (Some p) (Some d))
          (λ m, beyond loc d m ∧ on_board m = true ∧ friendly board opposition m = false).
Proof.
  revert p. induction fuel as [|fuel IH]; intros p Hp Hf; [lia |].
  assert (Hne := beyond_ne _ _ _ Hp).
  pose proof (beyond_advance _ _ _ Hp) as Hadv.
  destruct p as [row column]. cbn [Chariot_get_legal_moves].
  destruct (on_board (row, column)) eqn:E1; cbn [negb]; [| apply returns_empty].
  destruct (room_advance d _ E1) as [Hr1 Hr2].
  specialize (IH (advance d (row, column)) Hadv ltac:(lia)).
  destruct (_ && _ && _); [apply returns_empty |].
  rewrite bool_decide_true by congruence. cbn [andb]. unfold friendly.
  destruct (is_empty board (row, column)) eqn:E2; cbn [negb andb].
  - destruct (mem (row, column) opposition) eqn:E3.
    + apply returns_singleton. rewrite E1, E2. done.
    + assert (returns (Some {[ (row, column) ]}) (λ m, beyond loc d m ∧ on_board m = true ∧
         negb (is_empty board m) && negb (mem m opposition) = false)).
      { apply returns_singleton. rewrite E1, E2. done. }
      unfold advance in IH. cbn [fst snd] in IH.
      destruct d; cbn [step_of fst snd] in IH; apply returns_ou; try done;
        repeat match goal with
        | H : context [?x + 0] |- _ => replace (x + 0) with x in H by lia
        | H : context [?x + -1] |- _ => replace (x + -1) with (x - 1) in H by lia
        end; done.
  - destruct (mem (row, column) opposition) eqn:E3.
    + apply returns_singleton. rewrite E1, E3. cbn. rewrite andb_false_r. done.
    + apply returns_empty.
Qed.

Lemma Chariot_entry fuel loc board opposition :
  (12 ≤ fuel)%nat →
  returns (Chariot_get_legal_moves fuel (Some loc) board opposition None None)
          (λ m, (∃ d, beyond loc d m) ∧ on_board m = true ∧ friendly board opposition m = false).
Proof.
  intros Hf. destruct fuel as [|[|fuel]]; [lia | lia |].
  destruct loc as [row column].
  cbn [Chariot_get_legal_moves].
  destruct (on_board (row, column)) eqn:E1; cbn [negb]; [| apply returns_empty].
  cbn [is_diagonal bool_decide orb andb].
  rewrite (bool_decide_false (Some (row, column) ≠ Some (row, column))) by (intros H; by apply H).
  cbn [andb].
  assert (Hs : ∀ d p, p = advance d (row, column) →
     returns (Chariot_get_legal_moves fuel (Some (row, column)) board opposition (Some p) (Some d))
       (λ m, (∃ d, beyond (row, column) d m) ∧ on_board m = true
             ∧ friendly board opposition m = false)).
  { intros d p ->. eapply returns_mono; [| apply Chariot_slide].
    - intros m (? & ? & ?). eauto.
    - apply beyond_first.
    - pose proof (room_bound d _ E1). lia. }
  apply returns_ou.
  - destruct (bool_decide _); [| apply returns_empty].
    ret_ou; apply Hs; unfold advance; cbn; f_equal; lia.
  - ret_ou; apply Hs; unfold advance; cbn; f_equal; lia.
Qed.

Lemma Cannon_slide fuel loc board opposition positions count d p :
  orthogonal d →
  beyond loc d p →
  (Z.to_nat (room d p) < fuel)%nat →
  returns (Cannon_get_legal_moves fuel (Some loc) board opposition positions count (Some p) (Some d))
          (λ m, beyond loc d m ∧ on_board m = true ∧ friendly board opposition m = false).
Proof.
  intros Hd. revert p count. induction fuel as [|fuel IH]; intros p count Hp Hf; [lia |].
  assert (Hne := beyond_ne _ _ _ Hp).
  pose proof (beyond_advance _ _ _ Hp) as Hadv.
  destruct p as [row column]. cbn [Cannon_get_legal_moves].
  destruct (on_board (row, column)) eqn:E1; cbn [negb]; [| apply returns_empty].
  destruct (room_advance d _ E1) as [Hr1 Hr2].
  assert (IH' : ∀ count, returns
      (match d with
       | d_plus_eq => Cannon_get_legal_moves fuel (Some loc) board opposition positions count (Some (row + 1, column)) (Some d_plus_eq)
       | d_minus_eq => Cannon_get_legal_moves fuel (Some loc) board opposition positions count (Some (row - 1, column)) (Some d_minus_eq)
       | d_eq_plus => Cannon_get_legal_moves fuel (Some loc) board opposition positions count (Some (row, column + 1)) (Some d_eq_plus)
       | _ => Cannon_get_legal_moves fuel (Some loc) board opposition positions count (Some (row, column - 1)) (Some d_eq_minus)
       end)
      (λ m, beyond loc d m ∧ on_board m = true ∧ friendly board opposition m = false)).
  { intros c. specialize (IH (advance d (row, column)) c Hadv ltac:(lia)).
    unfold advance in IH. cbn [fst snd] in IH.
    destruct Hd as [-> | [-> | [-> | ->]]]; cbn [step_of fst snd] in IH;
      repeat match goal with
      | H : context [?x + 0] |- _ => replace (x + 0) with x in H by lia
      | H : context [?x + -1] |- _ => replace (x + -1) with (x - 1) in H by lia
      end; done. }
  clear IH.
  rewrite bool_decide_true by congruence. cbn [andb]. unfold friendly.
  destruct (is_empty board (row, column)) eqn:E2; cbn [negb andb].
  - destruct (1 <? count); [apply returns_empty |].
    destruct (count =? 1); cbn [andb].
    + destruct (mem (row, column) opposition) eqn:E3.
      * apply returns_singleton. rewrite E1, E2. done.
      * apply returns_ou; [| apply IH'].
        apply returns_singleton. rewrite E1, E2. done.
    + apply IH'.
  - destruct (bool_decide ((row, column) ∈ positions)); cbn [negb]; [| apply returns_empty].
    destruct (1 <? count); [apply returns_empty |].
    destruct (count =? 1); cbn [andb].
    + destruct (mem (row, column) opposition) eqn:E3.
      * apply returns_singleton. rewrite E1, E3. rewrite andb_false_r. done.
      * apply IH'.
    + apply IH'.
Qed.

Lemma corner_jump_spec corners centre loc positions m :
  m ∈ corner_jump corners centre (Some loc) positions ↔
  corners loc = Some m ∧ centre ∈ positions.
Proof.
  unfold corner_jump. cbn. destruct (corners loc) as [t|]; [| set_solver].
  case_bool_decide; [| set_solver].
  rewrite elem_of_singleton. naive_solver.
Qed.

Lemma red_corners_spec loc m :
  red_corners loc = Some m →
  in_red_fortress loc = true ∧ in_red_fortress m = true
  ∧ Z.abs (fst m - fst loc) = 2 ∧ Z.abs (snd m - snd loc) = 2.
Proof.
  unfold red_corners. repeat case_bool_decide; intros [=]; subst; done.
Qed.

Lemma blue_corners_spec loc m :
  blue_corners loc = Some m →
  in_blue_fortress loc = true ∧ in_blue_fortress m = true
  ∧ Z.abs (fst m - fst loc) = 2 ∧ Z.abs (snd m - snd loc) = 2.
Proof.
  unfold blue_corners. repeat case_bool_decide; intros [=]; subst; done.
Qed.

Lemma Cannon_entry fuel loc board opposition positions0 :
  (12 ≤ fuel)%nat →
  returns (Cannon_get_legal_moves fuel (Some loc) board opposition positions0 0 None None)
          (λ m, m ∈ cannon_diagonals loc (non_cannon_positions board)
                ∨ ((∃ d, orthogonal d ∧ beyond loc d m) ∧ on_board m = true
                   ∧ friendly board opposition m = false)).
Proof.
  intros Hf. destruct fuel as [|[|fuel]]; [lia | lia |].
  destruct loc as [row column].
  cbn [Cannon_get_legal_moves].
  destruct (on_board (row, column)) eqn:E1; cbn [negb]; [| apply returns_empty].
  rewrite (bool_decide_false (Some (row, column) ≠ Some (row, column))) by (intros H; by apply H).
  cbn [andb]. change (1 <? 0) with false. change (0 =? 1) with false. cbn [andb].
  set (positions := non_cannon_positions board).
  assert (Hs : ∀ d p count, orthogonal d → p = advance d (row, column) →
     returns (Cannon_get_legal_moves fuel (Some (row, column)) board opposition positions count (Some p) (Some d))
       (λ m, m ∈ cannon_diagonals (row, column) positions
             ∨ ((∃ d, orthogonal d ∧ beyond (row, column) d m) ∧ on_board m = true
                ∧ friendly board opposition m = false))).
  { intros d p count Hd ->. eapply returns_mono; [| apply Cannon_slide].
    - intros m (? & ? & ?). right. eauto.
    - done.
    - apply beyond_first.
    - pose proof (room_bound d _ E1). lia. }
  unfold orthogonal in Hs.
  destruct (is_empty board (row, column)).
  { apply Hs; [auto | unfold advance; cbn; f_equal; lia]. }
  destruct (bool_decide ((row, column) ∈ positions)).
  { apply Hs; [auto | unfold advance; cbn; f_equal; lia]. }
  apply returns_ou.
  - apply returns_set. intros m Hm. left. unfold cannon_diagonals. set_solver.
  - ret_ou; apply Hs; auto; unfold advance; cbn; f_equal; lia.
Qed.

(** ** Every class: the call returns cells of the board other than the origin *)

Lemma in_blue_fortress_on_board m : in_blue_fortress m = true → on_board m = true.
Proof. unfold in_blue_fortress, on_board, in_ranges. rewrite !andb_true_iff. lia. Qed.

Lemma in_red_fortress_on_board m : in_red_fortress m = true → on_board m = true.
Proof. unfold in_red_fortress, on_board, in_ranges. rewrite !andb_true_iff. lia. Qed.

Lemma soldier_step_spec board opposition p m :
  m ∈ soldier_step board opposition p ↔
  m = p ∧ on_board p = true ∧ friendly board opposition p = false.
Proof.
  unfold soldier_step.
  destruct (on_board p), (friendly board opposition p); cbn;
    rewrite ?elem_of_singleton, ?elem_of_empty; naive_solver.
Qed.

Lemma red_soldier_diagonals_spec loc m :
  m ∈ red_soldier_diagonals loc ↔
  (loc = (7, 3) ∧ m = (8, 4)) ∨ (loc = (7, 5) ∧ m = (8, 4))
  ∨ (loc = (8, 4) ∧ (m = (9, 3) ∨ m = (9, 5))).
Proof.
  unfold red_soldier_diagonals.
  repeat case_bool_decide; subst;
    rewrite ?elem_of_union, ?elem_of_singleton, ?elem_of_empty; naive_solver.
Qed.

Lemma blue_soldier_diagonals_spec loc m :
  m ∈ blue_soldier_diagonals loc ↔
  (loc = (2, 3) ∧ m = (1, 4)) ∨ (loc = (2, 5) ∧ m = (1, 4))
  ∨ (loc = (1, 4) ∧ (m = (0, 3) ∨ m = (0, 5))).
Proof.
  unfold blue_soldier_diagonals.
  repeat case_bool_decide; subst;
    rewrite ?elem_of_union, ?elem_of_singleton, ?elem_of_empty; naive_solver.
Qed.

Lemma king_step_ne loc m : king_step loc m → m ≠ loc.
Proof. by intros [? _]. Qed.

Lemma horse_jump_ne loc m : horse_jump loc m → m ≠ loc.
Proof. intros H ->. unfold horse_jump in H. lia. Qed.

Lemma elephant_jump_ne loc m : elephant_jump loc m → m ≠ loc.
Proof. intros H ->. unfold elephant_jump in H. lia. Qed.

Lemma cannon_diagonals_spec loc positions m :
  m ∈ cannon_diagonals loc positions → on_board m = true ∧ m ≠ loc.
Proof.
  unfold cannon_diagonals. rewrite elem_of_union, !corner_jump_spec.
  intros [[H _] | [H _]].
  - apply red_corners_spec in H as (_ & ?%in_red_fortress_on_board & ? & ?).
    split; [done |]. intros ->. lia.
  - apply blue_corners_spec in H as (_ & ?%in_blue_fortress_on_board & ? & ?).
    split; [done |]. intros ->. lia.
Qed.

Lemma get_legal_moves_spec class loc board opposition :
  returns (get_legal_moves class (Some loc) board opposition)
          (λ m, on_board m = true ∧ m ≠ loc).
Proof.
  assert (Hl : ∀ n, (n ≤ 16)%nat → (n ≤ recursion_limit)%nat) by (unfold recursion_limit; lia).
  destruct class; cbn [get_legal_moves].
  - eapply returns_mono; [| apply palace_entry, Hl; lia].
    intros m (?%king_step_ne & ?%in_blue_fortress_on_board & _). done.
  - eapply returns_mono; [| apply palace_entry, Hl; lia].
    intros m (?%king_step_ne & ?%in_red_fortress_on_board & _). done.
  - eapply returns_mono; [| apply palace_entry, Hl; lia].
    intros m (?%king_step_ne & ?%in_blue_fortress_on_board & _). done.
  - eapply returns_mono; [| apply palace_entry, Hl; lia].
    intros m (?%king_step_ne & ?%in_red_fortress_on_board & _). done.
  - eapply returns_mono; [| apply Horse_entry, Hl; lia].
    intros m (?%horse_jump_ne & ? & _). done.
  - eapply returns_mono; [| apply Elephant_entry, Hl; lia].
    intros m (?%elephant_jump_ne & ? & _). done.
  - eapply returns_mono; [| apply Chariot_entry, Hl; lia].
    intros m ([d ?%beyond_ne] & ? & _). done.
  - eapply returns_mono; [| apply Cannon_entry, Hl; lia].
    intros m [?%cannon_diagonals_spec | ((d & _ & ?%beyond_ne) & ? & _)]; done.
  - destruct loc as [row column]. rewrite RedSoldier_entry by (apply Hl; lia).
    apply returns_set. intros m. destruct (on_board (row, column)) eqn:E; [| set_solver].
    rewrite !elem_of_union, !soldier_step_spec, red_soldier_diagonals_spec.
    intros [H | [[H | H] | H]]; [| destruct H as (-> & ? & _) ..].
    + destruct H as [[[= -> ->] ->] | [[[= -> ->] ->] | [[= -> ->] [-> | ->]]]]; done.
    + split; [done |]. intros [=]. lia.
    + split; [done |]. intros [=]. lia.
    + split; [done |]. intros [=]. lia.
  - destruct loc as [row column]. rewrite BlueSoldier_entry by (apply Hl; lia).
    apply returns_set. intros m. destruct (on_board (row, column)) eqn:E; [| set_solver].
    rewrite !elem_of_union, !soldier_step_spec, blue_soldier_diagonals_spec.
    intros [H | [[H | H] | H]]; [| destruct H as (-> & ? & _) ..].
    + destruct H as [[[= -> ->] ->] | [[[= -> ->] ->] | [[= -> ->] [-> | ->]]]]; done.
    + split; [done |]. intros [=]. lia.
    + split; [done |]. intros [=]. lia.
    + split; [done |]. intros [=]. lia.
Qed.

(** The classes without a table of diagonal targets never return a
    friendly-occupied cell. *)
Lemma get_legal_moves_not_friendly class loc board opposition :
  class ≠ Cannon → class ≠ RedSoldier → class ≠ BlueSoldier →
  returns (get_legal_moves class (Some loc) board opposition)
          (λ m, friendly board opposition m = false).
Proof.
  assert (Hl : ∀ n, (n ≤ 16)%nat → (n ≤ recursion_limit)%nat) by (unfold recursion_limit; lia).
  intros H1 H2 H3. destruct class; cbn [get_legal_moves]; try done.
  - eapply returns_mono; [| apply palace_entry, Hl; lia]. by intros m (_ & _ & ?).
  - eapply returns_mono; [| apply palace_entry, Hl; lia]. by intros m (_ & _ & ?).
  - eapply returns_mono; [| apply palace_entry, Hl; lia]. by intros m (_ & _ & ?).
  - eapply returns_mono; [| apply palace_entry, Hl; lia]. by intros m (_ & _ & ?).
  - eapply returns_mono; [| apply Horse_entry, Hl; lia]. by intros m (_ & _ & ?).
  - eapply returns_mono; [| apply Elephant_entry, Hl; lia]. by intros m (_ & _ & ?).
  - eapply returns_mono; [| apply Chariot_entry, Hl; lia]. by intros m (_ & _ & ?).
Qed.

(** A captured piece has no location, and the call never returns. *)
Lemma get_legal_moves_None class board opposition :
  get_legal_moves class None board opposition = None.
Proof.
  destruct class; cbn [get_legal_moves].
  all: try (unfold BlueGeneral_get_legal_moves, RedGeneral_get_legal_moves,
              BlueGuard_get_legal_moves, RedGuard_get_legal_moves).
  8: { generalize (@nil pos). generalize recursion_limit.
       intros n; induction n as [|n IH]; intros positions; [done | apply IH]. }
  all: generalize recursion_limit; intros n; induction n as [|n IH]; [done | exact IH].
Qed.

(** * Lemmas on the board *)

Lemma py_index_in_range (n : nat) (i : Z) :
  0 ≤ i < Z.of_nat n → py_index n i = Some (Z.to_nat i).
Proof.
  intros H. unfold py_index.
  destruct (Z.leb_spec 0 i), (Z.ltb_spec i (Z.of_nat n)); try lia. done.
Qed.

Lemma board_shape_row b r :
  board_shape b → (r < 10)%nat → ∃ row, b !! r = Some row ∧ length row = 9%nat.
Proof.
  intros [Hl Hr] Hlt.
  destruct (lookup_lt_is_Some_2 b r) as [row Hrow]; [lia |].
  exists row. split; [done |].
  rewrite Forall_forall in Hr. apply Hr. eapply list_elem_of_lookup_2. done.
Qed.

Lemma getitem_in_range {A} (l : list A) (i : Z) :
  0 ≤ i < Z.of_nat (length l) → getitem l i = l !! Z.to_nat i.
Proof. intros H. unfold getitem. by rewrite py_index_in_range. Qed.

Lemma setitem_in_range {A} (l : list A) (i : Z) (x : A) :
  0 ≤ i < Z.of_nat (length l) → setitem l i x = Some (<[Z.to_nat i := x]> l).
Proof. intros H. unfold setitem. by rewrite py_index_in_range. Qed.

Lemma board_get_at b l :
  board_shape b → on_board l = true → board_get b l = Some (board_at b l).
Proof.
  intros Hs [Hr Hc]%on_board_spec. destruct l as [r c]; cbn [fst snd] in *.
  destruct (board_shape_row b (Z.to_nat r) Hs) as (row & Hrow & Hlen); [lia |].
  destruct (lookup_lt_is_Some_2 row (Z.to_nat c)) as [x Hx]; [lia |].
  assert (Hlb : length b = 10%nat) by apply Hs.
  unfold board_get, board_at. cbn [fst snd].
  rewrite getitem_in_range by lia. rewrite Hrow. cbn [mbind option_bind].
  rewrite getitem_in_range by lia. rewrite Hx. done.
Qed.

Lemma board_set_on b l x :
  board_shape b → on_board l = true →
  ∃ b', board_set b l x = Some b' ∧ board_shape b'
        ∧ board_at b' l = x
        ∧ ∀ l', on_board l' = true → l' ≠ l → board_at b' l' = board_at b l'.
Proof.
  intros Hs [Hr Hc]%on_board_spec. destruct l as [r c]; cbn [fst snd] in *.
  destruct (board_shape_row b (Z.to_nat r) Hs) as (row & Hrow & Hlen); [lia |].
  exists (<[Z.to_nat r := <[Z.to_nat c := x]> row]> b).
  assert (Hlb : length b = 10%nat) by apply Hs.
  split_and!.
  - unfold board_set. cbn [fst snd].
    rewrite getitem_in_range by lia. rewrite Hrow. cbn [mbind option_bind].
    rewrite setitem_in_range by lia. cbn [mbind option_bind].
    rewrite setitem_in_range by lia. done.
  - destruct Hs as [_ Hrows]. split; [by rewrite length_insert |].
    apply Forall_insert; [done |]. by rewrite length_insert.
  - unfold board_at; cbn [fst snd].
    rewrite list_lookup_insert_eq by lia.
    rewrite list_lookup_insert_eq by lia. done.
  - intros [r' c'] [Hr' Hc']%on_board_spec Hne. unfold board_at; cbn [fst snd] in *.
    destruct (decide (Z.to_nat r' = Z.to_nat r)) as [E | E].
    + rewrite E, list_lookup_insert_eq by lia. rewrite Hrow.
      rewrite list_lookup_insert_ne; [done |].
      intros E'. apply Hne. f_equal; lia.
    + rewrite list_lookup_insert_ne by done. done.
Qed.

Lemma board_ext b b' :
  board_shape b → board_shape b' →
  (∀ l, on_board l = true → board_at b l = board_at b' l) → b = b'.
Proof.
  intros Hs Hs' H. apply list_eq. intros i.
  destruct (decide (i < 10)%nat) as [Hi | Hi].
  - destruct (board_shape_row b i Hs Hi) as (row & Hrow & Hlen).
    destruct (board_shape_row b' i Hs' Hi) as (row' & Hrow' & Hlen').
    rewrite Hrow, Hrow'. f_equal. apply list_eq. intros j.
    destruct (decide (j < 9)%nat) as [Hj | Hj].
    + destruct (lookup_lt_is_Some_2 row j) as [x Hx]; [lia |].
      destruct (lookup_lt_is_Some_2 row' j) as [x' Hx']; [lia |].
      specialize (H (Z.of_nat i, Z.of_nat j)). unfold board_at in H. cbn in H.
      rewrite !Nat2Z.id, Hrow, Hrow', Hx, Hx' in H.
      rewrite Hx, Hx'. f_equal. apply H. apply on_board_spec. cbn. lia.
    + rewrite !lookup_ge_None_2 by lia. done.
  - destruct Hs, Hs'. rewrite !lookup_ge_None_2 by lia. done.
Qed.

Lemma elem_of_all_cells l : l ∈ all_cells ↔ on_board l = true.
Proof.
  rewrite on_board_spec. unfold all_cells. destruct l as [r c]. cbn [fst snd].
  rewrite list_elem_of_bind. split.
  - intros (r' & Hc & Hr). apply list_elem_of_bind in Hc as (c' & Hc & Hc').
    apply list_elem_of_singleton in Hc as [= -> ->].
    apply list_elem_of_fmap in Hr as (? & -> & ?%elem_of_seq).
    apply list_elem_of_fmap in Hc' as (? & -> & ?%elem_of_seq). lia.
  - intros [Hr Hc]. exists r. split.
    + apply list_elem_of_bind. exists c. split; [by apply list_elem_of_singleton |].
      apply list_elem_of_fmap. exists (Z.to_nat c). split; [lia |]. apply elem_of_seq. lia.
    + apply list_elem_of_fmap. exists (Z.to_nat r). split; [lia |]. apply elem_of_seq. lia.
Qed.

(** ** The corner jump of the Cannon, as the code has it *)

Lemma elem_of_non_cannon_positions board p :
  p ∈ non_cannon_positions board ↔
  on_board p = true ∧ ∃ q, board_at board p = Some q ∧ get_type q ≠ "Cannon".
Proof.
  unfold non_cannon_positions.
  rewrite list_elem_of_In, !filter_In, <- list_elem_of_In, elem_of_all_cells.
  unfold is_empty. destruct (board_at board p) as [q|]; [| naive_solver].
  destruct (String.eqb_spec (get_type q) "Cannon"); naive_solver.
Qed.

(** A Cannon that stands on its own cell takes the last branch of the
    method: the result is the set [diagonals] together with four slides. *)
Lemma Cannon_entry_diagonals fuel loc board opposition positions0 q :
  (12 ≤ fuel)%nat → on_board loc = true →
  board_at board loc = Some q → get_type q = "Cannon" →
  ∃ S, Cannon_get_legal_moves fuel (Some loc) board opposition positions0 0 None None = Some S
       ∧ ∀ m, m ∈ cannon_diagonals loc (non_cannon_positions board) → m ∈ S.
Proof.
  intros Hf Hon Hq Hty. destruct fuel as [|[|fuel]]; [lia | lia |].
  destruct loc as [row column].
  cbn [Cannon_get_legal_moves]. rewrite Hon. cbn [negb].
  rewrite (bool_decide_false (Some (row, column) ≠ Some (row, column))) by (intros H; by apply H).
  cbn [andb]. change (1 <? 0) with false. change (0 =? 1) with false. cbn [andb].
  unfold is_empty. rewrite Hq.
  rewrite bool_decide_false.
  2: { rewrite elem_of_non_cannon_positions. intros (_ & q' & Hq' & Hne). congruence. }
  assert (Hs : ∀ d p, orthogonal d → p = advance d (row, column) →
     is_Some (Cannon_get_legal_moves fuel (Some (row, column)) board opposition
                (non_cannon_positions board) 0 (Some p) (Some d))).
  { intros d p Hd ->. eapply returns_is_Some, Cannon_slide; [done | apply beyond_first |].
    pose proof (room_bound d _ Hon). lia. }
  unfold orthogonal in Hs.
  destruct (Hs d_plus_eq (row + 1, column)) as [S1 ->];
    [auto | unfold advance; cbn; f_equal; lia |].
  destruct (Hs d_minus_eq (row - 1, column)) as [S2 ->];
    [auto | unfold advance; cbn; f_equal; lia |].
  destruct (Hs d_eq_plus (row, column + 1)) as [S3 ->];
    [auto | unfold advance; cbn; f_equal; lia |].
  destruct (Hs d_eq_minus (row, column - 1)) as [S4 ->];
    [auto 6 | unfold advance; cbn; f_equal; lia |].
  cbn [ou]. eexists. split; [reflexivity |].
  intros m Hm. unfold cannon_diagonals in Hm.
  rewrite !elem_of_union. left. revert Hm. rewrite !elem_of_union.
  intros [? | ?]; [left; right | right]; done.
Qed.

Lemma corner_not_beyond loc target d :
  Z.abs (fst target - fst loc) = 2 → Z.abs (snd target - snd loc) = 2 →
  orthogonal d → ¬ beyond loc d target.
Proof.
  intros Hr Hc Hd (k & Hk & ->). cbn in Hr, Hc.
  destruct Hd as [-> | [-> | [-> | ->]]]; cbn in Hr, Hc; lia.
Qed.

(** On a corner of the blue fortress the opposite corner is offered exactly
    when the centre (8, 4) holds a piece that is not a Cannon; on a corner
    of the red fortress, exactly when the cell (0, 4) does. *)
Lemma cannon_corner_jump loc target board opposition q :
  on_board loc = true → board_at board loc = Some q → get_type q = "Cannon" →
  ∃ S, get_legal_moves Cannon (Some loc) board opposition = Some S
       ∧ (blue_corners loc = Some target →
          (target ∈ S ↔ (8, 4) ∈ non_cannon_positions board))
       ∧ (red_corners loc = Some target →
          (target ∈ S ↔ (0, 4) ∈ non_cannon_positions board)).
Proof.
  intros Hon Hq Hty. cbn [get_legal_moves].
  destruct (Cannon_entry_diagonals recursion_limit loc board opposition [] q)
    as (S & HS & Hdiag); [unfold recursion_limit; lia | done .. |].
  exists S. split; [done |].
  pose proof (Cannon_entry recursion_limit loc board opposition []
                ltac:(unfold recursion_limit; lia)) as Hsound.
  assert (Hin : ∀ m, m ∈ S → Z.abs (fst m - fst loc) = 2 → Z.abs (snd m - snd loc) = 2 →
                     m ∈ cannon_diagonals loc (non_cannon_positions board)).
  { intros m Hm Hr Hc.
    destruct (returns_elim _ _ _ _ Hsound HS Hm) as [? | ((d & Hd & Hb) & _)]; [done |].
    by destruct (corner_not_beyond loc m d). }
  split; intros Hcorner.
  - pose proof (blue_corners_spec _ _ Hcorner) as (Hb1 & _ & Hr & Hc). split.
    + intros Hm. specialize (Hin _ Hm Hr Hc). unfold cannon_diagonals in Hin.
      rewrite elem_of_union, !corner_jump_spec in Hin.
      destruct Hin as [[Hred _] | [_ ?]]; [| done].
      apply red_corners_spec in Hred as (Hr1 & _).
      unfold in_red_fortress, in_blue_fortress, in_ranges in *.
      rewrite !andb_true_iff in *. lia.
    + intros Hc'. apply Hdiag. unfold cannon_diagonals.
      rewrite elem_of_union, !corner_jump_spec. by right.
  - pose proof (red_corners_spec _ _ Hcorner) as (Hb1 & _ & Hr & Hc). split.
    + intros Hm. specialize (Hin _ Hm Hr Hc). unfold cannon_diagonals in Hin.
      rewrite elem_of_union, !corner_jump_spec in Hin.
      destruct Hin as [[_ ?] | [Hblue _]]; [done |].
      apply blue_corners_spec in Hblue as (Hr1 & _).
      unfold in_red_fortress, in_blue_fortress, in_ranges in *.
      rewrite !andb_true_iff in *. lia.
    + intros Hc'. apply Hdiag. unfold cannon_diagonals.
      rewrite elem_of_union, !corner_jump_spec. by left.
Qed.

(** The Soldiers take their diagonal destinations from a table as well:
    on the initial grid, a blue Soldier placed on (2, 3) and told that no
    cell is the opposition's is offered (1, 4), where a piece stands. *)
Lemma soldier_diagonal_ignores_friendly :
  friendly (_board initial_game) ∅ (1, 4) = true
  ∧ get_legal_moves BlueSoldier (Some (2, 3)) (_board initial_game) ∅
    = Some {[ (1, 3); (1, 4); (2, 2); (2, 4) ]}.
Proof. split; vm_compute; reflexivity. Qed.

(** * Lemmas on the check test *)

Lemma piece_legal_moves_located g p opposition :
  is_Some (get_location g p) → is_Some (piece_legal_moves g p opposition).
Proof.
  intros [l Hl]. unfold piece_legal_moves. rewrite Hl.
  eapply returns_is_Some, get_legal_moves_spec.
Qed.

Lemma all_legal_moves_spec g pieces opposition :
  Forall (λ p, is_Some (get_location g p)) pieces →
  ∃ S, all_legal_moves g pieces opposition = Some S
       ∧ ∀ m, m ∈ S ↔ ∃ p moves, p ∈ pieces
                       ∧ piece_legal_moves g p opposition = Some moves ∧ m ∈ moves.
Proof.
  unfold all_legal_moves.
  assert (H : ∀ acc : gset pos,
    Forall (λ p, is_Some (get_location g p)) pieces →
    ∃ S, foldl (λ all_positions piece, all_positions ∪? piece_legal_moves g piece opposition)
               (Some acc) pieces = Some S
         ∧ ∀ m, m ∈ S ↔ m ∈ acc ∨ ∃ p moves, p ∈ pieces
                       ∧ piece_legal_moves g p opposition = Some moves ∧ m ∈ moves).
  { induction pieces as [|q pieces IH]; intros acc Hall.
    - exists acc. split; [done |]. intros m. split; [auto |].
      intros [? | (p & ? & []%elem_of_nil & _)]. done.
    - apply Forall_cons in Hall as [Hq Hall].
      destruct (piece_legal_moves_located g q opposition Hq) as [Sq HSq].
      cbn [foldl]. rewrite HSq. cbn [ou].
      destruct (IH (acc ∪ Sq) Hall) as (S & -> & HS).
      exists S. split; [done |]. intros m. rewrite HS, elem_of_union. split.
      + intros [[? | ?] | (p & moves & ? & ? & ?)]; [by left | right | right].
        * exists q, Sq. split; [apply elem_of_cons; by left | done].
        * exists p, moves. split; [apply elem_of_cons; by right | done].
      + intros [? | (p & moves & [-> | ?]%elem_of_cons & Hm & ?)].
        * left. by left.
        * assert (moves = Sq) as -> by congruence. left. by right.
        * right. by exists p, moves. }
  intros Hall. destruct (H ∅ Hall) as (S & -> & HS). exists S. split; [done |].
  intros m. rewrite HS. split; [| auto]. intros [[]%not_elem_of_empty | ?]. done.
Qed.

Lemma general_position_the_general g pieces :
  general_position g pieces = the_general pieces ≫= get_location g.
Proof.
  unfold general_position, the_general.
  assert (H : ∀ acc : option piece,
    foldl (λ position piece,
             if String.eqb (get_type piece) "General" then get_location g piece
             else position) (acc ≫= get_location g) pieces
    = match last (List.filter (λ p, String.eqb (get_type p) "General") pieces) with
      | Some p => get_location g p
      | None => acc ≫= get_location g
      end).
  { induction pieces as [|q pieces IH]; intros acc; [done |].
    cbn [foldl List.filter]. destruct (String.eqb (get_type q) "General") eqn:E.
    - specialize (IH (Some q)). cbn [mbind option_bind] in IH. rewrite IH.
      destruct (List.filter _ pieces) as [|x l]; [done |].
      rewrite last_cons_cons. destruct (last (x :: l)) eqn:El; [done |].
      by apply last_None in El.
    - apply IH. }
  specialize (H None). cbn [mbind option_bind] in H. rewrite H.
  by destruct (last _).
Qed.

Lemma is_in_check_pure_spec g S :
  Forall (λ p, is_Some (get_location g p)) (pieces_of (other S) g) →
  ∃ b, is_in_check_pure g S = Some b ∧ (b = true ↔ general_attacked g S).
Proof.
  intros Hall. unfold general_attacked.
  assert (Hopp : get_opposition_positions g (other S) = locations g (pieces_of S g))
    by (by destruct S).
  destruct (all_legal_moves_spec g _ (locations g (pieces_of S g)) Hall) as (A & HA & HAm).
  assert (Hpure : is_in_check_pure g S
    = Some (match general_position g (pieces_of S g) with
            | Some p => mem p A | None => false end)).
  { destruct S; cbn [is_in_check_pure other pieces_of] in *; rewrite Hopp, HA; done. }
  rewrite general_position_the_general in Hpure.
  eexists. split; [exact Hpure |].
  destruct (the_general (pieces_of S g)) as [general|] eqn:Hg; cbn [mbind option_bind].
  - destruct (get_location g general) as [position|] eqn:Hp.
    + unfold mem. rewrite bool_decide_eq_true, HAm. split.
      * intros (p & moves & ? & ? & ?). by exists general, position, p, moves.
      * intros (? & ? & p & moves & [= <-] & Hp' & ? & ? & ?).
        rewrite Hp in Hp'. injection Hp' as <-. by exists p, moves.
    + split; [done |]. intros (? & ? & ? & ? & [= <-] & Hp' & _). congruence.
  - split; [done |]. intros (? & ? & ? & ? & [=] & _).
Qed.

(** * Lemmas on the simulate-and-revert primitive *)

Lemma bind_Return {A B} (m : M A) (f : A → M B) g a g' :
  m g = Return a g' → bind m f g = f a g'.
Proof. intros H. unfold bind. by rewrite H. Qed.

Lemma board_read_ok g l :
  board_shape (_board g) → on_board l = true →
  board_read l g = Return (board_at (_board g) l) g.
Proof. intros Hs Hl. unfold board_read. by rewrite board_get_at. Qed.

Lemma board_write_ok g l x :
  board_shape (_board g) → on_board l = true →
  ∃ b', board_write l x g = Return tt (with_board b' g) ∧ board_shape b'
        ∧ board_at b' l = x
        ∧ ∀ l', on_board l' = true → l' ≠ l → board_at b' l' = board_at (_board g) l'.
Proof.
  intros Hs Hl. destruct (board_set_on _ l x Hs Hl) as (b' & Hb' & ? & ? & ?).
  exists b'. unfold board_write. rewrite Hb'. done.
Qed.

Lemma contains_true pieces p : contains pieces p = true ↔ pid p ∈ pid <$> pieces.
Proof.
  unfold contains, same_object. rewrite existsb_exists, list_elem_of_fmap.
  split.
  - intros (q & Hq%list_elem_of_In & E%Nat.eqb_eq). eauto.
  - intros (q & E & Hq%list_elem_of_In). exists q. by rewrite Nat.eqb_eq.
Qed.

Lemma list_remove_ok p pieces :
  p ∈ pieces → NoDup (pid <$> pieces) →
  ∃ rest, list_remove p pieces = Some rest ∧ pieces ≡ₚ p :: rest
          ∧ pid p ∉ pid <$> rest.
Proof.
  induction pieces as [|q pieces IH]; intros Hin Hnd; [by apply elem_of_nil in Hin |].
  rewrite fmap_cons in Hnd. apply NoDup_cons in Hnd as [Hq Hnd].
  cbn [list_remove]. unfold same_object.
  destruct (Nat.eqb_spec (pid p) (pid q)) as [E | E].
  - apply elem_of_cons in Hin as [-> | Hin].
    + exists pieces. done.
    + exfalso. apply Hq. rewrite <- E. by apply list_elem_of_fmap_2.
  - apply elem_of_cons in Hin as [-> | Hin]; [done |].
    destruct (IH Hin Hnd) as (rest & -> & Hperm & Hnot).
    exists (q :: rest). split_and!; [done | |].
    + rewrite Hperm. apply Permutation_swap.
    + rewrite fmap_cons. intros [? | ?]%elem_of_cons; [by apply E | by apply Hnot].
Qed.

Lemma wf_listed_owner g p side :
  wf g → p ∈ pieces_of side g → get_owner p = side.
Proof.
  intros Hwf Hp. destruct side; cbn in Hp.
  - pose proof (wf_blue g Hwf) as H. rewrite Forall_forall in H. auto.
  - pose proof (wf_red g Hwf) as H. rewrite Forall_forall in H. auto.
Qed.

Lemma wf_nodup_side g side : wf g → NoDup (pid <$> pieces_of side g).
Proof.
  intros Hwf. pose proof (wf_distinct g Hwf) as H. rewrite fmap_app in H.
  apply NoDup_app in H as (? & _ & ?). by destruct side.
Qed.

Lemma wf_not_both g p q : wf g → p ∈ _blue_pieces g → q ∈ _red_pieces g → pid p ≠ pid q.
Proof.
  intros Hwf Hp Hq E. pose proof (wf_distinct g Hwf) as H. rewrite fmap_app in H.
  apply NoDup_app in H as (_ & H & _). apply (H (pid p)).
  - by apply list_elem_of_fmap_2.
  - rewrite E. by apply list_elem_of_fmap_2.
Qed.

Lemma remove_from_game_ok g g0 o :
  wf g0 → o ∈ pieces_of (get_owner o) g0 →
  _blue_pieces g = _blue_pieces g0 → _red_pieces g = _red_pieces g0 →
  ∃ rest, remove_from_game o g = Return tt (with_pieces (get_owner o) rest g)
          ∧ pieces_of (get_owner o) g0 ≡ₚ o :: rest
          ∧ pid o ∉ pid <$> rest.
Proof.
  intros Hwf Ho Hb Hr. unfold remove_from_game. rewrite Hb, Hr.
  destruct (list_remove_ok o _ Ho (wf_nodup_side g0 _ Hwf)) as (rest & Hrest & Hperm & Hnot).
  exists rest. split; [| done].
  destruct (get_owner o) eqn:E; cbn [pieces_of with_pieces] in *.
  - destruct (contains (_red_pieces g0) o) eqn:Ec.
    + apply contains_true, list_elem_of_fmap in Ec as (q & Eq & Hq).
      by destruct (wf_not_both g0 o q Hwf Ho Hq).
    + by rewrite Hrest.
  - assert (contains (_red_pieces g0) o = true) as ->.
    { apply contains_true. by apply list_elem_of_fmap_2. }
    by rewrite Hrest.
Qed.

Lemma bind_ret {A B} (a : A) (f : A → M B) g : bind (ret a) f g = f a g.
Proof. done. Qed.

Lemma bind_assoc {A B C} (m : M A) (f : A → M B) (k : B → M C) g :
  bind (bind m f) k g = bind m (λ a, bind (f a) k) g.
Proof. unfold bind. by destruct (m g). Qed.

Lemma wf_cell g l p :
  wf g → on_board l = true → board_at (_board g) l = Some p →
  get_location g p = Some l ∧ p ∈ pieces_of (get_owner p) g.
Proof.
  intros Hwf Hl Hp. pose proof (wf_cells g Hwf) as H. rewrite Forall_forall in H.
  specialize (H l (proj2 (elem_of_all_cells l) Hl)). unfold cell_ok in H.
  by rewrite Hp in H.
Qed.

Lemma wf_listed_located g p side : wf g → p ∈ pieces_of side g → is_Some (get_location g p).
Proof.
  intros Hwf Hp. pose proof (wf_located g Hwf) as H. rewrite Forall_forall in H.
  apply H. apply elem_of_app. destruct side; [by left | by right].
Qed.

Lemma is_in_check_ok g side :
  Forall (λ p, is_Some (get_location g p)) (pieces_of (other side) g) →
  ∃ b, is_in_check side g = Return b g ∧ is_in_check_pure g side = Some b.
Proof.
  intros H. destruct (is_in_check_pure_spec g side H) as (b & Hb & _).
  exists b. unfold is_in_check. by rewrite Hb.
Qed.

Lemma set_location_run p l g : set_location p l g = Return tt (with_location p l g).
Proof. done. Qed.

Lemma append_run o g :
  match get_owner o with
  | blue => modify (λ g0, with_blue_pieces (_blue_pieces g0 ++ [o]) g0)
  | red => modify (λ g0, with_red_pieces (_red_pieces g0 ++ [o]) g0)
  end g
  = Return tt (with_pieces (get_owner o) (pieces_of (get_owner o) g ++ [o]) g).
Proof. by destruct (get_owner o). Qed.

Ltac step H := rewrite ?bind_assoc; rewrite (bind_Return _ _ _ _ _ H).

Lemma location_restored (L : gmap nat pos) (p o : nat) (lp lo l : pos) :
  p ≠ o → L !! p = Some lp → L !! o = Some lo →
  <[o := lo]> (<[p := lp]> (<[p := l]> (delete o L))) = L.
Proof.
  intros Hne Hp Ho. apply map_eq. intros i.
  destruct (decide (i = o)) as [-> | Hio].
  - by rewrite lookup_insert_eq.
  - rewrite lookup_insert_ne by done.
    destruct (decide (i = p)) as [-> | Hip].
    + by rewrite lookup_insert_eq.
    + rewrite !lookup_insert_ne by done. by rewrite lookup_delete_ne.
Qed.

Lemma leaves_in_check_restores g move_from move_to p :
  wf g → on_board move_from = true → on_board move_to = true →
  move_from ≠ move_to → board_at (_board g) move_from = Some p →
  ∃ b g', leaves_in_check move_from move_to g = Return b g' ∧ same_up_to_order g g'.
Proof.
  intros Hwf Hf Ht Hne Hp.
  pose proof (wf_shape g Hwf) as Hs.
  destruct (wf_cell g _ _ Hwf Hf Hp) as [Hlp Hpin].
  unfold leaves_in_check.
  step (board_read_ok g _ Hs Hf). rewrite Hp.
  destruct (board_write_ok g move_from None Hs Hf) as (b1 & Hw1 & Hs1 & Hb1 & Hb1').
  step Hw1. unfold capture.
  step (board_read_ok (with_board b1 g) move_to Hs1 Ht).
  cbn [_board with_board]. rewrite (Hb1' move_to Ht) by done.
  destruct (board_at (_board g) move_to) as [o|] eqn:Ho.
  - (* a capture is simulated *)
    destruct (wf_cell g _ _ Hwf Ht Ho) as [Hlo Hoin].
    assert (Hpo : pid p ≠ pid o).
    { intros E. unfold get_location in Hlp, Hlo. rewrite E in Hlp. congruence. }
    destruct (board_write_ok (with_board b1 g) move_to None Hs1 Ht) as (b2 & Hw2 & Hs2 & Hb2 & Hb2').
    cbn [_board with_board] in Hb2'.
    step Hw2. step (set_location_run o None (with_board b2 (with_board b1 g))).
    set (g3 := with_location o None (with_board b2 (with_board b1 g))).
    destruct (remove_from_game_ok g3 g o Hwf Hoin eq_refl eq_refl) as (rest & Hrm & Hperm & Hnot).
    step Hrm. rewrite bind_ret.
    set (g4 := with_pieces (get_owner o) rest g3).
    assert (Hs4 : board_shape (_board g4)) by (subst g4 g3; destruct (get_owner o); done).
    assert (Hb4 : _board g4 = b2) by (subst g4 g3; destruct (get_owner o); done).
    destruct (board_write_ok g4 move_to (Some p) Hs4 Ht) as (b3 & Hw3 & Hs3 & Hb3 & Hb3').
    rewrite Hb4 in Hb3'.
    step Hw3. cbn [cell_set_location].
    step (set_location_run p (Some move_to) (with_board b3 g4)).
    set (g6 := with_location p (Some move_to) (with_board b3 g4)).
    cbn [fmap option_fmap option_map lift]. rewrite bind_ret.
    (* the check test runs on the simulated position *)
    assert (Hloc6 : ∀ side q, q ∈ pieces_of side g6 → is_Some (get_location g6 q)).
    { intros side q Hq.
      assert (q ∈ pieces_of side g ∧ pid q ≠ pid o) as [Hq' Hqo].
      { subst g6 g4 g3. destruct (get_owner o) eqn:Eo, side; cbn in Hq, Hoin, Hperm.
        - split; [rewrite Hperm; apply elem_of_cons; by right |].
          intros E. apply Hnot. rewrite <- E. by apply list_elem_of_fmap_2.
        - split; [done |]. intros E. by apply (wf_not_both g o q Hwf).
        - split; [done |]. intros E. by apply (wf_not_both g q o Hwf).
        - split; [rewrite Hperm; apply elem_of_cons; by right |].
          intros E. apply Hnot. rewrite <- E. by apply list_elem_of_fmap_2. }
      assert (Hgl : get_location g6 q
                = (<[pid p := move_to]> (delete (pid o) (_location g))) !! pid q).
      { subst g6 g4 g3. destruct (get_owner o); done. }
      rewrite Hgl. destruct (decide (pid q = pid p)) as [-> | Hqp].
      - rewrite lookup_insert_eq. eauto.
      - rewrite lookup_insert_ne, lookup_delete_ne by done.
        by apply (wf_listed_located g q side). }
    destruct (is_in_check_ok g6 (get_owner p)) as (b & Hck & _).
    { apply Forall_forall. intros q Hq. by apply (Hloc6 (other (get_owner p))). }
    step Hck.
    assert (Hs6 : board_shape (_board g6)) by (subst g6 g4 g3; destruct (get_owner o); done).
    assert (Hb6 : _board g6 = b3) by (subst g6 g4 g3; destruct (get_owner o); done).
    destruct (board_write_ok g6 move_from (Some p) Hs6 Hf) as (b4 & Hw4 & Hs4' & Hb4a & Hb4').
    rewrite Hb6 in Hb4'.
    step Hw4. step (set_location_run p (Some move_from) (with_board b4 g6)).
    set (g8 := with_location p (Some move_from) (with_board b4 g6)).
    assert (Hs8 : board_shape (_board g8)) by (subst g8 g6 g4 g3; destruct (get_owner o); done).
    assert (Hb8 : _board g8 = b4) by (subst g8 g6 g4 g3; destruct (get_owner o); done).
    destruct (board_write_ok g8 move_to (Some o) Hs8 Ht) as (b5 & Hw5 & Hs5 & Hb5 & Hb5').
    rewrite Hb8 in Hb5'.
    step Hw5. step (set_location_run o (Some move_to) (with_board b5 g8)).
    step (append_run o (with_location o (Some move_to) (with_board b5 g8))).
    eexists b, _. split; [reflexivity |].
    assert (Hboard : b5 = _board g).
    { apply board_ext; [done | done |]. intros l Hl.
      destruct (decide (l = move_to)) as [-> | Hlt]; [by rewrite Hb5, Ho |].
      rewrite Hb5' by done.
      destruct (decide (l = move_from)) as [-> | Hlf]; [by rewrite Hb4a, Hp |].
      rewrite Hb4', Hb3', Hb2', Hb1' by done. done. }
    assert (Hlocs : <[pid o := move_to]> (<[pid p := move_from]>
                      (<[pid p := move_to]> (delete (pid o) (_location g)))) = _location g)
      by (apply location_restored; done).
    unfold same_up_to_order. subst g8 g6 g4 g3.
    destruct (get_owner o) eqn:Eo; cbn in Hperm |- *; rewrite Hlocs, Hboard;
      split_and!; try done.
    + rewrite Hperm. symmetry. apply Permutation_cons_append.
    + rewrite Hperm. symmetry. apply Permutation_cons_append.
  - (* the destination is empty *)
    rewrite bind_ret.
    assert (Hs1' : board_shape (_board (with_board b1 g))) by done.
    destruct (board_write_ok (with_board b1 g) move_to (Some p) Hs1' Ht) as (b2 & Hw2 & Hs2 & Hb2 & Hb2').
    cbn [_board with_board] in Hb2'.
    step Hw2. cbn [cell_set_location].
    step (set_location_run p (Some move_to) (with_board b2 (with_board b1 g))).
    set (g3 := with_location p (Some move_to) (with_board b2 (with_board b1 g))).
    cbn [fmap option_fmap option_map lift]. rewrite bind_ret.
    destruct (is_in_check_ok g3 (get_owner p)) as (b & Hck & _).
    { apply Forall_forall. intros q Hq. subst g3. unfold get_location. cbn [_location with_location with_board].
      destruct (decide (pid q = pid p)) as [-> | Hqp].
      - rewrite lookup_insert_eq. eauto.
      - rewrite lookup_insert_ne by done.
        apply (wf_listed_located g q (other (get_owner p)) Hwf).
        by destruct (other (get_owner p)). }
    step Hck.
    assert (Hs3 : board_shape (_board g3)) by done.
    destruct (board_write_ok g3 move_from (Some p) Hs3 Hf) as (b4 & Hw4 & Hs4 & Hb4a & Hb4').
    cbn [_board with_board with_location g3] in Hb4'.
    step Hw4. step (set_location_run p (Some move_from) (with_board b4 g3)).
    set (g5 := with_location p (Some move_from) (with_board b4 g3)).
    assert (Hs5 : board_shape (_board g5)) by done.
    destruct (board_write_ok g5 move_to None Hs5 Ht) as (b5 & Hw5 & Hs5' & Hb5 & Hb5').
    cbn [_board with_board with_location g5] in Hb5'.
    step Hw5.
    eexists b, _. split; [reflexivity |].
    assert (Hboard : b5 = _board g).
    { apply board_ext; [done | done |]. intros l Hl.
      destruct (decide (l = move_to)) as [-> | Hlt]; [by rewrite Hb5, Ho |].
      rewrite Hb5' by done.
      destruct (decide (l = move_from)) as [-> | Hlf]; [by rewrite Hb4a, Hp |].
      rewrite Hb4', Hb2', Hb1' by done. done. }
    unfold same_up_to_order. subst g5 g3. cbn.
    rewrite Hboard, insert_insert_eq, insert_id by done. done.
Qed.

(** * Lemmas on make_move *)

Lemma bind_inv {A B} (m : M A) (f : A → M B) g b g' :
  bind m f g = Return b g' → ∃ a g1, m g = Return a g1 ∧ f a g1 = Return b g'.
Proof. unfold bind. destruct (m g) as [a g1 | e g1]; [eauto | done]. Qed.

Lemma translate_range c column : translate c = Some column → 0 ≤ column < 9.
Proof.
  unfold translate. repeat case_match; intros [= <-]; lia.
Qed.

Lemma parse_position_column s l : parse_position s = inr l → 0 ≤ snd l < 9.
Proof.
  unfold parse_position. destruct (py_int _); [| done].
  destruct s as [|c s]; [done |].
  destruct (translate c) eqn:E; [| done].
  intros [= <-]. cbn. by eapply translate_range.
Qed.

Lemma py_index_Some (n : nat) i k : py_index n i = Some k → i < Z.of_nat n.
Proof.
  unfold py_index. repeat case_match; intros [=]; lia.
Qed.

Lemma board_get_row_bound b l c :
  board_shape b → board_get b l = Some c → fst l < 10.
Proof.
  intros [Hl _]. unfold board_get, getitem.
  destruct (py_index (length b) l.1) eqn:E; [| done].
  intros _. apply py_index_Some in E. lia.
Qed.

Lemma same_up_to_order_refl g : same_up_to_order g g.
Proof. by unfold same_up_to_order. Qed.

Lemma make_move_finished g move_from move_to :
  _game_state g ≠ UNFINISHED →
  make_move move_from move_to g
  = match parse_position move_to, parse_position move_from with
    | inr _, inr _ => Return false g
    | inl e, _ => Raise e g
    | inr _, inl e => Raise e g
    end.
Proof.
  intros H. unfold make_move, bind, lift_exn.
  destruct (parse_position move_to) as [e | to_position]; [done |].
  destruct (parse_position move_from) as [e | from_position]; [done |].
  cbn. by rewrite bool_decide_true.
Qed.

Lemma make_move_passes g s from p :
  wf g → _game_state g = UNFINISHED →
  parse_position s = inr from → on_board from = true →
  board_at (_board g) from = Some p → get_owner p = _current_turn g →
  ∃ b, is_in_check_pure g (_current_turn g) = Some b
       ∧ make_move s s g
         = Return (negb b) (if b then g else with_current_turn (other (_current_turn g)) g).
Proof.
  intros Hwf Hst Hparse Hon Hp Hturn.
  destruct (wf_cell g _ _ Hwf Hon Hp) as [Hloc Hin].
  destruct (is_in_check_ok g (_current_turn g)) as (b & Hck & Hpure).
  { apply Forall_forall. intros q Hq. by apply (wf_listed_located g q (other (_current_turn g))). }
  exists b. split; [done |].
  unfold make_move. rewrite Hparse. cbn [lift_exn]. rewrite !bind_ret.
  step (eq_refl : gets _game_state g = Return (_game_state g) g).
  rewrite Hst, bool_decide_false by (intros H; by apply H).
  step (board_read_ok g _ (wf_shape g Hwf) Hon). rewrite Hp.
  step (eq_refl : gets _current_turn g = Return (_current_turn g) g).
  rewrite Hturn, bool_decide_false by (intros H; by apply H).
  rewrite String.eqb_refl.
  step Hck. rewrite bind_ret.
  destruct b; cbn [negb].
  - (* in check: the request falls through to the legality test *)
    step (eq_refl : gets (λ g0, get_opposition_positions g0 (_current_turn g)) g
                    = Return (get_opposition_positions g (_current_turn g)) g).
    pose proof (get_legal_moves_spec (get_class p) from (_board g)
                 (get_opposition_positions g (_current_turn g))) as (moves & Hmoves & Hspec).
    assert (Hlm : (λ g0, lift RecursionError
                     (piece_legal_moves g0 p (get_opposition_positions g (_current_turn g))) g0) g
                  = Return moves g).
    { cbn beta. unfold piece_legal_moves. by rewrite Hloc, Hmoves. }
    step Hlm.
    assert (mem from moves = false) as ->; [| done].
    unfold mem. apply bool_decide_eq_false. intros Hm. by destruct (Hspec _ Hm).
  - unfold change_turn. 
    step (eq_refl : modify (λ g0, with_current_turn
             match _current_turn g0 with blue => red | red => blue end g0) g
           = Return tt (with_current_turn (other (_current_turn g)) g)).
    done.
Qed.

(** Two different strings that name the cell of one of the mover's
    pieces: the comparison of the strings fails, the request goes to the
    legality test, and a piece never has its own cell among its moves. *)
Lemma make_move_same_cell g move_from move_to from p :
  wf g → _game_state g = UNFINISHED →
  parse_position move_from = inr from → parse_position move_to = inr from →
  on_board from = true →
  board_at (_board g) from = Some p → get_owner p = _current_turn g →
  move_from ≠ move_to →
  make_move move_from move_to g = Return false g.
Proof.
  intros Hwf Hst Hfrom Hto Hon Hp Hturn Hne.
  destruct (wf_cell g _ _ Hwf Hon Hp) as [Hloc Hin].
  unfold make_move. rewrite Hfrom, Hto. cbn [lift_exn]. rewrite !bind_ret.
  step (eq_refl : gets _game_state g = Return (_game_state g) g).
  rewrite Hst, bool_decide_false by (intros H; by apply H).
  step (board_read_ok g _ (wf_shape g Hwf) Hon). rewrite Hp.
  step (eq_refl : gets _current_turn g = Return (_current_turn g) g).
  rewrite Hturn, bool_decide_false by (intros H; by apply H).
  apply String.eqb_neq in Hne. rewrite Hne. rewrite bind_ret.
  step (eq_refl : gets (λ g0, get_opposition_positions g0 (_current_turn g)) g
                  = Return (get_opposition_positions g (_current_turn g)) g).
  pose proof (get_legal_moves_spec (get_class p) from (_board g)
               (get_opposition_positions g (_current_turn g))) as (moves & Hmoves & Hspec).
  assert (Hlm : (λ g0, lift RecursionError
                   (piece_legal_moves g0 p (get_opposition_positions g (_current_turn g))) g0) g
                = Return moves g).
  { cbn beta. unfold piece_legal_moves. by rewrite Hloc, Hmoves. }
  step Hlm.
  assert (mem from moves = false) as ->; [| done].
  unfold mem. apply bool_decide_eq_false. intros Hm. by destruct (Hspec _ Hm).
Qed.

Lemma make_move_rejected g move_from move_to from_position g' :
  wf g → parse_position move_from = inr from_position → 0 ≤ fst from_position →
  make_move move_from move_to g = Return false g' →
  same_up_to_order g g'.
Proof.
  intros Hwf Hparse Hrow Hmm.
  pose proof (wf_shape g Hwf) as Hs.
  unfold make_move in Hmm. rewrite Hparse in Hmm.
  destruct (parse_position move_to) as [e | to_position]; [done |].
  cbn [lift_exn] in Hmm. rewrite !bind_ret in Hmm.
  apply bind_inv in Hmm as (state & g1 & [= <- <-] & Hmm).
  case_bool_decide as Hst.
  { injection Hmm as <-. apply same_up_to_order_refl. }
  apply bind_inv in Hmm as (origin & g1 & Hread & Hmm).
  unfold board_read in Hread.
  destruct (board_get (_board g) from_position) as [c|] eqn:Hget; [| done].
  injection Hread as <- <-.
  assert (Hon : on_board from_position = true).
  { apply on_board_spec. pose proof (parse_position_column _ _ Hparse).
    pose proof (board_get_row_bound _ _ _ Hs Hget). lia. }
  rewrite board_get_at in Hget by done. injection Hget as <-.
  destruct (board_at (_board g) from_position) as [p|] eqn:Hp.
  2: { injection Hmm as <-. apply same_up_to_order_refl. }
  destruct (wf_cell g _ _ Hwf Hon Hp) as [Hloc Hin].
  apply bind_inv in Hmm as (turn & g1 & [= <- <-] & Hmm).
  case_bool_decide as Hturn.
  { injection Hmm as <-. apply same_up_to_order_refl. }
  apply bind_inv in Hmm as (passing & g1 & Hpass & Hmm).
  assert (g1 = g) as ->.
  { destruct (String.eqb move_from move_to).
    - apply bind_inv in Hpass as (b & g2 & Hck & [= _ <-]).
      unfold is_in_check in Hck. destruct (is_in_check_pure g (get_owner p)); [| done].
      by injection Hck.
    - by injection Hpass. }
  destruct passing; [done |].
  apply bind_inv in Hmm as (opposition & g1 & [= <- <-] & Hmm).
  apply bind_inv in Hmm as (moves & g1 & Hmoves & Hmm).
  destruct (piece_legal_moves g p (get_opposition_positions g (get_owner p)))
    as [moves'|] eqn:Hlm; [| done].
  injection Hmoves as <- <-.
  destruct (mem to_position moves') eqn:Hmem; cbn [negb] in Hmm.
  2: { injection Hmm as <-. apply same_up_to_order_refl. }
  (* the simulation is run; its result decides *)
  unfold piece_legal_moves in Hlm. rewrite Hloc in Hlm.
  apply bool_decide_eq_true in Hmem.
  destruct (returns_elim _ _ _ _ (get_legal_moves_spec _ _ _ _) Hlm Hmem) as [Hto Hne].
  destruct (leaves_in_check_restores g from_position to_position p Hwf Hon Hto
              (not_eq_sym Hne) Hp) as (b & g2 & Hlc & Hsame).
  apply bind_inv in Hmm as (b' & g1 & Hlc' & Hmm).
  rewrite Hlc in Hlc'. injection Hlc' as <- <-.
  destruct b.
  { by injection Hmm as <-. }
  (* a committed move returns True *)
  exfalso.
  apply bind_inv in Hmm as (? & g3 & _ & Hmm).
  apply bind_inv in Hmm as (? & g4 & _ & Hmm).
  apply bind_inv in Hmm as (? & g5 & _ & Hmm).
  apply bind_inv in Hmm as (mate & g6 & _ & Hmm).
  destruct mate; apply bind_inv in Hmm as (? & g7 & _ & Hmm); done.
Qed.

(** * The budget of the checkmate loop is never exhausted *)

Lemma never_loops_bind {A B} (m : M A) (f : A → M B) :
  never_loops m → (∀ a, never_loops (f a)) → never_loops (bind m f).
Proof.
  intros Hm Hf g e g'. unfold bind. destruct (m g) as [a g1 | e1 g1] eqn:E.
  - apply Hf.
  - intros [= <- <-]. by eapply Hm.
Qed.

Lemma never_loops_ret {A} (a : A) : never_loops (ret a).
Proof. by intros g e g'. Qed.

Lemma never_loops_gets {A} (f : JanggiGame → A) : never_loops (gets f).
Proof. by intros g e g'. Qed.

Lemma never_loops_modify f : never_loops (modify f).
Proof. by intros g e g'. Qed.

Lemma never_loops_lift {A} e (o : option A) : e ≠ NonTermination → never_loops (lift e o).
Proof. intros He g e' g'. destruct o; [done |]. by intros [= <- <-]. Qed.

Lemma never_loops_board_read l : never_loops (board_read l).
Proof. intros g. apply never_loops_lift. done. Qed.

Lemma never_loops_board_write l x : never_loops (board_write l x).
Proof. intros g e g'. unfold board_write. destruct (board_set _ _ _); [done |]. by intros [= <- <-]. Qed.

Lemma never_loops_remove o : never_loops (remove_from_game o).
Proof.
  intros g e g'. unfold remove_from_game.
  repeat case_match; try done; by intros [= <- <-].
Qed.

Lemma never_loops_cell_set_location x l : never_loops (cell_set_location x l).
Proof. destruct x; [apply never_loops_modify |]. by intros g e g' [= <- <-]. Qed.

Lemma never_loops_is_in_check side : never_loops (is_in_check side).
Proof. intros g. apply never_loops_lift. done. Qed.

Lemma never_loops_leaves_in_check move_from move_to :
  never_loops (leaves_in_check move_from move_to).
Proof.
  unfold leaves_in_check, capture, set_location.
  repeat first
    [ apply never_loops_bind; [| intros ?]
    | apply never_loops_ret | apply never_loops_modify
    | apply never_loops_board_read | apply never_loops_board_write
    | apply never_loops_remove | apply never_loops_cell_set_location
    | apply never_loops_is_in_check | apply never_loops_lift; done
    | case_match ].
Qed.

(** Reading and writing the grid, and moving a piece, leave the lists alone. *)
Lemma board_write_lists l x g a g' :
  board_write l x g = Return a g' →
  _blue_pieces g' = _blue_pieces g ∧ _red_pieces g' = _red_pieces g.
Proof. unfold board_write. destruct (board_set _ _ _); [| done]. by intros [= _ <-]. Qed.

Lemma board_read_state l g a g' : board_read l g = Return a g' → g' = g.
Proof. unfold board_read, lift. destruct (board_get _ _); [| done]. by intros [= _ <-]. Qed.

Lemma cell_set_location_lists x l g a g' :
  cell_set_location x l g = Return a g' →
  _blue_pieces g' = _blue_pieces g ∧ _red_pieces g' = _red_pieces g.
Proof. destruct x; [| done]. by intros [= _ <-]. Qed.

Lemma list_remove_length p l l' : list_remove p l = Some l' → length l = S (length l').
Proof.
  revert l'. induction l as [|q l IH]; intros l'; [done |]. cbn [list_remove].
  destruct (same_object p q); [by intros [= <-] |].
  destruct (list_remove p l) as [r|]; [| done]. intros [= <-]. cbn. f_equal. by apply IH.
Qed.

Lemma remove_from_game_total o g a g' :
  remove_from_game o g = Return a g' → total_pieces g = S (total_pieces g').
Proof.
  unfold remove_from_game, total_pieces.
  destruct (contains (_red_pieces g) o).
  - destruct (list_remove o (_red_pieces g)) as [l|] eqn:E; [| done].
    intros [= _ <-]. apply list_remove_length in E. cbn. lia.
  - destruct (list_remove o (_blue_pieces g)) as [l|] eqn:E; [| done].
    intros [= _ <-]. apply list_remove_length in E. cbn. lia.
Qed.

Lemma leaves_in_check_total move_from move_to g b g' :
  leaves_in_check move_from move_to g = Return b g' → total_pieces g' = total_pieces g.
Proof.
  unfold leaves_in_check. intros H.
  apply bind_inv in H as (piece & g1 & ->%board_read_state & H).
  apply bind_inv in H as ([] & g2 & [Hb2 Hr2]%board_write_lists & H).
  apply bind_inv in H as (opponent & g3 & Hcap & H).
  assert (Hcap' : match opponent with
                  | Some _ => total_pieces g = S (total_pieces g3)
                  | None => total_pieces g3 = total_pieces g
                  end).
  { unfold capture in Hcap.
    apply bind_inv in Hcap as (target & g2' & ->%board_read_state & Hcap).
    destruct target as [o|].
    - apply bind_inv in Hcap as ([] & g4 & [Hb4 Hr4]%board_write_lists & Hcap).
      apply bind_inv in Hcap as ([] & g5 & [= <-] & Hcap).
      apply bind_inv in Hcap as ([] & g6 & Hrm%remove_from_game_total & [= <- <-]).
      rewrite <- Hrm. unfold total_pieces. cbn. by rewrite Hb4, Hr4, Hb2, Hr2.
    - injection Hcap as <- <-. unfold total_pieces. by rewrite Hb2, Hr2. }
  apply bind_inv in H as ([] & g4 & [Hb4 Hr4]%board_write_lists & H).
  apply bind_inv in H as ([] & g5 & [Hb5 Hr5]%cell_set_location_lists & H).
  apply bind_inv in H as (owner & g6 & Hown & H).
  assert (g6 = g5) as -> by (destruct piece; [by injection Hown | done]).
  apply bind_inv in H as (ck & g7 & Hck & H).
  assert (g7 = g5) as ->.
  { unfold is_in_check, lift in Hck. destruct (is_in_check_pure g5 owner); [| done].
    by injection Hck. }
  apply bind_inv in H as ([] & g8 & [Hb8 Hr8]%board_write_lists & H).
  apply bind_inv in H as ([] & g9 & [Hb9 Hr9]%cell_set_location_lists & H).
  apply bind_inv in H as ([] & g10 & Hfin & [= _ <-]).
  assert (Hg9 : total_pieces g9 = total_pieces g3).
  { unfold total_pieces. by rewrite Hb9, Hr9, Hb8, Hr8, Hb5, Hr5, Hb4, Hr4. }
  destruct opponent as [o|].
  - apply bind_inv in Hfin as ([] & g11 & [Hb11 Hr11]%board_write_lists & Hfin).
    apply bind_inv in Hfin as ([] & g12 & [= <-] & Hfin).
    rewrite Hcap', <- Hg9. unfold total_pieces in *.
    destruct (get_owner o); injection Hfin as <-; cbn; rewrite ?length_app, Hb11, Hr11; cbn; lia.
  - apply board_write_lists in Hfin as [Hb Hr].
    rewrite <- Hcap', <- Hg9. unfold total_pieces. by rewrite Hb, Hr.
Qed.

Lemma never_loops_try_moves piece moves : never_loops (try_moves piece moves).
Proof.
  induction moves as [|m moves IH]; [apply never_loops_ret |]. cbn [try_moves].
  repeat first
    [ apply never_loops_leaves_in_check | apply IH
    | apply never_loops_bind; [| intros ?]
    | apply never_loops_ret | apply never_loops_gets
    | apply never_loops_lift; done
    | case_match ].
Qed.

Lemma try_moves_total piece moves g b g' :
  try_moves piece moves g = Return b g' → total_pieces g' = total_pieces g.
Proof.
  revert g. induction moves as [|m moves IH]; intros g; [by intros [= _ <-] |].
  cbn [try_moves]. intros H.
  apply bind_inv in H as (location & g1 & [= _ <-] & H).
  apply bind_inv in H as (move_from & g2 & Hl & H).
  assert (g2 = g) as -> by (destruct location; [by injection Hl | done]).
  apply bind_inv in H as (still & g3 & Hlc%leaves_in_check_total & H).
  destruct still; cbn [negb] in H.
  - apply IH in H. congruence.
  - injection H as _ <-. done.
Qed.

Lemma is_check_mate_loop_terminates side fuel index :
  ∀ g, (total_pieces g < fuel + index)%nat → (index ≤ total_pieces g)%nat →
       ∀ e g', is_check_mate_loop fuel side index g = Raise e g' → e ≠ NonTermination.
Proof.
  revert index. induction fuel as [|fuel IH]; intros index g Hsum Hidx e g'; [lia |].
  cbn [is_check_mate_loop]. unfold bind at 1. cbn [gets].
  destruct (pieces_of side g !! index) as [piece|] eqn:Hp; [| done].
  assert (Hlt : (index < total_pieces g)%nat).
  { apply lookup_lt_Some in Hp. unfold total_pieces. destruct side; cbn in Hp; lia. }
  unfold bind at 1. cbn [gets]. unfold bind at 1.
  destruct (piece_legal_moves g piece _) as [moves|]; cbn [lift ret raise];
    [| by intros [= <- <-]].
  unfold bind at 1.
  destruct (try_moves piece (elements moves) g) as [escaped g1 | e1 g1] eqn:Htry.
  - apply try_moves_total in Htry. destruct escaped; [done |].
    apply IH; lia.
  - intros [= <- <-]. by eapply never_loops_try_moves.
Qed.

Lemma is_check_mate_terminates side : never_loops (is_check_mate side).
Proof.
  intros g e g'. unfold is_check_mate, bind. cbn [gets].
  apply is_check_mate_loop_terminates; unfold total_pieces; lia.
Qed.

(** * Deciding well-formedness of a concrete game *)

Lemma wf_check_sound g : wf_check g = true → wf g.
Proof.
  unfold wf_check. rewrite !andb_true_iff, !bool_decide_eq_true.
  intros [[[[[? ?] ?] ?] ?] ?]. by constructor.
Qed.

Lemma wf_initial_game : wf initial_game.
Proof. apply wf_check_sound. vm_compute. reflexivity. Qed.

(** * The demo game of the source

    The embedding agrees with every outcome that [main()] announces for its
    ninety-seven calls, and ends, like the source, with blue having won. *)
Lemma demo_game_as_announced :
  outcomes initial_game demo_calls = Some <$> demo_expected
  ∧ _game_state (play initial_game demo_calls) = BLUE_WON.
Proof. vm_compute. split; reflexivity. Qed.

(** * The claims *)

(** C1, as stated, fails.  After the five moves of [rank_two_check] red is
    in check and its Soldier on c6 can take the blue Soldier on c7.  The
    call make_move("c6", "c7") is rejected, since red stays in check, and
    the simulation inside it leaves the grid and every location as they
    were, but the blue Soldier it took off the list comes back at the end
    of the list: the insertion order of the blue pieces has changed.  The
    primitive alone, called on the same move, does the same. *)
Lemma rejected_capture_reorders :
  let g := play initial_game rank_two_check in
  ∃ g', make_move "c6" "c7" g = Return false g'
        ∧ leaves_in_check (5, 2) (6, 2) g = Return true g'
        ∧ _board g' = _board g ∧ _location g' = _location g
        ∧ pid <$> _blue_pieces g
          = [0; 2; 3; 4; 5; 6; 12; 13; 14; 15; 16; 22; 24; 26; 28; 30]%nat
        ∧ pid <$> _blue_pieces g'
          = [0; 2; 3; 4; 5; 6; 12; 13; 14; 15; 16; 22; 26; 28; 30; 24]%nat.
Proof. vm_compute. eexists. repeat split. Qed.

(** A slip next to it, left out of the amended claim: a rank below 1 is
    taken as a negative row index, which Python resolves from the other
    end of the grid, and the simulation then writes that index back as the
    piece's location.  Here the rejected call make_move("c-4", "c7")
    leaves the red Soldier of c6 with the location (-5, 2). *)
Lemma negative_rank_rewrites_location :
  let g := play initial_game rank_two_check in
  let soldier := Piece 25 red "Soldier" RedSoldier in
  get_location g soldier = Some (5, 2)
  ∧ ∃ g', make_move "c-4" "c7" g = Return false g'
          ∧ get_location g' soldier = Some (-5, 2).
Proof. vm_compute. split; [done |]. eexists. split; reflexivity. Qed.

(** C1, amended.  On a well-formed game, every call of leaves_in_check
    with an occupied origin and another destination, both on the board,
    returns, and every make_move call with an origin of rank 1 or more that
    returns False, leave the grid, the game state, the turn and every
    piece's recorded location as they were, and leave each side's list
    with the same members (a permutation: a piece taken in the simulation
    is appended again at the end). *)
Theorem simulation_restores_up_to_order (g : JanggiGame) :
  wf g →
  (∀ move_from move_to p,
     on_board move_from = true → on_board move_to = true → move_from ≠ move_to →
     board_at (_board g) move_from = Some p →
     ∃ b g', leaves_in_check move_from move_to g = Return b g' ∧ same_up_to_order g g')
  ∧ (∀ move_from move_to from_position g',
       parse_position move_from = inr from_position → 0 ≤ fst from_position →
       make_move move_from move_to g = Return false g' →
       same_up_to_order g g').
Proof.
  intros Hwf. split.
  - intros. by eapply leaves_in_check_restores.
  - intros. by eapply make_move_rejected.
Qed.

Lemma simulation_restores_up_to_order_witness :
  let g := play initial_game rank_two_check in
  (∃ b g', leaves_in_check (5, 2) (6, 2) g = Return b g' ∧ same_up_to_order g g')
  ∧ same_up_to_order g (state_of (make_move "c6" "c7" g)).
Proof.
  intros g.
  assert (Hwf : wf g) by (apply wf_check_sound; vm_compute; reflexivity).
  destruct (simulation_restores_up_to_order g Hwf) as [H1 H2]. split.
  - apply (H1 (5, 2) (6, 2) (Piece 25 red "Soldier" RedSoldier));
      [reflexivity | reflexivity | discriminate | vm_compute; reflexivity].
  - apply (H2 "c6" "c7" (5, 2)); [reflexivity | cbn; lia | vm_compute; reflexivity].
Defined.

(** C2: the code falls short of the claim.  All seventeen moves of
    [walled_in_general] are accepted.  Red then plays i8-g9: the Horse
    checks the blue General on e10 across the empty leg f9.  The blue
    Guard on f10 can step to f9, and the simulation of that move leaves
    blue out of check, yet make_move sets the state to RED_WON: while
    is_check_mate was iterating over the blue pieces, the simulated capture
    by the blue Cannon on f8 of its own Guard on d10 (a destination that
    get_legal_moves should not offer, see C5) removed an earlier element
    of the very list being iterated, and the iterator skipped the next
    one, the Guard on f10. *)
Theorem checkmate_loop_skips_a_piece :
  let g := play initial_game walled_in_general in
  let g' := state_of (make_move "i8" "g9" g) in
  let guard := Piece 12 blue "Guard" BlueGuard in
  outcomes initial_game walled_in_general = replicate 17 (Some true)
  ∧ _game_state g = UNFINISHED ∧ _current_turn g = red
  ∧ returned (make_move "i8" "g9" g) = Some true
  ∧ _game_state g' = RED_WON ∧ _current_turn g' = red
  ∧ is_in_check_pure g' blue = Some true
  ∧ contains (_blue_pieces g') guard = true ∧ get_location g' guard = Some (9, 5)
  ∧ piece_legal_moves g' guard (get_opposition_positions g' blue) = Some {[ (8, 5) ]}
  ∧ returned (leaves_in_check (9, 5) (8, 5) g') = Some false.
Proof. vm_compute. repeat split. Qed.

(** C3, as stated, fails: the red Soldier on a4 of the initial layout,
    at (3, 0), steps forward to (4, 0), a larger row; and the blue Soldier
    on a7, at (6, 0), steps forward to (5, 0), a smaller one. *)
Lemma soldiers_step_the_other_way :
  get_legal_moves RedSoldier (Some (3, 0)) (_board initial_game)
    (get_opposition_positions initial_game red) = Some {[ (4, 0); (3, 1) ]}
  ∧ get_legal_moves BlueSoldier (Some (6, 0)) (_board initial_game)
    (get_opposition_positions initial_game blue) = Some {[ (5, 0); (6, 1) ]}.
Proof. split; vm_compute; reflexivity. Qed.

(** C3, amended.  For every Soldier on every board, get_legal_moves
    returns, when the Soldier stands on the board, the cells of its
    fortress diagonals together with those of one step forward and one
    step sideways in either column direction that are on the board and not
    friendly-occupied; the forward step is row-increasing for a red
    Soldier and row-decreasing for a blue one. *)
Theorem soldier_legal_moves (row column : Z) (board : board_t) (opposition : gset pos) :
  (∃ S, get_legal_moves RedSoldier (Some (row, column)) board opposition = Some S
        ∧ ∀ m, m ∈ S ↔
            on_board (row, column) = true
            ∧ (m ∈ red_soldier_diagonals (row, column)
               ∨ ((m = (row + 1, column) ∨ m = (row, column + 1) ∨ m = (row, column - 1))
                  ∧ on_board m = true ∧ friendly board opposition m = false)))
  ∧ (∃ S, get_legal_moves BlueSoldier (Some (row, column)) board opposition = Some S
          ∧ ∀ m, m ∈ S ↔
              on_board (row, column) = true
              ∧ (m ∈ blue_soldier_diagonals (row, column)
                 ∨ ((m = (row - 1, column) ∨ m = (row, column + 1) ∨ m = (row, column - 1))
                    ∧ on_board m = true ∧ friendly board opposition m = false))).
Proof.
  split; eexists; cbn [get_legal_moves].
  - split; [apply RedSoldier_entry; unfold recursion_limit; lia |].
    intros m. destruct (on_board (row, column)); [| set_solver].
    rewrite !elem_of_union, !soldier_step_spec. naive_solver.
  - split; [apply BlueSoldier_entry; unfold recursion_limit; lia |].
    intros m. destruct (on_board (row, column)); [| set_solver].
    rewrite !elem_of_union, !soldier_step_spec. naive_solver.
Qed.

(** C4: the code falls short of the claim in the red fortress, where it
    tests the cell (0, 4) instead of the centre (1, 4).  After
    [cannon_to_d3] the red Cannon stands on the corner (2, 3), the red
    General on the centre and the corner (0, 5) is free, and (0, 5) is not
    among the Cannon's moves; after [general_to_e1] the centre is empty,
    the General stands on (0, 4), and (0, 5) is among them. *)
Theorem red_fortress_tests_the_wrong_cell :
  let g := play initial_game cannon_to_d3 in
  let g' := play initial_game general_to_e1 in
  let cannon := Piece 11 red "Cannon" Cannon in
  let general := Piece 1 red "General" RedGeneral in
  (get_location g cannon = Some (2, 3) ∧ board_at (_board g) (1, 4) = Some general
   ∧ board_at (_board g) (0, 4) = None ∧ board_at (_board g) (0, 5) = None
   ∧ piece_legal_moves g cannon (get_opposition_positions g red)
     = Some {[ (2, 0); (2, 1) ]}
   ∧ make_move "d3" "f1" g = Return false g)
  ∧ (get_location g' cannon = Some (2, 3) ∧ board_at (_board g') (1, 4) = None
     ∧ board_at (_board g') (0, 4) = Some general ∧ board_at (_board g') (0, 5) = None
     ∧ piece_legal_moves g' cannon (get_opposition_positions g' red)
       = Some {[ (0, 5); (2, 0); (2, 1) ]}
     ∧ returned (make_move "d3" "f1" g') = Some true).
Proof. vm_compute. repeat split. Qed.

(** C5: the code falls short of the claim for the diagonal destinations,
    which the Cannon and the Soldiers take from a table without the
    friendly-piece test of their other moves.  After [cannon_to_f8] the
    blue Cannon on the corner (7, 5) has the cell (9, 3) among its moves,
    where blue's own Guard stands, and make_move("f8", "d10") is accepted:
    the Guard is taken off the blue list. *)
Theorem cannon_may_take_its_own_guard :
  let g := play initial_game cannon_to_f8 in
  let g' := state_of (make_move "f8" "d10" g) in
  let cannon := Piece 6 blue "Cannon" Cannon in
  let guard := Piece 2 blue "Guard" BlueGuard in
  get_location g cannon = Some (7, 5)
  ∧ board_at (_board g) (9, 3) = Some guard
  ∧ friendly (_board g) (get_opposition_positions g blue) (9, 3) = true
  ∧ piece_legal_moves g cannon (get_opposition_positions g blue)
    = Some {[ (7, 0); (7, 1); (7, 2); (9, 3) ]}
  ∧ returned (make_move "f8" "d10" g) = Some true
  ∧ board_at (_board g') (9, 3) = Some cannon
  ∧ pid <$> _blue_pieces g
    = [0; 2; 3; 4; 5; 6; 12; 13; 14; 15; 16; 22; 24; 26; 28; 30]%nat
  ∧ pid <$> _blue_pieces g'
    = [0; 3; 4; 5; 6; 12; 13; 14; 15; 16; 22; 24; 26; 28; 30]%nat.
Proof. vm_compute. repeat split. Qed.

(** C6, as stated, fails.  The claim speaks of the origin cell and the
    destination cell, but make_move compares the two strings.  On the
    initial layout a7 and a07 both name the cell (6, 0), which holds a
    Soldier of blue, the player to move, and blue is not in check; the
    call make_move("a7", "a07") is not taken for a pass: it returns False
    and the turn stays with blue. *)
Lemma same_cell_is_not_a_pass :
  parse_position "a7" = inr (6, 0) ∧ parse_position "a07" = inr (6, 0)
  ∧ _game_state initial_game = UNFINISHED
  ∧ board_at (_board initial_game) (6, 0) = Some (Piece 22 blue "Soldier" BlueSoldier)
  ∧ _current_turn initial_game = blue
  ∧ is_in_check blue initial_game = Return false initial_game
  ∧ make_move "a7" "a07" initial_game = Return false initial_game.
Proof. vm_compute. repeat split. Qed.

(** C6, amended.  On a well-formed game in state UNFINISHED, when the
    string s names a cell of the board that holds a piece of the player to
    move, the call make_move(s, s) returns True and hands over the turn if
    that player's General is not in check, and returns False if it is; the
    grid is the same afterwards in both cases (nothing but the turn
    changes, and that only on success).  A call whose two strings differ
    is no pass even when both name that cell: in either order it returns
    False and changes nothing, in check or not. *)
Theorem pass_iff_not_in_check (g : JanggiGame) (s : string) (origin : pos) (p : piece) :
  wf g → _game_state g = UNFINISHED →
  parse_position s = inr origin → on_board origin = true →
  board_at (_board g) origin = Some p → get_owner p = _current_turn g →
  (∃ in_check g',
     is_in_check (_current_turn g) g = Return in_check g
     ∧ make_move s s g = Return (negb in_check) g'
     ∧ g' = (if in_check then g else with_current_turn (other (_current_turn g)) g)
     ∧ _board g' = _board g)
  ∧ ∀ s', parse_position s' = inr origin → s' ≠ s →
      make_move s s' g = Return false g ∧ make_move s' s g = Return false g.
Proof.
  intros Hwf Hst Hparse Hon Hp Hturn. split.
  - destruct (make_move_passes g s origin p Hwf Hst Hparse Hon Hp Hturn) as (b & Hb & Hmm).
    exists b. eexists. split_and!; [| exact Hmm | reflexivity | by destruct b].
    unfold is_in_check. by rewrite Hb.
  - intros s' Hparse' Hne. split.
    + by apply (make_move_same_cell g s s' origin p).
    + by apply (make_move_same_cell g s' s origin p).
Qed.

Lemma pass_iff_not_in_check_witness :
  let g := play initial_game rank_two_check in
  ((∃ in_check g',
      is_in_check blue initial_game = Return in_check initial_game
      ∧ make_move "a7" "a7" initial_game = Return (negb in_check) g'
      ∧ g' = (if in_check then initial_game else with_current_turn red initial_game)
      ∧ _board g' = _board initial_game)
   ∧ ∀ s', parse_position s' = inr (6, 0) → s' ≠ "a7" →
       make_move "a7" s' initial_game = Return false initial_game
       ∧ make_move s' "a7" initial_game = Return false initial_game)
  ∧ ((∃ in_check g',
        is_in_check red g = Return in_check g
        ∧ make_move "c6" "c6" g = Return (negb in_check) g'
        ∧ g' = (if in_check then g else with_current_turn blue g)
        ∧ _board g' = _board g)
     ∧ ∀ s', parse_position s' = inr (5, 2) → s' ≠ "c6" →
         make_move "c6" s' g = Return false g ∧ make_move s' "c6" g = Return false g).
Proof.
  split.
  - apply (pass_iff_not_in_check initial_game "a7" (6, 0)
             (Piece 22 blue "Soldier" BlueSoldier));
      [apply wf_check_sound; vm_compute; reflexivity | reflexivity ..].
  - apply (pass_iff_not_in_check (play initial_game rank_two_check) "c6" (5, 2)
             (Piece 25 red "Soldier" RedSoldier));
      [apply wf_check_sound; vm_compute; reflexivity | vm_compute; reflexivity ..].
Defined.

(** C7.  In every state in which the pieces listed for the opponent of S
    have a location (as they do in every reachable state), is_in_check(S)
    returns, without touching the game, and returns True if and only if
    the location of S's General is in the union, over the pieces of S's
    opponent, of get_legal_moves(board, positions of S's pieces). *)
Theorem check_test (g : JanggiGame) (S : player) :
  Forall (λ p, is_Some (get_location g p)) (pieces_of (other S) g) →
  ∃ b, is_in_check S g = Return b g ∧ (b = true ↔ general_attacked g S).
Proof.
  intros H. destruct (is_in_check_pure_spec g S H) as (b & Hb & Hiff).
  exists b. split; [| done]. unfold is_in_check. by rewrite Hb.
Qed.

Lemma check_test_witness :
  (∃ b, is_in_check blue initial_game = Return b initial_game
        ∧ (b = true ↔ general_attacked initial_game blue))
  ∧ (∃ b, is_in_check red (play initial_game rank_two_check)
          = Return b (play initial_game rank_two_check)
          ∧ (b = true ↔ general_attacked (play initial_game rank_two_check) red)).
Proof.
  split.
  - apply (check_test initial_game blue).
    apply (bool_decide_unpack _). vm_compute. exact I.
  - apply (check_test (play initial_game rank_two_check) red).
    apply (bool_decide_unpack _). vm_compute. exact I.
Defined.

(** C8, as stated, fails on "for any arguments".  The demo game of
    [main()] ends in state BLUE_WON; called on the finished game with an
    origin whose column letter is not a-i, make_move raises KeyError, where
    the claim has it return False. *)
Lemma finished_game_still_raises :
  let g := play initial_game demo_calls in
  _game_state g = BLUE_WON ∧ make_move "j1" "a1" g = Raise KeyError g.
Proof. vm_compute. split; reflexivity. Qed.

(** C8, amended.  Once the game state is RED_WON or BLUE_WON, every
    make_move call whose two arguments translate to positions returns
    False, a call with an argument that does not translate raises the
    exception of the translation, and either way the game object,
    whatever the sequence of calls, stays as it is: grid, piece lists,
    locations, turn and state. *)
Theorem finished_game_is_frozen (g : JanggiGame) :
  _game_state g ≠ UNFINISHED →
  (∀ move_from move_to,
     make_move move_from move_to g
     = match parse_position move_to, parse_position move_from with
       | inr _, inr _ => Return false g
       | inl e, _ => Raise e g
       | inr _, inl e => Raise e g
       end)
  ∧ ∀ calls, play g calls = g.
Proof.
  intros H. split; [intros; by apply make_move_finished |].
  intros calls. unfold play. induction calls as [|[mf mt] calls IH]; [done |].
  cbn [foldl fst snd]. rewrite make_move_finished by done.
  by destruct (parse_position mt), (parse_position mf).
Qed.

Lemma finished_game_is_frozen_witness :
  let g := play initial_game demo_calls in
  make_move "e1" "e2" g = Return false g
  ∧ play g [("e1", "e2"); ("j1", "a1"); ("e2", "e2")] = g.
Proof.
  intros g.
  assert (H : _game_state g ≠ UNFINISHED) by (vm_compute; discriminate).
  destruct (finished_game_is_frozen g H) as [H1 H2]. split.
  - exact (H1 "e1" "e2").
  - exact (H2 [("e1", "e2"); ("j1", "a1"); ("e2", "e2")]).
Defined.

(** C9.  From the initial layout, with rank n on internal row n - 1 and
    columns a-i on 0-8: c1-e3 on blue's turn returns False; a7-b7 returns
    True; a4-a5 on red's turn returns True; b3-b6 returns False, both right
    after a4-a5 and where [main()] issues it, after b7-b6; and a4-a4,
    issued on red's turn with the red General not in check, returns True,
    hands the turn to blue and leaves the grid as it was. *)
Theorem readme_scenario :
  let g1 := play initial_game [("c1", "e3")] in
  let g2 := play g1 [("a7", "b7")] in
  let g3 := play g2 [("a4", "a5")] in
  let g6 := play g3 [("b7", "b6"); ("b3", "b6"); ("a1", "a4"); ("c7", "d7")] in
  parse_position "c1" = inr (0, 2) ∧ parse_position "i10" = inr (9, 8)
  ∧ board_at (_board initial_game) (0, 2)
    = Some (Piece 8 red "Horse" Horse)
  ∧ board_at (_board initial_game) (6, 0)
    = Some (Piece 22 blue "Soldier" BlueSoldier)
  ∧ board_at (_board initial_game) (3, 0)
    = Some (Piece 23 red "Soldier" RedSoldier)
  ∧ _current_turn initial_game = blue
  ∧ make_move "c1" "e3" initial_game = Return false initial_game
  ∧ returned (make_move "a7" "b7" g1) = Some true
  ∧ _current_turn g2 = red
  ∧ returned (make_move "a4" "a5" g2) = Some true
  ∧ make_move "b3" "b6" g3 = Return false g3
  ∧ outcomes initial_game readme_calls
    = [Some false; Some true; Some true; Some true; Some false; Some true;
       Some true; Some true]
  ∧ _current_turn g6 = red
  ∧ is_in_check_pure g6 red = Some false
  ∧ make_move "a4" "a4" g6 = Return true (with_current_turn blue g6).
Proof. vm_compute. repeat split. Qed.

(** C10.  The translation of the notation runs before every validity test
    and is unguarded: in any state of the game an origin with a column
    letter outside a-i raises KeyError and one with a non-numeric rank
    raises ValueError, where False is what a rejection returns. *)
Theorem translation_raises (g : JanggiGame) :
  make_move "j1" "a1" g = Raise KeyError g
  ∧ make_move "axx" "a1" g = Raise ValueError g.
Proof. split; reflexivity. Qed.

(** * Further properties of the code *)

(** ** The move sets of the piece classes, cell by cell *)

Lemma palace_step_eq in_fortress diagonal_cells fuel location board opposition p :
  (1 ≤ fuel)%nat →
  palace_get_legal_moves in_fortress diagonal_cells fuel location board opposition 1 (Some p)
  = Some (if in_fortress p && negb (friendly board opposition p) then {[ p ]} else ∅).
Proof.
  intros Hf. destruct fuel as [|fuel]; [lia |].
  destruct p as [row column]. cbn [palace_get_legal_moves]. unfold friendly.
  destruct (in_fortress (row, column)); cbn; [| done].
  destruct (is_empty board (row, column)); cbn; [done |].
  destruct (mem (row, column) opposition); done.
Qed.

Lemma pair_eq_iff (a b c d : Z) : (a, b) = (c, d) ↔ a = c ∧ b = d.
Proof. split; [by intros [= -> ->] | by intros [-> ->]]. Qed.

Lemma palace_entry_iff in_fortress diagonal_cells fuel loc board opposition :
  (3 ≤ fuel)%nat →
  ∃ S, palace_get_legal_moves in_fortress diagonal_cells fuel (Some loc) board opposition 0 None
       = Some S
       ∧ ∀ m, m ∈ S ↔
           in_fortress loc = true ∧ in_fortress m = true
           ∧ friendly board opposition m = false
           ∧ (orthogonal_step loc m ∨ (loc ∈ diagonal_cells ∧ diagonal_neighbour loc m)).
Proof.
  intros Hf. destruct fuel as [|[|fuel]]; [lia | lia |].
  destruct loc as [row column].
  cbn [palace_get_legal_moves].
  destruct (in_fortress (row, column)) eqn:Ein; cbn [negb].
  2: { exists ∅. split; [done |]. intros m. rewrite elem_of_empty. naive_solver. }
  change (0 =? 1) with false. cbn [andb]. change (0 + 1) with 1.
  rewrite !palace_step_eq by lia.
  assert (Hin : ∀ p m : pos,
    m ∈ (if in_fortress p && negb (friendly board opposition p) then {[ p ]} else ∅ : gset pos)
    ↔ m = p ∧ in_fortress m = true ∧ friendly board opposition m = false).
  { intros p m. destruct (in_fortress p) eqn:E1, (friendly board opposition p) eqn:E2; cbn [andb negb].
    all: rewrite ?elem_of_singleton, ?elem_of_empty.
    all: split; [intros H | intros (-> & ? & ?)]; try done; try congruence.
    subst. done. }
  unfold orthogonal_step, diagonal_neighbour.
  case_bool_decide as Hd; cbn [ou]; eexists; (split; [reflexivity |]); intros [mr mc];
    rewrite !elem_of_union, !Hin, ?elem_of_empty, !pair_eq_iff; cbn [fst snd].
  - split.
    + intros H. split; [done |].
      assert (in_fortress (mr, mc) = true ∧ friendly board opposition (mr, mc) = false) as [? ?]
        by naive_solver.
      split_and!; [done | done |].
      assert (Hc : (mr = row + 1 ∧ mc = column + 1) ∨ (mr = row + 1 ∧ mc = column - 1)
              ∨ (mr = row - 1 ∧ mc = column + 1) ∨ (mr = row - 1 ∧ mc = column - 1)
              ∨ (mr = row + 1 ∧ mc = column) ∨ (mr = row - 1 ∧ mc = column)
              ∨ (mr = row ∧ mc = column + 1) ∨ (mr = row ∧ mc = column - 1)) by naive_solver.
      clear H. destruct (decide (Z.abs (mr - row) + Z.abs (mc - column) = 1)); [by left | right].
      split; [done |]. lia.
    + intros (_ & ? & ? & H).
      assert (Hc : (mr = row + 1 ∧ mc = column + 1) ∨ (mr = row + 1 ∧ mc = column - 1)
              ∨ (mr = row - 1 ∧ mc = column + 1) ∨ (mr = row - 1 ∧ mc = column - 1)
              ∨ (mr = row + 1 ∧ mc = column) ∨ (mr = row - 1 ∧ mc = column)
              ∨ (mr = row ∧ mc = column + 1) ∨ (mr = row ∧ mc = column - 1)) by lia.
      clear H. naive_solver.
  - split.
    + intros H. split; [done |].
      assert (in_fortress (mr, mc) = true ∧ friendly board opposition (mr, mc) = false) as [? ?]
        by naive_solver.
      split_and!; [done | done |]. left.
      assert (Hc : (mr = row + 1 ∧ mc = column) ∨ (mr = row - 1 ∧ mc = column)
              ∨ (mr = row ∧ mc = column + 1) ∨ (mr = row ∧ mc = column - 1)) by naive_solver.
      lia.
    + intros (_ & ? & ? & [H | [? _]]); [| done].
      assert (Hc : (mr = row + 1 ∧ mc = column) ∨ (mr = row - 1 ∧ mc = column)
              ∨ (mr = row ∧ mc = column + 1) ∨ (mr = row ∧ mc = column - 1)) by lia.
      clear H. naive_solver.
Qed.
Lemma Horse_final_eq fuel location board opposition p :
  (1 ≤ fuel)%nat →
  Horse_get_legal_moves fuel location board opposition 2 (Some p)
  = Some (soldier_step board opposition p).
Proof.
  intros Hf. destruct fuel as [|fuel]; [lia |].
  destruct p as [row column]. cbn [Horse_get_legal_moves]. unfold soldier_step, friendly.
  destruct (on_board (row, column)); cbn; [| done].
  destruct (is_empty board (row, column)); cbn; [done |].
  destruct (mem (row, column) opposition); done.
Qed.

Lemma Horse_entry_iff fuel loc board opposition :
  (4 ≤ fuel)%nat →
  ∃ S, Horse_get_legal_moves fuel (Some loc) board opposition 0 None = Some S
       ∧ ∀ m, m ∈ S ↔
           on_board loc = true ∧ horse_jump loc m ∧ on_board m = true
           ∧ is_empty board (horse_leg loc m) = true
           ∧ friendly board opposition m = false.
Proof.
  intros Hf. destruct fuel as [|[|[|fuel]]]; [lia | lia | lia |].
  destruct loc as [row column].
  cbn [Horse_get_legal_moves].
  destruct (on_board (row, column)) eqn:Hon; cbn [negb].
  2: { exists ∅. split; [done |]. intros m. rewrite elem_of_empty. naive_solver. }
  change (0 =? 1) with false. change (0 =? 2) with false. cbn [andb]. change (0 + 1) with 1.
  change (1 =? 1) with true. change (1 =? 2) with false. cbn [andb]. change (1 + 1) with 2.
  rewrite !Horse_final_eq by lia.
  rewrite !Z.ltb_irrefl.
  replace (row <? row + 1) with true by lia.
  replace (row <? row - 1) with false by lia.
  replace (row - 1 <? row) with true by lia.
  replace (column <? column + 1) with true by lia.
  replace (column <? column - 1) with false by lia.
  assert (Hif : ∀ (p : pos) (X : gset pos),
    (if negb (on_board p) then Some ∅
     else if negb (is_empty board p) then Some ∅ else Some X)
    = Some (if on_board p && is_empty board p then X else ∅)).
  { intros p X. by destruct (on_board p), (is_empty board p). }
  cbn [ou]. rewrite !Hif. cbn [ou]. eexists. split; [reflexivity |].
  assert (Hin : ∀ (c : bool) (X : gset pos) (m : pos),
    m ∈ (if c then X else ∅) ↔ c = true ∧ m ∈ X).
  { intros c X m. destruct c; rewrite ?elem_of_empty; naive_solver. }
  intros [mr mc].
  rewrite !elem_of_union, !Hin, !elem_of_union, !soldier_step_spec, !andb_true_iff, !pair_eq_iff.
  unfold horse_jump. cbn [fst snd].
  assert (Hleg : ∀ p, on_board p = true ∧ is_empty board p = true →
                      horse_leg (row, column) (mr, mc) = p →
                      is_empty board (horse_leg (row, column) (mr, mc)) = true).
  { by intros p [_ ?] ->. }
  split.
  - intros H. split; [done |].
    assert (on_board (mr, mc) = true ∧ friendly board opposition (mr, mc) = false) as [? ?].
    { destruct H as [[[H | H] | H] | H]; destruct H as [_ [H | H]];
        destruct H as ([-> ->] & ? & ?); done. }
    split_and!; [| done | | done].
    + destruct H as [[[H | H] | H] | H]; destruct H as [_ [H | H]];
        destruct H as ([-> ->] & _); lia.
    + destruct H as [[[H | H] | H] | H]; destruct H as [Hp [H | H]];
        destruct H as ([-> ->] & _); apply (Hleg _ Hp);
        unfold horse_leg; cbn [fst snd];
        (destruct (Z.abs _ =? 2) eqn:E; [| apply Z.eqb_neq in E]);
        solve [f_equal; lia | lia].
  - intros (_ & Hj & Hm & Hl & Hfr).
    pose proof Hon as Hon'. pose proof Hm as Hm'.
    apply on_board_spec in Hon', Hm'. cbn [fst snd] in Hon', Hm'.
    assert (Hob : ∀ p, 0 ≤ fst p < 10 ∧ 0 ≤ snd p < 9 → on_board p = true)
      by (intros p; apply on_board_spec).
    assert (Hc : (mr = row + 1 + 1 ∧ mc = column + 1) ∨ (mr = row + 1 + 1 ∧ mc = column - 1)
              ∨ (mr = row - 1 - 1 ∧ mc = column + 1) ∨ (mr = row - 1 - 1 ∧ mc = column - 1)
              ∨ (mr = row + 1 ∧ mc = column + 1 + 1) ∨ (mr = row - 1 ∧ mc = column + 1 + 1)
              ∨ (mr = row + 1 ∧ mc = column - 1 - 1) ∨ (mr = row - 1 ∧ mc = column - 1 - 1))
      by lia.
    clear Hj.
    destruct Hc as [[-> ->] | [[-> ->] | [[-> ->] | [[-> ->] | [[-> ->] | [[-> ->] | [[-> ->] | [-> ->]]]]]]]].
    all: unfold horse_leg in Hl; cbn [fst snd] in Hl;
         (destruct (Z.abs _ =? 2) eqn:E in Hl; [| apply Z.eqb_neq in E]); try lia.
    all: match type of Hl with is_empty _ (?a, ?b) = true =>
           first [ replace a with (row + 1) in Hl by lia
                 | replace a with (row - 1) in Hl by lia
                 | replace a with row in Hl by lia ];
           first [ replace b with (column + 1) in Hl by lia
                 | replace b with (column - 1) in Hl by lia
                 | replace b with column in Hl by lia ]
         end.
    all: match type of Hl with is_empty _ ?p = true =>
           assert (on_board p = true) by (apply Hob; cbn [fst snd]; lia)
         end.
    all: naive_solver.
Qed.
Lemma Elephant_final_eq fuel location board opposition p direction :
  (1 ≤ fuel)%nat →
  Elephant_get_legal_moves fuel location board opposition 3 (Some p) direction
  = Some (soldier_step board opposition p).
Proof.
  intros Hf. destruct fuel as [|fuel]; [lia |].
  destruct p as [row column]. cbn [Elephant_get_legal_moves]. unfold soldier_step, friendly.
  destruct (on_board (row, column)); cbn; [| done].
  destruct (is_empty board (row, column)); cbn; [done |].
  destruct (mem (row, column) opposition); done.
Qed.

Lemma Elephant_last_eq fuel location board opposition p d :
  (2 ≤ fuel)%nat →
  Elephant_get_legal_moves fuel location board opposition 2 (Some p) (Some d)
  = Some (if on_board p && is_empty board p
          then soldier_step board opposition
                 (fst p + fst (diagonal_step (Some d)), snd p + snd (diagonal_step (Some d)))
          else ∅).
Proof.
  intros Hf. destruct fuel as [|fuel]; [lia |].
  destruct p as [row column]. cbn [Elephant_get_legal_moves].
  destruct (on_board (row, column)); cbn [negb andb]; [| done].
  destruct (is_empty board (row, column)); cbn [negb andb orb]; [| by rewrite orb_true_r].
  change (2 =? 1) with false. change (2 =? 3) with false. change (2 =? 2) with true.
  cbn [orb andb]. change (2 + 1) with 3.
  rewrite !Elephant_final_eq by lia.
  destruct d; cbn; repeat case_bool_decide; try done; repeat f_equal; lia.
Qed.

Ltac pick_branch :=
  match goal with
  | |- _ ∨ _ => first [left; pick_branch | right; pick_branch]
  | |- _ ∧ _ => split; pick_branch
  | |- _ => first [assumption | reflexivity]
  end.

Lemma Elephant_entry_iff fuel loc board opposition :
  (5 ≤ fuel)%nat →
  ∃ S, Elephant_get_legal_moves fuel (Some loc) board opposition 0 None None = Some S
       ∧ ∀ m, m ∈ S ↔
           on_board loc = true ∧ elephant_jump loc m ∧ on_board m = true
           ∧ is_empty board (elephant_legs loc m).1 = true
           ∧ is_empty board (elephant_legs loc m).2 = true
           ∧ friendly board opposition m = false.
Proof.
  intros Hf. destruct fuel as [|[|[|fuel]]]; [lia | lia | lia |].
  destruct loc as [row column].
  cbn [Elephant_get_legal_moves].
  destruct (on_board (row, column)) eqn:Hon; cbn [negb].
  2: { exists ∅. split; [done |]. intros m. rewrite elem_of_empty. naive_solver. }
  change (0 =? 1) with false. change (0 =? 2) with false. change (0 =? 3) with false.
  cbn [andb orb]. change (0 + 1) with 1.
  change (1 =? 1) with true. change (1 =? 2) with false. change (1 =? 3) with false.
  cbn [andb orb]. change (1 + 1) with 2.
  rewrite !Elephant_last_eq by lia.
  rewrite !Z.ltb_irrefl.
  replace (row <? row + 1) with true by lia.
  replace (row <? row - 1) with false by lia.
  replace (row - 1 <? row) with true by lia.
  replace (column <? column + 1) with true by lia.
  replace (column <? column - 1) with false by lia.
  cbn [ou diagonal_step fst snd].
  assert (Hif : ∀ (p : pos) (X : gset pos),
    (if negb (on_board p) then Some ∅
     else if negb (is_empty board p) then Some ∅ else Some X)
    = Some (if on_board p && is_empty board p then X else ∅)).
  { intros p X. by destruct (on_board p), (is_empty board p). }
  rewrite !Hif. cbn [ou]. eexists. split; [reflexivity |].
  assert (Hin : ∀ (c : bool) (X : gset pos) (m : pos),
    m ∈ (if c then X else ∅) ↔ c = true ∧ m ∈ X).
  { intros c X m. destruct c; rewrite ?elem_of_empty; naive_solver. }
  intros [mr mc].
  rewrite !elem_of_union, !Hin, !elem_of_union, !Hin, !soldier_step_spec,
    !andb_true_iff, !pair_eq_iff.
  unfold elephant_jump. cbn [fst snd].
  assert (Hlegs : ∀ p1 p2,
    on_board p1 = true ∧ is_empty board p1 = true →
    on_board p2 = true ∧ is_empty board p2 = true →
    elephant_legs (row, column) (mr, mc) = (p1, p2) →
    is_empty board (elephant_legs (row, column) (mr, mc)).1 = true
    ∧ is_empty board (elephant_legs (row, column) (mr, mc)).2 = true).
  { by intros p1 p2 [_ ?] [_ ?] ->. }
  split.
  - intros H. split; [done |].
    assert (on_board (mr, mc) = true ∧ friendly board opposition (mr, mc) = false) as [? ?].
    { destruct H as [[[H | H] | H] | H]; destruct H as [_ [H | H]];
        destruct H as (_ & [-> ->] & ? & ?); done. }
    assert (is_empty board (elephant_legs (row, column) (mr, mc)).1 = true
            ∧ is_empty board (elephant_legs (row, column) (mr, mc)).2 = true) as [? ?].
    { destruct H as [[[H | H] | H] | H]; destruct H as [Hp1 [H | H]];
        destruct H as (Hp2 & [-> ->] & _); apply (Hlegs _ _ Hp1 Hp2);
        unfold elephant_legs; cbv zeta; cbn [fst snd];
        (destruct (Z.abs _ =? 3) eqn:E; [| apply Z.eqb_neq in E]);
        rewrite ?pair_equal_spec; lia. }
    split_and!; [| done ..].
    destruct H as [[[H | H] | H] | H]; destruct H as [_ [H | H]];
      destruct H as (_ & [-> ->] & _); lia.
  - intros (_ & Hj & Hm & Hl1 & Hl2 & Hfr).
    pose proof Hon as Hon'. pose proof Hm as Hm'.
    apply on_board_spec in Hon', Hm'. cbn [fst snd] in Hon', Hm'.
    assert (Hob : ∀ p, 0 ≤ fst p < 10 ∧ 0 ≤ snd p < 9 → on_board p = true)
      by (intros p; apply on_board_spec).
    assert (Hc : (mr = row + 1 + 1 + 1 ∧ mc = column + 1 + 1)
              ∨ (mr = row + 1 + 1 + 1 ∧ mc = column - 1 + -1)
              ∨ (mr = row - 1 - 1 + -1 ∧ mc = column + 1 + 1)
              ∨ (mr = row - 1 - 1 + -1 ∧ mc = column - 1 + -1)
              ∨ (mr = row + 1 + 1 ∧ mc = column + 1 + 1 + 1)
              ∨ (mr = row - 1 + -1 ∧ mc = column + 1 + 1 + 1)
              ∨ (mr = row + 1 + 1 ∧ mc = column - 1 - 1 + -1)
              ∨ (mr = row - 1 + -1 ∧ mc = column - 1 - 1 + -1))
      by lia.
    clear Hj.
    destruct Hc as [[-> ->] | [[-> ->] | [[-> ->] | [[-> ->] | [[-> ->] | [[-> ->] | [[-> ->] | [-> ->]]]]]]]].
    all: unfold elephant_legs in Hl1, Hl2; cbv zeta in Hl1, Hl2; cbn [fst snd] in Hl1, Hl2;
         (destruct (Z.abs _ =? 3) eqn:E in Hl1, Hl2; [| apply Z.eqb_neq in E]); try lia;
         cbn [fst snd] in Hl1, Hl2.
    all: match type of Hl1 with is_empty _ (?a, ?b) = true =>
           first [ replace a with (row + 1) in Hl1 by lia
                 | replace a with (row - 1) in Hl1 by lia
                 | replace a with row in Hl1 by lia ];
           first [ replace b with (column + 1) in Hl1 by lia
                 | replace b with (column - 1) in Hl1 by lia
                 | replace b with column in Hl1 by lia ]
         end.
    all: match type of Hl2 with is_empty _ (?a, ?b) = true =>
           first [ replace a with (row + 1 + 1) in Hl2 by lia
                 | replace a with (row - 1 - 1) in Hl2 by lia
                 | replace a with (row + 1) in Hl2 by lia
                 | replace a with (row - 1) in Hl2 by lia ];
           first [ replace b with (column + 1 + 1) in Hl2 by lia
                 | replace b with (column - 1 - 1) in Hl2 by lia
                 | replace b with (column + 1) in Hl2 by lia
                 | replace b with (column - 1) in Hl2 by lia ]
         end.
    all: match type of Hl1 with is_empty _ ?p = true =>
           assert (on_board p = true) by (apply Hob; cbn [fst snd]; lia)
         end.
    all: match type of Hl2 with is_empty _ ?p = true =>
           assert (on_board p = true) by (apply Hob; cbn [fst snd]; lia)
         end.
    all: pick_branch.
Qed.
Lemma ray_advance loc d k : advance d (ray loc d k) = ray loc d (k + 1).
Proof. unfold advance, ray. cbn [fst snd]. f_equal; lia. Qed.

Lemma ray_ne loc d k : 1 ≤ k → ray loc d k ≠ loc.
Proof.
  intros Hk E. destruct loc as [r c]. unfold ray in E. injection E.
  destruct d; cbn; lia.
Qed.

Lemma Chariot_slide_iff fuel loc board opposition d k0 :
  1 ≤ k0 →
  (Z.to_nat (room d (ray loc d k0)) < fuel)%nat →
  ∃ S, Chariot_get_legal_moves fuel (Some loc) board opposition
         (Some (ray loc d k0)) (Some d) = Some S
       ∧ ∀ m, m ∈ S ↔
           ∃ k, k0 ≤ k ∧ m = ray loc d k
                ∧ (∀ j, k0 ≤ j < k → chariot_passes board opposition d (ray loc d j))
                ∧ chariot_stops board opposition d m.
Proof.
  revert k0. induction fuel as [|fuel IH]; intros k0 Hk Hf; [lia |].
  assert (Hne := ray_ne loc d k0 Hk).
  pose proof (ray_advance loc d k0) as Hadv.
  destruct (ray loc d k0) as [row column] eqn:Hp.
  cbn [Chariot_get_legal_moves].
  (* the conditions under which the current cell can be part of a slide *)
  assert (Hstop : ∀ m, (∃ k, k0 ≤ k ∧ m = ray loc d k
                ∧ (∀ j, k0 ≤ j < k → chariot_passes board opposition d (ray loc d j))
                ∧ chariot_stops board opposition d m) →
              chariot_cell d (row, column)
              ∧ (m = (row, column) ∧ friendly board opposition (row, column) = false
                 ∨ is_empty board (row, column) = true ∧ (row, column) ∉ opposition)).
  { intros m (k & Hk0 & -> & Hpass & Hst).
    destruct (decide (k = k0)) as [-> | Hkne].
    - rewrite Hp in *. destruct Hst. split; [done |]. by left.
    - specialize (Hpass k0 ltac:(lia)). rewrite Hp in Hpass.
      destruct Hpass as (? & ? & ?). split; [done |]. by right. }
  destruct (on_board (row, column)) eqn:E1; cbn [negb].
  2: { exists ∅. split; [done |]. intros m. rewrite elem_of_empty. split; [done |].
       intros H. apply Hstop in H as [[H _] _]. congruence. }
  destruct (is_diagonal (Some d) && negb (in_red_fortress (row, column))
            && negb (in_blue_fortress (row, column))) eqn:E2.
  { exists ∅. split; [done |]. intros m. rewrite elem_of_empty. split; [done |].
    intros H. apply Hstop in H as [[_ H] _].
    destruct (is_diagonal (Some d)); [| done]. specialize (H eq_refl).
    destruct (in_red_fortress (row, column)), (in_blue_fortress (row, column)); done. }
  assert (Hcell : chariot_cell d (row, column)).
  { split; [done |]. intros Hd. rewrite Hd in E2.
    destruct (in_red_fortress (row, column)), (in_blue_fortress (row, column)); done. }
  rewrite bool_decide_true by congruence. cbn [andb].
  destruct (room_advance d _ E1) as [Hr1 Hr2]. rewrite Hadv in Hr2.
  destruct (is_empty board (row, column)) eqn:E3; cbn [negb andb].
  - destruct (mem (row, column) opposition) eqn:E4.
    + (* an empty cell listed as the opposition's: the slide stops on it *)
      exists {[ (row, column) ]}. split; [done |]. intros m. rewrite elem_of_singleton.
      apply bool_decide_eq_true in E4. split.
      * intros ->. exists k0. split_and!; [lia | done | intros; lia |].
        split; [done |]. unfold friendly. by rewrite E3.
      * intros H. apply Hstop in H as [_ [[? _] | [_ ?]]]; done.
    + (* an empty cell: the slide takes it and goes on *)
      destruct (IH (k0 + 1) ltac:(lia) ltac:(lia)) as (S & HS & HSm).
      apply bool_decide_eq_false in E4.
      assert (Hself : Chariot_get_legal_moves fuel (Some loc) board opposition
                        (Some (advance d (row, column))) (Some d) = Some S)
        by (by rewrite Hadv).
      exists ({[ (row, column) ]} ∪ S). split.
      { unfold advance in Hself. cbn [fst snd] in Hself.
        destruct d; cbn [step_of fst snd] in Hself;
          repeat match type of Hself with
          | context [?x + 0] => replace (x + 0) with x in Hself by lia
          | context [?x + -1] => replace (x + -1) with (x - 1) in Hself by lia
          end; by rewrite Hself. }
      intros m. rewrite elem_of_union, elem_of_singleton, HSm. split.
      * intros [-> | (k & Hk0 & -> & Hpass & Hst)].
        -- exists k0. split_and!; [lia | done | intros; lia |].
           split; [done |]. unfold friendly. by rewrite E3.
        -- exists k. split_and!; [lia | done | | done].
           intros j Hj. destruct (decide (j = k0)) as [-> | Hjne]; [| apply Hpass; lia].
           rewrite Hp. done.
      * intros (k & Hk0 & -> & Hpass & Hst).
        destruct (decide (k = k0)) as [-> | Hkne]; [left; done | right].
        exists k. split_and!; [lia | done | | done]. intros j Hj. apply Hpass. lia.
  - destruct (mem (row, column) opposition) eqn:E4.
    + (* an opposing piece: the slide captures it and stops *)
      exists {[ (row, column) ]}. split; [done |]. intros m. rewrite elem_of_singleton.
      split.
      * intros ->. exists k0. split_and!; [lia | done | intros; lia |].
        split; [done |]. unfold friendly. by rewrite E4, andb_false_r.
      * intros H. apply Hstop in H as [_ [[? _] | [? _]]]; done.
    + (* a friendly piece: the slide stops short *)
      exists ∅. split; [done |]. intros m. rewrite elem_of_empty. split; [done |].
      intros H. apply Hstop in H as [_ [[_ H] | [? _]]]; [| done].
      unfold friendly in H. by rewrite E3, E4 in H.
Qed.

Lemma Chariot_entry_iff fuel loc board opposition :
  (12 ≤ fuel)%nat →
  ∃ S, Chariot_get_legal_moves fuel (Some loc) board opposition None None = Some S
       ∧ ∀ m, m ∈ S ↔
           on_board loc = true
           ∧ ∃ d k, 1 ≤ k ∧ m = ray loc d k
                    ∧ (is_diagonal (Some d) = true → loc ∈ fortress_diagonal_cells)
                    ∧ (∀ j, 1 ≤ j < k → chariot_passes board opposition d (ray loc d j))
                    ∧ chariot_stops board opposition d m.
Proof.
  intros Hf. destruct fuel as [|[|fuel]]; [lia | lia |].
  destruct loc as [row column].
  cbn [Chariot_get_legal_moves].
  destruct (on_board (row, column)) eqn:E1; cbn [negb].
  2: { exists ∅. split; [done |]. intros m. rewrite elem_of_empty. naive_solver. }
  cbn [is_diagonal bool_decide orb andb].
  rewrite (bool_decide_false (Some (row, column) ≠ Some (row, column))) by (intros H; by apply H).
  cbn [andb].
  assert (Hs : ∀ d p, p = ray (row, column) d 1 →
     ∃ S, Chariot_get_legal_moves fuel (Some (row, column)) board opposition (Some p) (Some d)
          = Some S
          ∧ ∀ m, m ∈ S ↔
              ∃ k, 1 ≤ k ∧ m = ray (row, column) d k
                   ∧ (∀ j, 1 ≤ j < k →
                        chariot_passes board opposition d (ray (row, column) d j))
                   ∧ chariot_stops board opposition d m).
  { intros d p ->. apply Chariot_slide_iff; [lia |].
    pose proof (room_bound d _ E1) as Hb.
    replace (ray (row, column) d 1) with (advance d (row, column))
      by (unfold advance, ray; f_equal; lia).
    lia. }
  destruct (Hs d_plus_plus (row + 1, column + 1)) as (Spp & -> & Hpp);
    [unfold ray; cbn; f_equal; lia |].
  destruct (Hs d_plus_minus (row + 1, column - 1)) as (Spm & -> & Hpm);
    [unfold ray; cbn; f_equal; lia |].
  destruct (Hs d_minus_plus (row - 1, column + 1)) as (Smp & -> & Hmp);
    [unfold ray; cbn; f_equal; lia |].
  destruct (Hs d_minus_minus (row - 1, column - 1)) as (Smm & -> & Hmm);
    [unfold ray; cbn; f_equal; lia |].
  destruct (Hs d_plus_eq (row + 1, column)) as (Spe & -> & Hpe);
    [unfold ray; cbn; f_equal; lia |].
  destruct (Hs d_minus_eq (row - 1, column)) as (Sme & -> & Hme);
    [unfold ray; cbn; f_equal; lia |].
  destruct (Hs d_eq_plus (row, column + 1)) as (Sep & -> & Hep);
    [unfold ray; cbn; f_equal; lia |].
  destruct (Hs d_eq_minus (row, column - 1)) as (Sem & -> & Hem);
    [unfold ray; cbn; f_equal; lia |].
  clear Hs.
  case_bool_decide as Hd; cbn [ou]; eexists; (split; [reflexivity |]); intros m;
    rewrite !elem_of_union, ?elem_of_empty, ?Hpp, ?Hpm, ?Hmp, ?Hmm, Hpe, Hme, Hep, Hem.
  - split.
    + intros H. split; [done |].
      repeat (destruct H as [H | H]); try done;
        destruct H as (k & ? & ? & ? & ?); eexists _, k; split_and!; done.
    + intros (_ & d & k & H1 & H2 & H3 & H4 & H5).
      assert (∃ k, 1 ≤ k ∧ m = ray (row, column) d k
                   ∧ (∀ j, 1 ≤ j < k →
                        chariot_passes board opposition d (ray (row, column) d j))
                   ∧ chariot_stops board opposition d m) by eauto.
      destruct d; pick_branch.
  - split.
    + intros H. split; [done |].
      repeat (destruct H as [H | H]); try done;
        destruct H as (k & ? & ? & ? & ?); eexists _, k; split_and!; done.
    + intros (_ & d & k & H1 & H2 & H3 & H4 & H5).
      assert (∃ k, 1 ≤ k ∧ m = ray (row, column) d k
                   ∧ (∀ j, 1 ≤ j < k →
                        chariot_passes board opposition d (ray (row, column) d j))
                   ∧ chariot_stops board opposition d m) by eauto.
      destruct d; try pick_branch; by destruct Hd; apply H3.
Qed.
Lemma Cannon_onward fuel loc board opposition positions count d row column S :
  orthogonal d →
  Cannon_get_legal_moves fuel (Some loc) board opposition positions count
    (Some (advance d (row, column))) (Some d) = Some S →
  match Some d with
  | Some d_plus_eq => Cannon_get_legal_moves fuel (Some loc) board opposition positions count (Some (row + 1, column)) (Some d_plus_eq)
  | Some d_minus_eq => Cannon_get_legal_moves fuel (Some loc) board opposition positions count (Some (row - 1, column)) (Some d_minus_eq)
  | Some d_eq_plus => Cannon_get_legal_moves fuel (Some loc) board opposition positions count (Some (row, column + 1)) (Some d_eq_plus)
  | _ => Cannon_get_legal_moves fuel (Some loc) board opposition positions count (Some (row, column - 1)) (Some d_eq_minus)
  end = Some S.
Proof.
  intros Hd H. unfold advance in H. cbn [fst snd] in H.
  destruct Hd as [-> | [-> | [-> | ->]]]; cbn [step_of fst snd] in H;
    repeat match type of H with
    | context [?x + 0] => replace (x + 0) with x in H by lia
    | context [?x + -1] => replace (x + -1) with (x - 1) in H by lia
    end; done.
Qed.

Lemma Cannon_count_two fuel loc board opposition positions p d :
  (1 ≤ fuel)%nat →
  Cannon_get_legal_moves fuel (Some loc) board opposition positions 2 (Some p) (Some d)
  = Some ∅.
Proof.
  intros Hf. destruct fuel as [|fuel]; [lia |]. destruct p as [row column].
  cbn [Cannon_get_legal_moves].
  destruct (negb (on_board (row, column))); [done |].
  destruct (_ && _ && _); done.
Qed.

Lemma Cannon_after_screen fuel loc board opposition positions d k0 :
  orthogonal d → 1 ≤ k0 →
  (Z.to_nat (room d (ray loc d k0)) < fuel)%nat →
  ∃ S, Cannon_get_legal_moves fuel (Some loc) board opposition positions 1
         (Some (ray loc d k0)) (Some d) = Some S
       ∧ ∀ m, m ∈ S ↔
           ∃ k, k0 ≤ k ∧ m = ray loc d k
                ∧ (∀ j, k0 ≤ j < k → cannon_passes board opposition (ray loc d j))
                ∧ cannon_lands board opposition positions m.
Proof.
  intros Hd. revert k0. induction fuel as [|fuel IH]; intros k0 Hk Hf; [lia |].
  assert (Hne := ray_ne loc d k0 Hk).
  pose proof (ray_advance loc d k0) as Hadv.
  destruct (ray loc d k0) as [row column] eqn:Hp.
  cbn [Cannon_get_legal_moves].
  assert (Hstop : ∀ m, (∃ k, k0 ≤ k ∧ m = ray loc d k
                ∧ (∀ j, k0 ≤ j < k → cannon_passes board opposition (ray loc d j))
                ∧ cannon_lands board opposition positions m) →
              on_board (row, column) = true
              ∧ (m = (row, column) ∧ (is_empty board (row, column) = true
                                      ∨ (row, column) ∈ positions ∧ (row, column) ∈ opposition)
                 ∨ is_empty board (row, column) = true ∧ (row, column) ∉ opposition)).
  { intros m (k & Hk0 & -> & Hpass & Hst).
    destruct (decide (k = k0)) as [-> | Hkne].
    - rewrite Hp in *. destruct Hst. split; [done |]. by left.
    - specialize (Hpass k0 ltac:(lia)). rewrite Hp in Hpass.
      destruct Hpass as (? & ? & ?). split; [done |]. by right. }
  destruct (on_board (row, column)) eqn:E1; cbn [negb].
  2: { exists ∅. split; [done |]. intros m. rewrite elem_of_empty. split; [done |].
       intros H. apply Hstop in H as [H _]. congruence. }
  rewrite bool_decide_true by congruence. cbn [andb].
  destruct (room_advance d _ E1) as [Hr1 Hr2]. rewrite Hadv in Hr2.
  change (1 <? 1) with false. change (1 =? 1) with true. cbn [andb]. change (1 + 1) with 2.
  destruct (is_empty board (row, column)) eqn:E3; cbn [negb andb].
  - destruct (mem (row, column) opposition) eqn:E4.
    + exists {[ (row, column) ]}. split; [done |]. intros m. rewrite elem_of_singleton.
      apply bool_decide_eq_true in E4. split.
      * intros ->. exists k0. split_and!; [lia | done | intros; lia |].
        split; [done |]. by left.
      * intros H. apply Hstop in H as [_ [[? _] | [_ ?]]]; done.
    + destruct (IH (k0 + 1) ltac:(lia) ltac:(lia)) as (S & HS & HSm).
      apply bool_decide_eq_false in E4.
      rewrite <- Hadv in HS. apply Cannon_onward in HS; [| done].
      exists ({[ (row, column) ]} ∪ S). split.
      { destruct Hd as [-> | [-> | [-> | ->]]]; by rewrite HS. }
      intros m. rewrite elem_of_union, elem_of_singleton, HSm. split.
      * intros [-> | (k & Hk0 & -> & Hpass & Hst)].
        -- exists k0. split_and!; [lia | done | intros; lia |].
           split; [done |]. by left.
        -- exists k. split_and!; [lia | done | | done].
           intros j Hj. destruct (decide (j = k0)) as [-> | Hjne]; [| apply Hpass; lia].
           rewrite Hp. done.
      * intros (k & Hk0 & -> & Hpass & Hst).
        destruct (decide (k = k0)) as [-> | Hkne]; [left; done | right].
        exists k. split_and!; [lia | done | | done]. intros j Hj. apply Hpass. lia.
  - case_bool_decide as E5; cbn [negb].
    + destruct (mem (row, column) opposition) eqn:E4.
      * apply bool_decide_eq_true in E4.
        exists {[ (row, column) ]}. split; [done |]. intros m. rewrite elem_of_singleton.
        split.
        -- intros ->. exists k0. split_and!; [lia | done | intros; lia |].
           split; [done |]. by right.
        -- intros H. apply Hstop in H as [_ [[? _] | [? _]]]; done.
      * (* a second piece that is not the opposition's: nothing beyond it *)
        apply bool_decide_eq_false in E4.
        exists ∅. split.
        { assert (Hz : ∀ p, Cannon_get_legal_moves fuel (Some loc) board opposition
                              positions 2 (Some p) (Some d) = Some ∅)
            by (intros p; apply Cannon_count_two; lia).
          destruct Hd as [-> | [-> | [-> | ->]]]; apply Hz. }
        intros m. rewrite elem_of_empty. split; [done |].
        intros H. apply Hstop in H as [_ [[_ [? | [_ ?]]] | [? _]]]; done.
    + exists ∅. split; [done |]. intros m. rewrite elem_of_empty. split; [done |].
      intros H. apply Hstop in H as [_ [[_ [? | [? _]]] | [? _]]]; done.
Qed.

Lemma Cannon_before_screen fuel loc board opposition positions d k0 :
  orthogonal d → 1 ≤ k0 →
  (Z.to_nat (room d (ray loc d k0)) < fuel)%nat →
  ∃ S, Cannon_get_legal_moves fuel (Some loc) board opposition positions 0
         (Some (ray loc d k0)) (Some d) = Some S
       ∧ ∀ m, m ∈ S ↔
           ∃ s k, k0 ≤ s ∧ s < k
                  ∧ (∀ j, k0 ≤ j < s →
                       on_board (ray loc d j) = true ∧ is_empty board (ray loc d j) = true)
                  ∧ cannon_screen board positions (ray loc d s)
                  ∧ (∀ j, s < j < k → cannon_passes board opposition (ray loc d j))
                  ∧ m = ray loc d k
                  ∧ cannon_lands board opposition positions m.
Proof.
  intros Hd. revert k0. induction fuel as [|fuel IH]; intros k0 Hk Hf; [lia |].
  assert (Hne := ray_ne loc d k0 Hk).
  pose proof (ray_advance loc d k0) as Hadv.
  destruct (ray loc d k0) as [row column] eqn:Hp.
  cbn [Cannon_get_legal_moves].
  assert (Hstop : ∀ m, (∃ s k, k0 ≤ s ∧ s < k
                  ∧ (∀ j, k0 ≤ j < s →
                       on_board (ray loc d j) = true ∧ is_empty board (ray loc d j) = true)
                  ∧ cannon_screen board positions (ray loc d s)
                  ∧ (∀ j, s < j < k → cannon_passes board opposition (ray loc d j))
                  ∧ m = ray loc d k
                  ∧ cannon_lands board opposition positions m) →
              on_board (row, column) = true
              ∧ (is_empty board (row, column) = true
                 ∨ is_empty board (row, column) = false ∧ (row, column) ∈ positions)).
  { intros m (s & k & Hs0 & Hsk & Hfree & Hscr & _).
    destruct (decide (s = k0)) as [-> | Hsne].
    - rewrite Hp in Hscr. destruct Hscr as (? & ? & ?). split; [done |]. by right.
    - specialize (Hfree k0 ltac:(lia)). rewrite Hp in Hfree.
      destruct Hfree as [? ?]. split; [done |]. by left. }
  destruct (on_board (row, column)) eqn:E1; cbn [negb].
  2: { exists ∅. split; [done |]. intros m. rewrite elem_of_empty. split; [done |].
       intros H. apply Hstop in H as [H _]. congruence. }
  rewrite bool_decide_true by congruence. cbn [andb].
  destruct (room_advance d _ E1) as [Hr1 Hr2]. rewrite Hadv in Hr2.
  change (1 <? 0) with false. change (0 =? 1) with false. cbn [andb]. change (0 + 1) with 1.
  destruct (is_empty board (row, column)) eqn:E3; cbn [negb andb].
  - (* an empty cell before the screen *)
    destruct (IH (k0 + 1) ltac:(lia) ltac:(lia)) as (S & HS & HSm).
    rewrite <- Hadv in HS. apply Cannon_onward in HS; [| done].
    exists S. split.
    { destruct Hd as [-> | [-> | [-> | ->]]]; by rewrite HS. }
    intros m. rewrite HSm. split.
    + intros (s & k & Hs0 & Hsk & Hfree & Hscr & Hpass & -> & Hl).
      exists s, k. split_and!; try done; [lia |].
      intros j Hj. destruct (decide (j = k0)) as [-> | Hjne]; [| apply Hfree; lia].
      by rewrite Hp.
    + intros (s & k & Hs0 & Hsk & Hfree & Hscr & Hpass & -> & Hl).
      destruct (decide (s = k0)) as [-> | Hsne].
      { rewrite Hp in Hscr. destruct Hscr as (_ & ? & _). congruence. }
      exists s, k. split_and!; try done; [lia |].
      intros j Hj. apply Hfree. lia.
  - case_bool_decide as E5; cbn [negb].
    + (* the screen *)
      destruct (Cannon_after_screen fuel loc board opposition positions d (k0 + 1) Hd
                  ltac:(lia) ltac:(lia)) as (S & HS & HSm).
      rewrite <- Hadv in HS. apply Cannon_onward in HS; [| done].
      exists S. split.
      { destruct Hd as [-> | [-> | [-> | ->]]]; by rewrite HS. }
      intros m. rewrite HSm. split.
      * intros (k & Hk0 & -> & Hpass & Hl).
        exists k0, k.
        split_and!; [lia | lia | intros; lia | by rewrite Hp | | done | done].
        intros j Hj. apply Hpass. lia.
      * intros (s & k & Hs0 & Hsk & Hfree & Hscr & Hpass & -> & Hl).
        destruct (decide (s = k0)) as [-> | Hsne].
        -- exists k. split_and!; try done; [lia |]. intros j Hj. apply Hpass. lia.
        -- specialize (Hfree k0 ltac:(lia)). rewrite Hp in Hfree.
           destruct Hfree as [_ ?]. congruence.
    + (* another Cannon *)
      exists ∅. split; [done |]. intros m. rewrite elem_of_empty. split; [done |].
      intros H. apply Hstop in H as [_ [? | [_ ?]]]; done.
Qed.

Lemma Cannon_entry_iff fuel loc board opposition positions0 q :
  (12 ≤ fuel)%nat → on_board loc = true →
  board_at board loc = Some q → get_type q = "Cannon" →
  ∃ S, Cannon_get_legal_moves fuel (Some loc) board opposition positions0 0 None None = Some S
       ∧ ∀ m, m ∈ S ↔
           m ∈ cannon_diagonals loc (non_cannon_positions board)
           ∨ ∃ d s k, orthogonal d ∧ 1 ≤ s ∧ s < k
                ∧ (∀ j, 1 ≤ j < s →
                     on_board (ray loc d j) = true ∧ is_empty board (ray loc d j) = true)
                ∧ cannon_screen board (non_cannon_positions board) (ray loc d s)
                ∧ (∀ j, s < j < k → cannon_passes board opposition (ray loc d j))
                ∧ m = ray loc d k
                ∧ cannon_lands board opposition (non_cannon_positions board) m.
Proof.
  intros Hf Hon Hq Hty. destruct fuel as [|[|fuel]]; [lia | lia |].
  destruct loc as [row column].
  cbn [Cannon_get_legal_moves]. rewrite Hon. cbn [negb].
  rewrite (bool_decide_false (Some (row, column) ≠ Some (row, column))) by (intros H; by apply H).
  cbn [andb]. change (1 <? 0) with false. change (0 =? 1) with false. cbn [andb].
  unfold is_empty at 1 2. rewrite Hq.
  rewrite bool_decide_false.
  2: { rewrite elem_of_non_cannon_positions. intros (_ & q' & Hq' & Hne). congruence. }
  set (positions := non_cannon_positions board).
  assert (Hs : ∀ d p, orthogonal d → p = ray (row, column) d 1 →
     ∃ S, Cannon_get_legal_moves fuel (Some (row, column)) board opposition positions 0
            (Some p) (Some d) = Some S
          ∧ ∀ m, m ∈ S ↔
              ∃ s k, 1 ≤ s ∧ s < k
                  ∧ (∀ j, 1 ≤ j < s →
                       on_board (ray (row, column) d j) = true
                       ∧ is_empty board (ray (row, column) d j) = true)
                  ∧ cannon_screen board positions (ray (row, column) d s)
                  ∧ (∀ j, s < j < k → cannon_passes board opposition (ray (row, column) d j))
                  ∧ m = ray (row, column) d k
                  ∧ cannon_lands board opposition positions m).
  { intros d p Hd ->. apply Cannon_before_screen; [done | lia |].
    pose proof (room_bound d _ Hon) as Hb.
    replace (ray (row, column) d 1) with (advance d (row, column))
      by (unfold advance, ray; f_equal; lia).
    lia. }
  unfold orthogonal in Hs.
  destruct (Hs d_plus_eq (row + 1, column)) as (Spe & -> & Hpe);
    [auto | unfold ray; cbn; f_equal; lia |].
  destruct (Hs d_minus_eq (row - 1, column)) as (Sme & -> & Hme);
    [auto | unfold ray; cbn; f_equal; lia |].
  destruct (Hs d_eq_plus (row, column + 1)) as (Sep & -> & Hep);
    [auto | unfold ray; cbn; f_equal; lia |].
  destruct (Hs d_eq_minus (row, column - 1)) as (Sem & -> & Hem);
    [auto 6 | unfold ray; cbn; f_equal; lia |].
  clear Hs. cbn [ou]. eexists. split; [reflexivity |]. intros m.
  unfold cannon_diagonals.
  rewrite !elem_of_union, elem_of_empty, Hpe, Hme, Hep, Hem. split.
  - intros [[[[] | H] | H] | H]; [left; by left | left; by right | right].
    unfold orthogonal.
    repeat (destruct H as [H | H]);
      destruct H as (s & k & ? & ? & ? & ? & ? & ? & ?); eexists _, s, k;
      (split_and!; [ | done ..]); auto 6.
  - intros [[H | H] | (d & s & k & Hd & H1 & H2 & H3 & H4 & H5 & H6 & H7)];
      [left; left; by right | left; by right | right].
    assert (∃ s k, 1 ≤ s ∧ s < k
                  ∧ (∀ j, 1 ≤ j < s →
                       on_board (ray (row, column) d j) = true
                       ∧ is_empty board (ray (row, column) d j) = true)
                  ∧ cannon_screen board positions (ray (row, column) d s)
                  ∧ (∀ j, s < j < k → cannon_passes board opposition (ray (row, column) d j))
                  ∧ m = ray (row, column) d k
                  ∧ cannon_lands board opposition positions m) by eauto 10.
    destruct Hd as [-> | [-> | [-> | ->]]]; pick_branch.
Qed.
Lemma palace_None in_fortress diagonal_cells fuel board opposition count :
  palace_get_legal_moves in_fortress diagonal_cells fuel None board opposition count None = None.
Proof. induction fuel as [|fuel IH]; [done | exact IH]. Qed.

(** ** print_board *)

Lemma string_length_app (s1 s2 : string) :
  String.length (s1 +:+ s2) = (String.length s1 + String.length s2)%nat.
Proof.
  induction s1 as [|c s1 IH]; simpl; [done | f_equal; exact IH].
Qed.

Lemma str_repeat_length (n : Z) : String.length (str_repeat " " n) = Z.to_nat n.
Proof.
  unfold str_repeat. induction (Z.to_nat n) as [|k IH]; simpl; [done | f_equal; exact IH].
Qed.

Lemma cell_text_length c :
  (∀ p, c = Some p → (String.length (get_name p) ≤ 13)%nat) →
  String.length (cell_text c) = 15%nat.
Proof.
  intros H. destruct c as [p|]; [| done]. specialize (H p eq_refl).
  unfold cell_text. rewrite !string_length_app, str_repeat_length. cbn. lia.
Qed.

Lemma row_label_length row : 0 ≤ row < 10 → String.length (row_label row) = 3%nat.
Proof.
  intros H.
  assert (row = 0 ∨ row = 1 ∨ row = 2 ∨ row = 3 ∨ row = 4 ∨ row = 5 ∨ row = 6
          ∨ row = 7 ∨ row = 8 ∨ row = 9) as Hc by lia.
  repeat (destruct Hc as [-> | Hc]); [.. | subst row]; reflexivity.
Qed.

Lemma print_cells_spec g row columns line :
  board_shape (_board g) →
  (∀ l p, on_board l = true → board_at (_board g) l = Some p →
          (String.length (get_name p) ≤ 13)%nat) →
  Forall (λ column, on_board (row, column) = true) columns →
  ∃ line', print_cells row columns line g = Return line' g
           ∧ String.length line' = (String.length line + 15 * length columns)%nat.
Proof.
  intros Hs Hnames Hcols. revert line.
  induction Hcols as [|column columns Hon _ IH]; intros line.
  { exists line. split; [done |]. cbn. lia. }
  cbn [print_cells]. step (board_read_ok g _ Hs Hon).
  destruct (IH (line +:+ cell_text (board_at (_board g) (row, column)))) as (line' & -> & Hlen).
  exists line'. split; [done |].
  rewrite Hlen, string_length_app, cell_text_length; [cbn [length]; lia |].
  intros p Hp. by eapply Hnames.
Qed.

Lemma print_rows_spec g rows :
  board_shape (_board g) →
  (∀ l p, on_board l = true → board_at (_board g) l = Some p →
          (String.length (get_name p) ≤ 13)%nat) →
  Forall (λ row, 0 ≤ row < 10) rows →
  ∃ lines, print_rows rows g = Return lines g
           ∧ length lines = length rows
           ∧ Forall (λ line, String.length line = 138%nat) lines.
Proof.
  intros Hs Hnames Hrows.
  induction Hrows as [|row rows Hrow _ (lines & Hrun & Hlen & Hall)].
  { exists []. done. }
  cbn [print_rows].
  destruct (print_cells_spec g row (Z.of_nat <$> seq 0 9) (row_label row) Hs Hnames)
    as (line & Hline & Hl).
  { apply Forall_forall. intros column (k & -> & Hk%elem_of_seq)%list_elem_of_fmap.
    apply on_board_spec. cbn. lia. }
  step Hline. step Hrun. exists (line :: lines). split_and!; [done | cbn; lia |].
  constructor; [| done]. rewrite Hl, row_label_length by done. reflexivity.
Qed.

(** ** The invariant of the game object *)

Lemma consistent_check_sound g : consistent_check g = true → consistent g.
Proof.
  unfold consistent_check. rewrite andb_true_iff, bool_decide_eq_true.
  intros [?%wf_check_sound ?]. done.
Qed.

Lemma consistent_initial_game : consistent initial_game.
Proof. apply consistent_check_sound. vm_compute. reflexivity. Qed.

(** The invariant does not look at the turn, the state or the order of the
    piece lists. *)
Lemma consistent_ext g g' :
  _board g' = _board g → _location g' = _location g →
  _blue_pieces g' ≡ₚ _blue_pieces g → _red_pieces g' ≡ₚ _red_pieces g →
  consistent g → consistent g'.
Proof.
  intros Hb Hl Hbl Hrd [Hwf Hpl].
  assert (Hloc : ∀ p, get_location g' p = get_location g p)
    by (intros p; unfold get_location; by rewrite Hl).
  assert (Hof : ∀ side, pieces_of side g' ≡ₚ pieces_of side g) by (by intros []).
  split; [constructor |].
  - rewrite Hb. apply Hwf.
  - pose proof (wf_cells g Hwf) as H. eapply Forall_impl; [exact H |].
    intros l Hc. unfold cell_ok in *. rewrite Hb.
    destruct (board_at (_board g) l) as [p|]; [| done].
    rewrite Hloc, Hof. done.
  - rewrite Hbl, Hrd. pose proof (wf_located g Hwf) as H.
    eapply Forall_impl; [exact H |]. intros p. by rewrite Hloc.
  - rewrite Hbl. apply Hwf.
  - rewrite Hrd. apply Hwf.
  - rewrite Hbl, Hrd. apply Hwf.
  - unfold placed. rewrite Hbl, Hrd. eapply Forall_impl; [exact Hpl |].
    intros p. unfold on_its_cell. by rewrite Hloc, Hb.
Qed.

Lemma same_up_to_order_consistent g g' : same_up_to_order g g' → consistent g → consistent g'.
Proof. intros (? & ? & _ & _ & ? & ?). by apply consistent_ext. Qed.

Lemma same_up_to_order_trans g1 g2 g3 :
  same_up_to_order g1 g2 → same_up_to_order g2 g3 → same_up_to_order g1 g3.
Proof.
  intros (? & ? & ? & ? & ? & ?) (? & ? & ? & ? & ? & ?).
  unfold same_up_to_order. split_and!; try congruence; by etrans.
Qed.

Lemma consistent_listed g p side :
  consistent g → p ∈ pieces_of side g →
  ∃ l, get_location g p = Some l ∧ on_board l = true ∧ board_at (_board g) l = Some p.
Proof.
  intros [_ Hpl] Hp. unfold placed in Hpl. rewrite Forall_forall in Hpl.
  specialize (Hpl p). unfold on_its_cell in Hpl.
  destruct (get_location g p) as [l|].
  - exists l. split; [done |]. apply Hpl. apply elem_of_app. destruct side; [by left | by right].
  - exfalso. apply Hpl. apply elem_of_app. destruct side; [by left | by right].
Qed.
Lemma listed_same_object g x y :
  wf g → x ∈ _blue_pieces g ++ _red_pieces g → y ∈ _blue_pieces g ++ _red_pieces g →
  pid x = pid y → x = y.
Proof.
  intros Hwf Hx Hy E. pose proof (wf_distinct g Hwf) as Hnd.
  revert Hx Hy Hnd. generalize (_blue_pieces g ++ _red_pieces g). intros l.
  induction l as [|z l IH]; [by intros []%elem_of_nil |].
  rewrite fmap_cons, NoDup_cons, !elem_of_cons.
  intros [-> | Hx] [-> | Hy] [Hz Hnd]; auto.
  - destruct Hz. rewrite E. by apply list_elem_of_fmap_2.
  - destruct Hz. rewrite <- E. by apply list_elem_of_fmap_2.
Qed.

Lemma listed_app g p side : p ∈ pieces_of side g → p ∈ _blue_pieces g ++ _red_pieces g.
Proof. intros H. apply elem_of_app. destruct side; [by left | by right]. Qed.

(** What [update_board] does to a game that satisfies the invariant. *)
Lemma update_board_spec g move_from move_to p :
  consistent g → on_board move_from = true → on_board move_to = true →
  move_from ≠ move_to → board_at (_board g) move_from = Some p →
  ∃ g', update_board move_from move_to g = Return tt g'
        ∧ consistent g'
        ∧ _game_state g' = _game_state g ∧ _current_turn g' = _current_turn g
        ∧ board_at (_board g') move_to = Some p
        ∧ board_at (_board g') move_from = None
        ∧ (∀ l, on_board l = true → l ≠ move_from → l ≠ move_to →
                board_at (_board g') l = board_at (_board g) l)
        ∧ get_location g' p = Some move_to
        ∧ match board_at (_board g) move_to with
          | Some o =>
            get_location g' o = None
            ∧ (∀ x, pid x ≠ pid p → pid x ≠ pid o → get_location g' x = get_location g x)
            ∧ pieces_of (get_owner o) g ≡ₚ o :: pieces_of (get_owner o) g'
            ∧ pieces_of (other (get_owner o)) g' = pieces_of (other (get_owner o)) g
          | None =>
            (∀ x, pid x ≠ pid p → get_location g' x = get_location g x)
            ∧ _blue_pieces g' = _blue_pieces g ∧ _red_pieces g' = _red_pieces g
          end.
Proof.
  intros [Hwf Hpl] Hf Ht Hne Hp.
  pose proof (wf_shape g Hwf) as Hs.
  destruct (wf_cell g _ _ Hwf Hf Hp) as [Hlp Hpin].
  unfold update_board.
  step (board_read_ok g _ Hs Hf). rewrite Hp.
  destruct (board_write_ok g move_from None Hs Hf) as (b1 & Hw1 & Hs1 & Hb1 & Hb1').
  step Hw1. unfold capture.
  step (board_read_ok (with_board b1 g) move_to Hs1 Ht).
  cbn [_board with_board]. rewrite (Hb1' move_to Ht) by done.
  destruct (board_at (_board g) move_to) as [o|] eqn:Ho.
  - destruct (wf_cell g _ _ Hwf Ht Ho) as [Hlo Hoin].
    assert (Hpo : pid p ≠ pid o).
    { intros E. unfold get_location in Hlp, Hlo. rewrite E in Hlp. congruence. }
    destruct (board_write_ok (with_board b1 g) move_to None Hs1 Ht) as (b2 & Hw2 & Hs2 & Hb2 & Hb2').
    cbn [_board with_board] in Hb2'.
    step Hw2. step (set_location_run o None (with_board b2 (with_board b1 g))).
    set (g3 := with_location o None (with_board b2 (with_board b1 g))).
    destruct (remove_from_game_ok g3 g o Hwf Hoin eq_refl eq_refl) as (rest & Hrm & Hperm & Hnot).
    step Hrm. rewrite bind_ret.
    set (g4 := with_pieces (get_owner o) rest g3).
    assert (Hs4 : board_shape (_board g4)) by (subst g4 g3; destruct (get_owner o); done).
    assert (Hb4 : _board g4 = b2) by (subst g4 g3; destruct (get_owner o); done).
    destruct (board_write_ok g4 move_to (Some p) Hs4 Ht) as (b3 & Hw3 & Hs3 & Hb3 & Hb3').
    rewrite Hb4 in Hb3'.
    step Hw3. cbn [cell_set_location].
    rewrite (set_location_run p (Some move_to) (with_board b3 g4)).
    set (g6 := with_location p (Some move_to) (with_board b3 g4)).
    exists g6.
    (* the fields of the final state *)
    assert (Hboard : _board g6 = b3) by (subst g6 g4 g3; destruct (get_owner o); done).
    assert (Hloc : ∀ x, get_location g6 x
                = (<[pid p := move_to]> (delete (pid o) (_location g))) !! pid x).
    { intros x. subst g6 g4 g3. destruct (get_owner o); done. }
    assert (Hown : pieces_of (get_owner o) g6 = rest)
      by (subst g6 g4 g3; destruct (get_owner o); done).
    assert (Hoth : pieces_of (other (get_owner o)) g6 = pieces_of (other (get_owner o)) g)
      by (subst g6 g4 g3; destruct (get_owner o); done).
    assert (Hstate : _game_state g6 = _game_state g)
      by (subst g6 g4 g3; destruct (get_owner o); done).
    assert (Hturn : _current_turn g6 = _current_turn g)
      by (subst g6 g4 g3; destruct (get_owner o); done).
    clearbody g6. clear Hrm Hw3 Hs4 Hb4. clearbody g4. clearbody g3.
    assert (Hfrom : board_at b3 move_from = None) by (by rewrite Hb3', Hb2', Hb1).
    assert (Hrest : ∀ l, on_board l = true → l ≠ move_from → l ≠ move_to →
                         board_at b3 l = board_at (_board g) l).
    { intros l ? ? ?. by rewrite Hb3', Hb2', Hb1'. }
    (* who is listed afterwards *)
    assert (Hlisted : ∀ side x, x ∈ pieces_of side g6 ↔ x ∈ pieces_of side g ∧ pid x ≠ pid o).
    { intros side x. destruct (decide (side = get_owner o)) as [-> | Hside].
      - rewrite Hown, Hperm, elem_of_cons. split.
        + intros Hx. split; [by right |]. intros E. apply Hnot. rewrite <- E.
          by apply list_elem_of_fmap_2.
        + intros [[-> | ?] ?]; done.
      - assert (side = other (get_owner o)) as -> by (by destruct side, (get_owner o)).
        rewrite Hoth. split; [| by intros [? _]].
        intros Hx. split; [done |]. intros E.
        assert (x = o) as ->.
        { apply (listed_same_object g); [done | by eapply listed_app ..| done]. }
        pose proof (wf_listed_owner g o _ Hwf Hx). by destruct (get_owner o). }
    assert (Hlisted' : ∀ x, x ∈ _blue_pieces g6 ++ _red_pieces g6 →
                            x ∈ _blue_pieces g ++ _red_pieces g ∧ pid x ≠ pid o).
    { intros x [Hx | Hx]%elem_of_app.
      - apply (Hlisted blue) in Hx as [? ?]. split; [| done]. apply elem_of_app. by left.
      - apply (Hlisted red) in Hx as [? ?]. split; [| done]. apply elem_of_app. by right. }
    assert (Hlocx : ∀ x, pid x ≠ pid p → pid x ≠ pid o → get_location g6 x = get_location g x).
    { intros x ? ?. rewrite Hloc, lookup_insert_ne, lookup_delete_ne by done. done. }
    assert (Hlocp : get_location g6 p = Some move_to) by (by rewrite Hloc, lookup_insert_eq).
    assert (Hblue : _blue_pieces g ≡ₚ match get_owner o with blue => [o] | red => [] end
                                       ++ _blue_pieces g6).
    { destruct (get_owner o); cbn in Hperm, Hown, Hoth; [by rewrite Hown | by rewrite Hoth]. }
    assert (Hred : _red_pieces g ≡ₚ match get_owner o with blue => [] | red => [o] end
                                     ++ _red_pieces g6).
    { destruct (get_owner o); cbn in Hperm, Hown, Hoth; [by rewrite Hoth | by rewrite Hown]. }
    assert (Hall : _blue_pieces g ++ _red_pieces g ≡ₚ o :: (_blue_pieces g6 ++ _red_pieces g6)).
    { etrans; [apply Permutation_app; [exact Hblue | exact Hred] |].
      destruct (get_owner o); cbn; [done |]. symmetry. apply Permutation_middle. }
    split_and!.
    + done.
    + split; [constructor |].
      * by rewrite Hboard.
      * apply Forall_forall. intros l Hl%elem_of_all_cells. unfold cell_ok. rewrite Hboard.
        destruct (decide (l = move_to)) as [-> | Hlt].
        { rewrite Hb3. split; [done |]. apply Hlisted. split; [done | congruence]. }
        destruct (decide (l = move_from)) as [-> | Hlf]; [by rewrite Hfrom |].
        rewrite Hrest by done.
        destruct (board_at (_board g) l) as [x|] eqn:Hx; [| done].
        destruct (wf_cell g _ _ Hwf Hl Hx) as [Hlx Hxin].
        assert (pid x ≠ pid p).
        { intros E. unfold get_location in Hlx, Hlp. rewrite E in Hlx. congruence. }
        assert (pid x ≠ pid o).
        { intros E. unfold get_location in Hlx, Hlo. rewrite E in Hlx. congruence. }
        rewrite Hlocx by done. split; [done |]. by apply Hlisted.
      * apply Forall_forall. intros x [Hx Hxo]%Hlisted'.
        destruct (decide (pid x = pid p)) as [E | E].
        -- rewrite Hloc, E, lookup_insert_eq. eauto.
        -- rewrite Hlocx by done. pose proof (wf_located g Hwf) as H.
           rewrite Forall_forall in H. by apply H.
      * pose proof (wf_blue g Hwf) as H. rewrite Hblue in H. by apply Forall_app in H as [_ ?].
      * pose proof (wf_red g Hwf) as H. rewrite Hred in H. by apply Forall_app in H as [_ ?].
      * pose proof (wf_distinct g Hwf) as H. rewrite Hall, fmap_cons in H.
        by apply NoDup_cons in H as [_ ?].
      * apply Forall_forall. intros x [Hx Hxo]%Hlisted'. unfold on_its_cell.
        destruct (decide (pid x = pid p)) as [E | E].
        -- assert (x = p) as ->.
           { apply (listed_same_object g); [done | done | by eapply listed_app | done]. }
           rewrite Hlocp, Hboard. done.
        -- rewrite Hlocx, Hboard by done.
           unfold placed in Hpl. rewrite Forall_forall in Hpl. specialize (Hpl x Hx).
           unfold on_its_cell in Hpl.
           destruct (get_location g x) as [l|] eqn:Hlx; [| done].
           destruct Hpl as [Hl Hbx]. split; [done |].
           rewrite Hrest; [done | done | |].
           ++ intros ->. rewrite Hp in Hbx. by injection Hbx as ->.
           ++ intros ->. rewrite Ho in Hbx. by injection Hbx as ->.
    + done.
    + done.
    + by rewrite Hboard.
    + by rewrite Hboard.
    + by rewrite Hboard.
    + done.
    + rewrite Hloc, lookup_insert_ne, lookup_delete_eq by done. done.
    + done.
    + by rewrite Hown.
    + done.
  - (* the destination is empty *)
    rewrite bind_ret.
    assert (Hs1' : board_shape (_board (with_board b1 g))) by done.
    destruct (board_write_ok (with_board b1 g) move_to (Some p) Hs1' Ht)
      as (b2 & Hw2 & Hs2 & Hb2 & Hb2').
    cbn [_board with_board] in Hb2'.
    step Hw2. cbn [cell_set_location].
    rewrite (set_location_run p (Some move_to) (with_board b2 (with_board b1 g))).
    set (g3 := with_location p (Some move_to) (with_board b2 (with_board b1 g))).
    exists g3.
    assert (Hfrom : board_at b2 move_from = None) by (by rewrite Hb2', Hb1).
    assert (Hrest : ∀ l, on_board l = true → l ≠ move_from → l ≠ move_to →
                         board_at b2 l = board_at (_board g) l).
    { intros l ? ? ?. by rewrite Hb2', Hb1'. }
    assert (Hlocx : ∀ x, pid x ≠ pid p → get_location g3 x = get_location g x).
    { intros x ?. unfold get_location. subst g3. cbn. by rewrite lookup_insert_ne. }
    assert (Hlocp : get_location g3 p = Some move_to).
    { unfold get_location. subst g3. cbn. by rewrite lookup_insert_eq. }
    split_and!; try done.
    split; [constructor |]; try apply Hwf.
    + done.
    + apply Forall_forall. intros l Hl%elem_of_all_cells. unfold cell_ok.
      cbn [g3 _board with_location with_board].
      destruct (decide (l = move_to)) as [-> | Hlt]; [by rewrite Hb2 |].
      destruct (decide (l = move_from)) as [-> | Hlf]; [by rewrite Hfrom |].
      rewrite Hrest by done.
      destruct (board_at (_board g) l) as [x|] eqn:Hx; [| done].
      destruct (wf_cell g _ _ Hwf Hl Hx) as [Hlx Hxin].
      assert (pid x ≠ pid p).
      { intros E. unfold get_location in Hlx, Hlp. rewrite E in Hlx. congruence. }
      rewrite Hlocx by done. split; [done |]. by destruct (get_owner x).
    + apply Forall_forall. intros x Hx.
      destruct (decide (pid x = pid p)) as [E | E].
      * unfold get_location. subst g3. cbn. rewrite E, lookup_insert_eq. eauto.
      * rewrite Hlocx by done. pose proof (wf_located g Hwf) as H.
        rewrite Forall_forall in H. by apply H.
    + apply Forall_forall. intros x Hx. unfold on_its_cell.
      destruct (decide (pid x = pid p)) as [E | E].
      * assert (x = p) as ->.
        { apply (listed_same_object g); [done | done | by eapply listed_app | done]. }
        rewrite Hlocp. done.
      * rewrite Hlocx by done.
        unfold placed in Hpl. rewrite Forall_forall in Hpl. specialize (Hpl x Hx).
        unfold on_its_cell in Hpl.
        destruct (get_location g x) as [l|] eqn:Hlx; [| done].
        destruct Hpl as [Hl Hbx]. split; [done |].
        cbn [g3 _board with_location with_board].
        rewrite Hrest; [done | done | |].
        -- intros ->. rewrite Hp in Hbx. by injection Hbx as ->.
        -- intros ->. rewrite Ho in Hbx. done.
Qed.
Lemma same_up_to_order_pieces g g' side :
  same_up_to_order g g' → pieces_of side g' ≡ₚ pieces_of side g.
Proof. intros (_ & _ & _ & _ & ? & ?). by destruct side. Qed.

Lemma same_up_to_order_location g g' p :
  same_up_to_order g g' → get_location g' p = get_location g p.
Proof. intros (_ & H & _). unfold get_location. by rewrite H. Qed.

Lemma same_up_to_order_opposition g g' side :
  same_up_to_order g g' → get_opposition_positions g' side = get_opposition_positions g side.
Proof.
  intros H. pose proof H as (_ & Hl & _ & _ & Hb & Hr).
  assert (Hloc : ∀ l l', l' ≡ₚ l → locations g' l' = locations g l).
  { intros l l' Hp. unfold locations. apply set_eq. intros x.
    rewrite !elem_of_list_to_set, !list_elem_of_omap.
    setoid_rewrite Hp. unfold get_location. by rewrite Hl. }
  destruct side; cbn; by apply Hloc.
Qed.

Lemma same_up_to_order_legal_moves g g' p opposition :
  same_up_to_order g g' → piece_legal_moves g' p opposition = piece_legal_moves g p opposition.
Proof.
  intros H. unfold piece_legal_moves. rewrite (same_up_to_order_location g g') by done.
  destruct H as (-> & _). done.
Qed.

Lemma try_moves_spec g piece l moves :
  consistent g → get_location g piece = Some l → on_board l = true →
  board_at (_board g) l = Some piece →
  Forall (λ m, on_board m = true ∧ m ≠ l) moves →
  ∃ b g', try_moves piece moves g = Return b g' ∧ same_up_to_order g g'
          ∧ (b = true → ∃ m g1 g2, m ∈ moves ∧ same_up_to_order g g1
                                   ∧ leaves_in_check l m g1 = Return false g2).
Proof.
  intros Hc Hl Hon Hp Hmoves. revert g Hc Hl Hp.
  induction Hmoves as [|m moves [Hm Hne] _ IH]; intros g Hc Hl Hp.
  { exists false, g. split_and!; [done | apply same_up_to_order_refl | done]. }
  cbn [try_moves].
  step (eq_refl : gets (λ g0, get_location g0 piece) g = Return (get_location g piece) g).
  rewrite Hl. cbn [lift]. rewrite bind_ret.
  destruct (leaves_in_check_restores g l m piece (proj1 Hc) Hon Hm (not_eq_sym Hne) Hp)
    as (b & g1 & Hlc & Hsame).
  step Hlc. destruct b; cbn [negb].
  - destruct (IH g1) as (b & g' & Htry & Hsame' & Hesc).
    + by eapply same_up_to_order_consistent.
    + by rewrite (same_up_to_order_location g g1).
    + destruct Hsame as (-> & _). done.
    + exists b, g'. split_and!; [done | by eapply same_up_to_order_trans |].
      intros Hb. destruct (Hesc Hb) as (m' & g2 & g3 & ? & ? & ?).
      exists m', g2, g3. split_and!; [by apply elem_of_cons; right | | done].
      by eapply same_up_to_order_trans.
  - exists true, g1. split_and!; [done | done |]. intros _.
    exists m, g, g1. split_and!; [by apply elem_of_cons; left | apply same_up_to_order_refl | done].
Qed.

Lemma is_check_mate_loop_spec side fuel index g :
  consistent g →
  (length (pieces_of side g) < fuel + index)%nat → (index ≤ length (pieces_of side g))%nat →
  ∃ b g', is_check_mate_loop fuel side index g = Return b g' ∧ same_up_to_order g g'
          ∧ (b = false →
             ∃ piece l moves m g1 g2,
               piece ∈ pieces_of side g ∧ get_location g piece = Some l
               ∧ piece_legal_moves g piece (get_opposition_positions g side) = Some moves
               ∧ m ∈ moves ∧ same_up_to_order g g1
               ∧ leaves_in_check l m g1 = Return false g2).
Proof.
  revert index g. induction fuel as [|fuel IH]; intros index g Hc Hlen Hidx; [lia |].
  cbn [is_check_mate_loop]. unfold bind at 1. cbn [gets].
  destruct (pieces_of side g !! index) as [piece|] eqn:Hp.
  2: { exists true, g. split_and!; [done | apply same_up_to_order_refl | done]. }
  assert (Hin : piece ∈ pieces_of side g) by (by eapply list_elem_of_lookup_2).
  apply lookup_lt_Some in Hp.
  destruct (consistent_listed g piece side Hc Hin) as (l & Hl & Hon & Hb).
  unfold bind at 1. cbn [gets]. unfold bind at 1.
  pose proof (get_legal_moves_spec (get_class piece) l (_board g)
                (get_opposition_positions g side)) as (moves & Hmoves & Hspec).
  assert (Hlm : piece_legal_moves g piece (get_opposition_positions g side) = Some moves)
    by (unfold piece_legal_moves; by rewrite Hl).
  rewrite Hlm. cbn [lift ret].
  destruct (try_moves_spec g piece l (elements moves) Hc Hl Hon Hb)
    as (escaped & g1 & Htry & Hsame & Hesc).
  { apply Forall_forall. intros m Hm%elem_of_elements. by apply Hspec. }
  step Htry. destruct escaped.
  - exists false, g1. split_and!; [done | done |]. intros _.
    destruct (Hesc eq_refl) as (m & g2 & g3 & Hm%elem_of_elements & ? & ?).
    by exists piece, l, moves, m, g2, g3.
  - pose proof (same_up_to_order_pieces g g1 side Hsame) as Hperm.
    destruct (IH (S index) g1) as (b & g' & Hloop & Hsame' & Hfalse).
    + by eapply same_up_to_order_consistent.
    + rewrite Hperm. lia.
    + rewrite Hperm. lia.
    + exists b, g'. split_and!; [done | by eapply same_up_to_order_trans |].
      intros Hbf. destruct (Hfalse Hbf) as (q & lq & mq & m & g2 & g3 & H1 & H2 & H3 & H4 & H5 & H6).
      exists q, lq, mq, m, g2, g3. split_and!.
      * by rewrite <- Hperm.
      * by rewrite <- (same_up_to_order_location g g1).
      * rewrite <- (same_up_to_order_legal_moves g g1) by done.
        by rewrite <- (same_up_to_order_opposition g g1).
      * done.
      * by eapply same_up_to_order_trans.
      * done.
Qed.

Lemma is_check_mate_spec side g :
  consistent g →
  ∃ b g', is_check_mate side g = Return b g' ∧ same_up_to_order g g'
          ∧ (b = false →
             ∃ piece l moves m g1 g2,
               piece ∈ pieces_of side g ∧ get_location g piece = Some l
               ∧ piece_legal_moves g piece (get_opposition_positions g side) = Some moves
               ∧ m ∈ moves ∧ same_up_to_order g g1
               ∧ leaves_in_check l m g1 = Return false g2).
Proof.
  intros Hc. unfold is_check_mate, bind. cbn [gets].
  apply is_check_mate_loop_spec; [done | | lia].
  destruct side; cbn; lia.
Qed.
Lemma board_get_beyond b l : board_shape b → 10 ≤ fst l → board_get b l = None.
Proof.
  intros [Hl _] Hr. unfold board_get, getitem.
  destruct (py_index (length b) (fst l)) eqn:E; [| done].
  apply py_index_Some in E. lia.
Qed.

Lemma consistent_located g side :
  consistent g → Forall (λ p, is_Some (get_location g p)) (pieces_of side g).
Proof.
  intros [Hwf _]. apply Forall_forall. intros q Hq. by apply (wf_listed_located g q side).
Qed.

Lemma make_move_outcome g move_from move_to f t :
  consistent g → _game_state g = UNFINISHED →
  parse_position move_from = inr f → parse_position move_to = inr t → 0 ≤ fst f →
  move_outcome g move_from move_to f t (make_move move_from move_to g).
Proof.
  intros Hc Hst Hpf Hpt Hrow. pose proof Hc as [Hwf Hpl].
  pose proof (wf_shape g Hwf) as Hs.
  unfold make_move. rewrite Hpf, Hpt. cbn [lift_exn]. rewrite !bind_ret.
  step (eq_refl : gets _game_state g = Return (_game_state g) g).
  rewrite Hst, bool_decide_false by (intros H; by apply H).
  destruct (decide (10 ≤ fst f)) as [Hbig | Hsmall].
  { unfold bind, board_read. rewrite board_get_beyond by done. by constructor. }
  assert (Hon : on_board f = true).
  { apply on_board_spec. pose proof (parse_position_column _ _ Hpf). lia. }
  step (board_read_ok g _ Hs Hon).
  destruct (board_at (_board g) f) as [p|] eqn:Hp; [| by constructor].
  destruct (wf_cell g _ _ Hwf Hon Hp) as [Hloc Hin].
  step (eq_refl : gets _current_turn g = Return (_current_turn g) g).
  case_bool_decide as Hturn; [by econstructor |].
  rewrite Hturn.
  set (turn := _current_turn g) in *.
  (* the request to pass *)
  assert (Hpass : ∃ passing,
    (if String.eqb move_from move_to
     then let* in_check := is_in_check turn in ret (negb in_check)
     else ret false) g = Return passing g
    ∧ (if passing then move_from = move_to ∧ is_in_check_pure g turn = Some false
       else move_from ≠ move_to ∨ is_in_check_pure g turn = Some true)).
  { destruct (String.eqb_spec move_from move_to) as [E | E].
    - destruct (is_in_check_ok g turn (consistent_located g _ Hc)) as (b & Hck & Hpure).
      exists (negb b). step Hck. split; [done |]. destruct b; cbn; auto.
    - exists false. split; [done | by left]. }
  destruct Hpass as (passing & Hrun & Hpassing). step Hrun.
  destruct passing.
  { destruct Hpassing as [-> Hck]. unfold change_turn.
    step (eq_refl : modify (λ g0, with_current_turn
             match _current_turn g0 with blue => red | red => blue end g0) g
           = Return tt (with_current_turn (other turn) g)).
    by eapply turn_passed. }
  step (eq_refl : gets (λ g0, get_opposition_positions g0 turn) g
                  = Return (get_opposition_positions g turn) g).
  pose proof (get_legal_moves_spec (get_class p) f (_board g)
               (get_opposition_positions g turn)) as (moves & Hmoves & Hspec).
  assert (Hlm : piece_legal_moves g p (get_opposition_positions g turn) = Some moves)
    by (unfold piece_legal_moves; by rewrite Hloc).
  assert (Hlm' : (λ g0, lift RecursionError
                     (piece_legal_moves g0 p (get_opposition_positions g turn)) g0) g
                  = Return moves g).
  { cbn beta. by rewrite Hlm. }
  step Hlm'.
  destruct (mem t moves) eqn:Hmem; cbn [negb].
  2: { apply bool_decide_eq_false in Hmem. by eapply not_a_legal_move. }
  apply bool_decide_eq_true in Hmem.
  destruct (Hspec _ Hmem) as [Hto Hne].
  destruct (leaves_in_check_restores g f t p Hwf Hon Hto (not_eq_sym Hne) Hp)
    as (b & g1 & Hlc & Hsame).
  step Hlc. destruct b; [by eapply own_general_exposed |].
  (* the move is made *)
  pose proof (same_up_to_order_consistent _ _ Hsame Hc) as Hc1.
  assert (Hp1 : board_at (_board g1) f = Some p) by (destruct Hsame as (-> & _); done).
  assert (Hturn1 : _current_turn g1 = turn) by (by destruct Hsame as (_ & _ & _ & -> & _)).
  destruct (update_board_spec g1 f t p Hc1 Hon Hto (not_eq_sym Hne) Hp1)
    as (g2 & Hup & Hc2 & _ & Hturn2 & _).
  step Hup.
  assert (Hopp : get_opposition g2 = other turn).
  { unfold get_opposition. rewrite Hturn2, Hturn1. by destruct turn. }
  step (eq_refl : gets get_opposition g2 = Return (get_opposition g2) g2). rewrite Hopp.
  destruct (is_in_check_ok g2 (other turn)) as (b & Hck & Hpure).
  { replace (other (other turn)) with turn by (by destruct turn).
    by apply consistent_located. }
  step Hck. destruct b.
  - step (eq_refl : gets get_opposition g2 = Return (get_opposition g2) g2). rewrite Hopp.
    destruct (is_check_mate_spec (other turn) g2 Hc2) as (mate & g3 & Hmate & Hsame3 & _).
    step Hmate.
    assert (Hturn3 : _current_turn g3 = turn).
    { destruct Hsame3 as (_ & _ & _ & -> & _). congruence. }
    destruct mate.
    + unfold set_game_state.
      step (eq_refl : modify (with_game_state match turn with
                                              | blue => BLUE_WON | red => RED_WON end) g3
             = Return tt (with_game_state (win turn) g3)).
      by eapply game_won.
    + unfold change_turn.
      step (eq_refl : modify (λ g0, with_current_turn
               match _current_turn g0 with blue => red | red => blue end g0) g3
             = Return tt (with_current_turn
                            match _current_turn g3 with blue => red | red => blue end g3)).
      rewrite Hturn3. by eapply check_given.
  - rewrite bind_ret. unfold change_turn.
    step (eq_refl : modify (λ g0, with_current_turn
             match _current_turn g0 with blue => red | red => blue end g0) g2
           = Return tt (with_current_turn
                          match _current_turn g2 with blue => red | red => blue end g2)).
    rewrite Hturn2, Hturn1. by eapply move_made.
Qed.
Lemma parse_position_error s e :
  parse_position s = inl e → e = ValueError ∨ e = IndexError ∨ e = KeyError.
Proof. unfold parse_position. repeat case_match; intros [= <-]; auto. Qed.

Lemma legal_target g f p opposition moves t :
  get_location g p = Some f →
  piece_legal_moves g p opposition = Some moves → t ∈ moves →
  on_board t = true ∧ f ≠ t.
Proof.
  intros Hloc Hlm Ht. unfold piece_legal_moves in Hlm. rewrite Hloc in Hlm.
  destruct (returns_elim _ _ _ _ (get_legal_moves_spec _ _ _ _) Hlm Ht). done.
Qed.

(** The simulation run on a legal destination of the piece on [f]. *)
Lemma simulation_facts g f t p moves opposition b g1 :
  consistent g → on_board f = true → board_at (_board g) f = Some p →
  piece_legal_moves g p opposition = Some moves →
  t ∈ moves → leaves_in_check f t g = Return b g1 →
  on_board t = true ∧ f ≠ t ∧ same_up_to_order g g1 ∧ consistent g1
  ∧ board_at (_board g1) f = Some p.
Proof.
  intros Hc Hon Hp Hlm Ht Hlc. pose proof Hc as [Hwf _].
  destruct (wf_cell g _ _ Hwf Hon Hp) as [Hloc _].
  destruct (legal_target _ _ _ _ _ _ Hloc Hlm Ht) as [Hto Hne].
  destruct (leaves_in_check_restores g f t p Hwf Hon Hto Hne Hp) as (b' & g' & Hlc' & Hsame).
  rewrite Hlc in Hlc'. injection Hlc' as <- <-.
  split_and!; try done; [by eapply same_up_to_order_consistent |].
  destruct Hsame as (-> & _). done.
Qed.

Lemma committed_consistent g f t p moves opposition g1 g2 :
  consistent g → on_board f = true → board_at (_board g) f = Some p →
  piece_legal_moves g p opposition = Some moves →
  t ∈ moves → leaves_in_check f t g = Return false g1 →
  update_board f t g1 = Return tt g2 → consistent g2.
Proof.
  intros Hc Hon Hp Hlm Ht Hlc Hup.
  destruct (simulation_facts _ _ _ _ _ _ _ _ Hc Hon Hp Hlm Ht Hlc) as (Hto & Hne & _ & Hc1 & Hp1).
  destruct (update_board_spec g1 f t p Hc1 Hon Hto Hne Hp1) as (g' & Hup' & Hc2 & _).
  rewrite Hup in Hup'. by injection Hup' as <-.
Qed.

Lemma mate_test_restores g2 side b g3 :
  consistent g2 → is_check_mate side g2 = Return b g3 → same_up_to_order g2 g3.
Proof.
  intros Hc2 Hcm.
  destruct (is_check_mate_spec side g2 Hc2) as (b' & g3' & Hcm' & ? & _). congruence.
Qed.

Lemma outcome_consistent g move_from move_to f t r :
  consistent g → move_outcome g move_from move_to f t r →
  match r with
  | Return _ g' => consistent g'
  | Raise e g' => g' = g ∧ e = IndexError
  end.
Proof.
  intros Hc Hout.
  assert (Hturn : ∀ g0 x, consistent g0 → consistent (with_current_turn x g0)).
  { intros g0 x. by apply consistent_ext. }
  destruct Hout as
    [ ? | ? ? | p ? ? ? | p ? ? ? ? ? | p moves ? ? ? ? ? ?
    | p moves g1 Hon Hp Hown Hreq Hlm Htm Hlc
    | p moves g1 g2 Hon Hp Hown Hreq Hlm Htm Hlc Hup Hck
    | p moves g1 g2 g3 Hon Hp Hown Hreq Hlm Htm Hlc Hup Hck Hcm
    | p moves g1 g2 g3 Hon Hp Hown Hreq Hlm Htm Hlc Hup Hck Hcm ]; try done.
  - by apply Hturn.
  - by destruct (simulation_facts g f t p moves _ true g1 Hc Hon Hp Hlm Htm Hlc)
      as (_ & _ & _ & ? & _).
  - apply Hturn. by eapply committed_consistent.
  - apply Hturn. eapply same_up_to_order_consistent.
    + eapply mate_test_restores; [| done]. by eapply committed_consistent.
    + by eapply committed_consistent.
  - apply (consistent_ext g3); try done. eapply same_up_to_order_consistent.
    + eapply mate_test_restores; [| done]. by eapply committed_consistent.
    + by eapply committed_consistent.
Qed.

(** make_move keeps the invariant, and a call that raises has changed nothing. *)
Lemma make_move_consistent g move_from move_to :
  consistent g → rank_ok move_from = true →
  match make_move move_from move_to g with
  | Return _ g' => consistent g'
  | Raise e g' => g' = g ∧ (e = ValueError ∨ e = IndexError ∨ e = KeyError)
  end.
Proof.
  intros Hc Hrank.
  destruct (decide (_game_state g = UNFINISHED)) as [Hst | Hst].
  2: { rewrite make_move_finished by done.
       destruct (parse_position move_to) as [e | t] eqn:Ht.
       - split; [done |]. by eapply parse_position_error.
       - destruct (parse_position move_from) as [e | f] eqn:Hf; [| done].
         split; [done |]. by eapply parse_position_error. }
  destruct (parse_position move_to) as [e | t] eqn:Ht.
  { unfold make_move. rewrite Ht. cbn. split; [done |]. by eapply parse_position_error. }
  destruct (parse_position move_from) as [e | f] eqn:Hf.
  { unfold make_move. rewrite Ht, Hf. cbn. split; [done |]. by eapply parse_position_error. }
  assert (0 ≤ fst f) by (unfold rank_ok in Hrank; rewrite Hf in Hrank; lia).
  pose proof (make_move_outcome g move_from move_to f t Hc Hst Hf Ht ltac:(done)) as Hout.
  apply (outcome_consistent _ _ _ _ _ _ Hc) in Hout.
  destruct (make_move move_from move_to g); [done |].
  destruct Hout as [-> ->]. auto.
Qed.

Lemma play_consistent g calls :
  consistent g → Forall (λ call, rank_ok call.1 = true) calls → consistent (play g calls).
Proof.
  intros Hc Hcalls. revert g Hc.
  induction Hcalls as [|[mf mt] calls Hr _ IH]; intros g Hc; [done |].
  unfold play. cbn [foldl fst snd]. apply IH.
  pose proof (make_move_consistent g mf mt Hc Hr) as H.
  destruct (make_move mf mt g); cbn; [done | by destruct H as [-> _]].
Qed.
Lemma moved_same_order g0 g1 g2 g3 p f t :
  same_up_to_order g0 g1 → same_up_to_order g2 g3 →
  moved g1 g2 p f t → moved g0 g3 p f t.
Proof.
  intros H01 H23 (Ht & Hf & Hrest & Hloc & Hcap).
  pose proof H01 as (Hb01 & _). pose proof H23 as (Hb23 & _).
  unfold moved. rewrite Hb23, !(same_up_to_order_location g2 g3) by done.
  rewrite <- Hb01. split_and!; try done.
  assert (Hl : ∀ x, get_location g3 x = get_location g0 x ↔ get_location g2 x = get_location g1 x).
  { intros x. by rewrite (same_up_to_order_location g2 g3), (same_up_to_order_location g0 g1). }
  destruct (board_at (_board g1) t) as [o|].
  - rewrite (same_up_to_order_location g2 g3) by done.
    rewrite !(same_up_to_order_pieces g2 g3) by done.
    rewrite <- !(same_up_to_order_pieces g0 g1) by done.
    destruct Hcap as (? & Hx & ? & ?). split_and!; try done.
    intros x ? ?. apply Hl. by apply Hx.
  - destruct Hcap as (Hx & Hb & Hr).
    destruct H01 as (_ & _ & _ & _ & <- & <-). destruct H23 as (_ & _ & _ & _ & -> & ->).
    split_and!; try done. intros x ?. apply Hl. by apply Hx.
Qed.

Lemma update_board_moved g f t p :
  consistent g → on_board f = true → on_board t = true → f ≠ t →
  board_at (_board g) f = Some p →
  ∃ g', update_board f t g = Return tt g' ∧ consistent g'
        ∧ _game_state g' = _game_state g ∧ _current_turn g' = _current_turn g
        ∧ moved g g' p f t.
Proof.
  intros Hc Hf Ht Hne Hp.
  destruct (update_board_spec g f t p Hc Hf Ht Hne Hp)
    as (g' & Hup & Hc' & Hst & Hturn & H1 & H2 & H3 & H4 & H5).
  exists g'. split_and!; try done. unfold moved. split_and!; try done.
  destruct (board_at (_board g) t) as [o|].
  - destruct H5 as (? & ? & ? & ->). done.
  - destruct H5 as (? & -> & ->). done.
Qed.

(** What an accepted move has done. *)
Lemma accepted_move g move_from move_to f t g' :
  consistent g →
  parse_position move_from = inr f → parse_position move_to = inr t → 0 ≤ fst f →
  move_from ≠ move_to →
  make_move move_from move_to g = Return true g' →
  ∃ p moves g1,
    _game_state g = UNFINISHED ∧ on_board f = true
    ∧ board_at (_board g) f = Some p ∧ get_owner p = _current_turn g
    ∧ piece_legal_moves g p (get_opposition_positions g (_current_turn g)) = Some moves
    ∧ t ∈ moves
    ∧ leaves_in_check f t g = Return false g1
    ∧ moved g g' p f t
    ∧ (_game_state g' = UNFINISHED ∧ _current_turn g' = other (_current_turn g)
       ∨ _game_state g' = win (_current_turn g) ∧ _current_turn g' = _current_turn g).
Proof.
  intros Hc Hf Ht Hrow Hne Hmm. pose proof Hc as [Hwf _].
  destruct (decide (_game_state g = UNFINISHED)) as [Hst | Hst].
  2: { rewrite make_move_finished, Hf, Ht in Hmm by done. done. }
  pose proof (make_move_outcome g move_from move_to f t Hc Hst Hf Ht Hrow) as Hout.
  rewrite Hmm in Hout.
  assert (Hcommit : ∀ p moves g1 g2 g3,
    on_board f = true → board_at (_board g) f = Some p →
    piece_legal_moves g p (get_opposition_positions g (_current_turn g)) = Some moves →
    t ∈ moves → leaves_in_check f t g = Return false g1 →
    update_board f t g1 = Return tt g2 → same_up_to_order g2 g3 →
    moved g g3 p f t ∧ _game_state g3 = UNFINISHED ∧ _current_turn g3 = _current_turn g).
  { intros p moves g1 g2 g3 Hon Hp Hlm Htm Hlc Hup Hsame3.
    destruct (simulation_facts _ _ _ _ _ _ _ _ Hc Hon Hp Hlm Htm Hlc)
      as (Hto & Hft & Hsame1 & Hc1 & Hp1).
    destruct (update_board_moved g1 f t p Hc1 Hon Hto Hft Hp1)
      as (g2' & Hup' & _ & Hst2 & Hturn2 & Hmoved).
    rewrite Hup in Hup'. injection Hup' as <-.
    split; [by eapply moved_same_order |].
    destruct Hsame1 as (_ & _ & Hs1 & Ht1 & _). destruct Hsame3 as (_ & _ & Hs3 & Ht3 & _).
    split; congruence. }
  remember (Return true g') as r eqn:Hr.
  destruct Hout as
    [ ? | ? ? | p ? ? ? | p Hon Hp Hown Heq Hck | p moves ? ? ? ? ? ?
    | p moves g1 ? ? ? ? ? ? ?
    | p moves g1 g2 Hon Hp Hown Hreq Hlm Htm Hlc Hup Hck
    | p moves g1 g2 g3 Hon Hp Hown Hreq Hlm Htm Hlc Hup Hck Hcm
    | p moves g1 g2 g3 Hon Hp Hown Hreq Hlm Htm Hlc Hup Hck Hcm ];
    try discriminate Hr; injection Hr as <-.
  - done.
  - destruct (Hcommit p moves g1 g2 g2 Hon Hp Hlm Htm Hlc Hup (same_up_to_order_refl g2))
      as (Hmv & Hs & Hturn).
    exists p, moves, g1. split_and!; try done. by left.
  - assert (Hsame : same_up_to_order g2 g3).
    { eapply mate_test_restores; [| done]. by eapply committed_consistent. }
    destruct (Hcommit p moves g1 g2 g3 Hon Hp Hlm Htm Hlc Hup Hsame) as (Hmv & Hs & Hturn).
    exists p, moves, g1. split_and!; try done. by left.
  - assert (Hsame : same_up_to_order g2 g3).
    { eapply mate_test_restores; [| done]. by eapply committed_consistent. }
    destruct (Hcommit p moves g1 g2 g3 Hon Hp Hlm Htm Hlc Hup Hsame) as (Hmv & Hs & Hturn).
    exists p, moves, g1. split_and!; try done. by right.
Qed.
Lemma make_move_returns_parsed g move_from move_to b g' :
  make_move move_from move_to g = Return b g' →
  ∃ f t, parse_position move_from = inr f ∧ parse_position move_to = inr t.
Proof.
  unfold make_move. destruct (parse_position move_to) as [e | t]; [done |].
  destruct (parse_position move_from) as [e | f]; [done |]. eauto.
Qed.

(** An origin of rank 11 or more: the first subscript raises IndexError
    and nothing has been written. *)
Lemma origin_rank_too_large g move_from move_to f t :
  board_shape (_board g) → _game_state g = UNFINISHED →
  parse_position move_from = inr f → parse_position move_to = inr t →
  10 ≤ fst f →
  make_move move_from move_to g = Raise IndexError g.
Proof.
  intros Hs Hst Hf Ht Hbig. unfold make_move. rewrite Hf, Ht. cbn [lift_exn].
  rewrite !bind_ret.
  step (eq_refl : gets _game_state g = Return (_game_state g) g).
  rewrite Hst, bool_decide_false by (intros H; by apply H).
  unfold bind, board_read. by rewrite board_get_beyond.
Qed.
Lemma getitem_negative {A} (l : list A) (i : Z) :
  - Z.of_nat (length l) ≤ i < 0 → getitem l i = getitem l (i + Z.of_nat (length l)).
Proof.
  intros H. unfold getitem, py_index.
  replace (0 <=? i) with false by lia. cbn [andb].
  replace (- Z.of_nat (length l) <=? i) with true by lia.
  replace (i <? 0) with true by lia. cbn [andb].
  replace (0 <=? i + Z.of_nat (length l)) with true by lia.
  replace (i + Z.of_nat (length l) <? Z.of_nat (length l)) with true by lia.
  done.
Qed.

Lemma board_get_negative b l :
  board_shape b → -10 ≤ fst l < 0 → board_get b l = board_get b (fst l + 10, snd l).
Proof.
  intros [Hl _] Hr. unfold board_get. cbn [fst snd].
  rewrite getitem_negative by (rewrite Hl; lia). by rewrite Hl.
Qed.

(** A request to pass, evaluated: [c] is what the first subscript reads. *)
Lemma make_move_pass_eval g s f c :
  consistent g → _game_state g = UNFINISHED → parse_position s = inr f →
  board_read f g = Return c g →
  (∀ p, c = Some p → p ∈ pieces_of (get_owner p) g) →
  (∀ p moves, c = Some p →
     piece_legal_moves g p (get_opposition_positions g (_current_turn g)) = Some moves →
     f ∉ moves) →
  make_move s s g
  = match c with
    | None => Return false g
    | Some p =>
      if bool_decide (get_owner p ≠ _current_turn g) then Return false g
      else match is_in_check_pure g (_current_turn g) with
           | Some in_check =>
             Return (negb in_check)
               (if in_check then g else with_current_turn (other (_current_turn g)) g)
           | None => Raise RecursionError g
           end
    end.
Proof.
  intros Hc Hst Hparse Hread Hlisted Hnot. pose proof Hc as [Hwf _].
  unfold make_move. rewrite Hparse. cbn [lift_exn]. rewrite !bind_ret.
  step (eq_refl : gets _game_state g = Return (_game_state g) g).
  rewrite Hst, bool_decide_false by (intros H; by apply H).
  step Hread. destruct c as [p|]; [| done].
  step (eq_refl : gets _current_turn g = Return (_current_turn g) g).
  case_bool_decide as Hturn; [done |].
  rewrite String.eqb_refl.
  destruct (is_in_check_ok g (_current_turn g) (consistent_located g _ Hc)) as (b & Hck & Hpure).
  rewrite Hturn. step Hck. rewrite Hpure, bind_ret.
  destruct b; cbn [negb].
  - step (eq_refl : gets (λ g0, get_opposition_positions g0 (_current_turn g)) g
                    = Return (get_opposition_positions g (_current_turn g)) g).
    destruct (piece_legal_moves_located g p (get_opposition_positions g (_current_turn g)))
      as [moves Hlm].
    { eapply wf_listed_located; [done |]. by apply Hlisted. }
    assert (Hlm' : (λ g0, lift RecursionError
                     (piece_legal_moves g0 p (get_opposition_positions g (_current_turn g))) g0) g
                  = Return moves g).
    { cbn beta. by rewrite Hlm. }
    step Hlm'.
    assert (mem f moves = false) as ->; [| done].
    apply bool_decide_eq_false. by eapply Hnot.
  - unfold change_turn.
    step (eq_refl : modify (λ g0, with_current_turn
             match _current_turn g0 with blue => red | red => blue end g0) g
           = Return tt (with_current_turn (other (_current_turn g)) g)).
    done.
Qed.
Lemma is_in_check_inv side g b g' :
  is_in_check side g = Return b g' → g' = g ∧ is_in_check_pure g side = Some b.
Proof.
  unfold is_in_check, lift. destruct (is_in_check_pure g side); [| done].
  by intros [= <- <-].
Qed.

(** The simulation looks at the position that the move itself produces:
    whatever [leaves_in_check] answers is the check test on the state that
    [update_board] leaves. *)
Lemma simulation_agrees g f t b g' g2 :
  update_board f t g = Return tt g2 →
  leaves_in_check f t g = Return b g' →
  ∃ p, board_read f g = Return (Some p) g
       ∧ is_in_check_pure g2 (get_owner p) = Some b.
Proof.
  intros Hup Hlc. unfold update_board in Hup. unfold leaves_in_check in Hlc.
  apply bind_inv in Hup as (piece & ga & Hread & Hup).
  pose proof (board_read_state _ _ _ _ Hread) as ->.
  rewrite (bind_Return _ _ _ _ _ Hread) in Hlc.
  apply bind_inv in Hup as ([] & gb & Hw1 & Hup).
  rewrite (bind_Return _ _ _ _ _ Hw1) in Hlc.
  apply bind_inv in Hup as (opponent & gc & Hcap & Hup).
  rewrite (bind_Return _ _ _ _ _ Hcap) in Hlc.
  apply bind_inv in Hup as ([] & gd & Hw2 & Hup).
  rewrite (bind_Return _ _ _ _ _ Hw2) in Hlc.
  rewrite (bind_Return _ _ _ _ _ Hup) in Hlc.
  destruct piece as [p|]; [| done].
  exists p. split; [done |].
  cbn [fmap option_fmap option_map lift] in Hlc. rewrite bind_ret in Hlc.
  apply bind_inv in Hlc as (c & ge & [-> Hpure]%is_in_check_inv & Hlc).
  assert (c = b) as ->; [| done].
  apply bind_inv in Hlc as ([] & ? & _ & Hlc).
  apply bind_inv in Hlc as ([] & ? & _ & Hlc).
  apply bind_inv in Hlc as ([] & ? & _ & Hlc).
  by injection Hlc.
Qed.

Lemma leaves_in_check_meaning g f t p :
  consistent g → on_board f = true → on_board t = true → f ≠ t →
  board_at (_board g) f = Some p →
  ∃ b g1 g2,
    leaves_in_check f t g = Return b g1
    ∧ update_board f t g = Return tt g2
    ∧ is_in_check_pure g2 (get_owner p) = Some b
    ∧ (b = true ↔ general_attacked g2 (get_owner p)).
Proof.
  intros Hc Hf Ht Hne Hp. pose proof Hc as [Hwf _].
  destruct (leaves_in_check_restores g f t p Hwf Hf Ht Hne Hp) as (b & g1 & Hlc & _).
  destruct (update_board_spec g f t p Hc Hf Ht Hne Hp) as (g2 & Hup & Hc2 & _).
  destruct (simulation_agrees g f t b g1 g2 Hup Hlc) as (p' & Hread & Hpure).
  rewrite (board_read_ok g f (wf_shape g Hwf) Hf), Hp in Hread. injection Hread as <-.
  exists b, g1, g2. split_and!; try done.
  destruct (is_in_check_pure_spec g2 (get_owner p) (consistent_located g2 _ Hc2))
    as (b' & Hb' & Hiff).
  congruence.
Qed.
Lemma palace_moves_in_fortress in_fortress diagonal_cells loc board opposition moves m :
  palace_get_legal_moves in_fortress diagonal_cells recursion_limit (Some loc) board
    opposition 0 None = Some moves → m ∈ moves → in_fortress m = true.
Proof.
  intros H Hm.
  assert (Hl : (3 ≤ recursion_limit)%nat) by (unfold recursion_limit; lia).
  pose proof (palace_entry in_fortress diagonal_cells _ loc board opposition Hl) as Hr.
  pose proof (returns_elim _ _ _ _ Hr H Hm) as Hx. cbv beta in Hx.
  destruct Hx as (_ & Hx & _). exact Hx.
Qed.

Lemma get_legal_moves_palace class location board opposition :
  get_legal_moves class location board opposition
  = match class with
    | BlueGeneral | BlueGuard =>
      palace_get_legal_moves in_blue_fortress blue_diagonal_cells recursion_limit
        location board opposition 0 None
    | RedGeneral | RedGuard =>
      palace_get_legal_moves in_red_fortress red_diagonal_cells recursion_limit
        location board opposition 0 None
    | _ => get_legal_moves class location board opposition
    end.
Proof. destruct class; reflexivity. Qed.

Lemma legal_moves_in_palace class loc board opposition moves m :
  get_legal_moves class (Some loc) board opposition = Some moves → m ∈ moves →
  in_palace class m = true.
Proof.
  rewrite get_legal_moves_palace.
  destruct class; intros Hlm Hm; cbn [in_palace]; try reflexivity.
  - exact (palace_moves_in_fortress in_blue_fortress blue_diagonal_cells _ _ _ _ _ Hlm Hm).
  - exact (palace_moves_in_fortress in_red_fortress red_diagonal_cells _ _ _ _ _ Hlm Hm).
  - exact (palace_moves_in_fortress in_blue_fortress blue_diagonal_cells _ _ _ _ _ Hlm Hm).
  - exact (palace_moves_in_fortress in_red_fortress red_diagonal_cells _ _ _ _ _ Hlm Hm).
Qed.

Lemma confined_same_order g g' : same_up_to_order g g' → confined g → confined g'.
Proof.
  intros (_ & Hl & _ & _ & Hb & Hr) H. unfold confined. rewrite Hb, Hr.
  eapply Forall_impl; [exact H |]. intros p. unfold stays_in_palace, get_location.
  by rewrite Hl.
Qed.

Lemma moved_listed g g' p f t x :
  moved g g' p f t → x ∈ _blue_pieces g' ++ _red_pieces g' → x ∈ _blue_pieces g ++ _red_pieces g.
Proof.
  intros (_ & _ & _ & _ & Hcap) Hx.
  destruct (board_at (_board g) t) as [o|].
  - destruct Hcap as (_ & _ & Hown & Hoth).
    assert (Hside : ∀ side, x ∈ pieces_of side g' → x ∈ pieces_of side g).
    { intros side Hs. destruct (decide (side = get_owner o)) as [-> | Hne].
      - rewrite Hown. apply elem_of_cons. by right.
      - assert (side = other (get_owner o)) as -> by (by destruct side, (get_owner o)).
        by rewrite <- Hoth. }
    apply elem_of_app in Hx as [Hx | Hx]; apply elem_of_app.
    + left. by apply (Hside blue).
    + right. by apply (Hside red).
  - destruct Hcap as (_ & Hb & Hr). by rewrite <- Hb, <- Hr.
Qed.

Lemma moved_confined g g' p f t :
  consistent g' → confined g → moved g g' p f t → on_board t = true →
  in_palace (get_class p) t = true → confined g'.
Proof.
  intros Hc' Hconf Hmv Hto Hpal. pose proof Hc' as [Hwf' _].
  pose proof Hmv as (Hbt & _ & _ & Hlp & Hcap).
  apply Forall_forall. intros x Hx. unfold stays_in_palace.
  destruct (wf_cell g' _ _ Hwf' Hto Hbt) as [_ Hpin].
  destruct (decide (pid x = pid p)) as [E | E].
  { assert (x = p) as ->.
    { apply (listed_same_object g'); [done | done | by eapply listed_app | done]. }
    by rewrite Hlp. }
  assert (Hloc : get_location g' x = get_location g x).
  { destruct (board_at (_board g) t) as [o|].
    - destruct Hcap as (Hlo & Hsame & _). apply Hsame; [done |].
      intros E'. pose proof (wf_located g' Hwf') as Hall. rewrite Forall_forall in Hall.
      destruct (Hall x Hx) as [l Hl]. unfold get_location in Hl, Hlo.
      rewrite E' in Hl. congruence.
    - destruct Hcap as (Hsame & _). by apply Hsame. }
  rewrite Hloc. unfold confined in Hconf. rewrite Forall_forall in Hconf.
  apply (Hconf x). by eapply moved_listed.
Qed.

Lemma make_move_confined g move_from move_to :
  consistent g → confined g → rank_ok move_from = true →
  match make_move move_from move_to g with
  | Return _ g' => confined g'
  | Raise _ _ => True
  end.
Proof.
  intros Hc Hconf Hrank. pose proof Hc as [Hwf _].
  destruct (make_move move_from move_to g) as [b g' | e g'] eqn:Hmm; [| done].
  destruct (make_move_returns_parsed _ _ _ _ _ Hmm) as (f & t & Hf & Ht).
  assert (Hrow : 0 ≤ fst f) by (unfold rank_ok in Hrank; rewrite Hf in Hrank; lia).
  destruct b.
  2: { eapply confined_same_order; [| done].
       exact (make_move_rejected g move_from move_to f g' Hwf Hf Hrow Hmm). }
  destruct (decide (move_from = move_to)) as [<- | Hne].
  - (* a pass: nothing but the turn has changed *)
    destruct (decide (_game_state g = UNFINISHED)) as [Hst | Hst].
    2: { rewrite make_move_finished, Hf in Hmm by done. done. }
    rewrite Hf in Ht. injection Ht as <-.
    destruct (decide (10 ≤ fst f)) as [Hbig | Hsmall].
    { rewrite (origin_rank_too_large g _ _ f f) in Hmm; [done | apply Hwf | done ..]. }
    assert (Hon' : on_board f = true).
    { apply on_board_spec. pose proof (parse_position_column _ _ Hf). lia. }
    rewrite (make_move_pass_eval g move_from f (board_at (_board g) f)) in Hmm; try done.
    + destruct (board_at (_board g) f) as [p|]; [| done].
      case_bool_decide; [done |].
      destruct (is_in_check_pure g (_current_turn g)) as [[]|]; [done | | done].
      injection Hmm as <-. done.
    + by apply board_read_ok; [apply Hwf |].
    + intros p Hp. by destruct (wf_cell g _ _ Hwf Hon' Hp).
    + intros p moves Hp Hlm Hm. destruct (wf_cell g _ _ Hwf Hon' Hp) as [Hloc _].
      by destruct (legal_target _ _ _ _ _ _ Hloc Hlm Hm).
  - destruct (accepted_move g move_from move_to f t g' Hc Hf Ht Hrow Hne Hmm)
      as (p & moves & g1 & Hst & Hon & Hp & Hown & Hlm & Htm & Hlc & Hmv & _).
    destruct (wf_cell g _ _ Hwf Hon Hp) as [Hloc _].
    destruct (legal_target _ _ _ _ _ _ Hloc Hlm Htm) as [Hto _].
    eapply moved_confined; try done.
    + pose proof (make_move_consistent g move_from move_to Hc Hrank) as H.
      by rewrite Hmm in H.
    + unfold piece_legal_moves in Hlm. rewrite Hloc in Hlm.
      by eapply legal_moves_in_palace.
Qed.

Lemma play_confined g calls :
  consistent g → confined g → Forall (λ call, rank_ok call.1 = true) calls →
  confined (play g calls).
Proof.
  intros Hc Hconf Hcalls. revert g Hc Hconf.
  induction Hcalls as [|[mf mt] calls Hr _ IH]; intros g Hc Hconf; [done |].
  unfold play. cbn [foldl fst snd].
  pose proof (make_move_consistent g mf mt Hc Hr) as H1.
  pose proof (make_move_confined g mf mt Hc Hconf Hr) as H2.
  destruct (make_move mf mt g); cbn.
  - by apply IH.
  - destruct H1 as [-> _]. by apply IH.
Qed.

Lemma confined_initial_game : confined initial_game.
Proof. apply (bool_decide_unpack _). vm_compute. exact I. Qed.

(** ** The properties *)

(** X1.  The moves of a General and of a Guard are the same, and are
    exactly these: from a cell of the piece's own fortress, one step along
    a row or a column, or, from a corner or the centre of the fortress,
    one step along a diagonal, to a cell of that fortress that holds no
    piece of the mover's side.  A General or a Guard that stands outside
    its fortress has no move. *)
Theorem palace_legal_moves (side : player) (loc : pos) (board : board_t) (opposition : gset pos) :
  (∃ S, get_legal_moves (General_of side) (Some loc) board opposition = Some S
        ∧ ∀ m, m ∈ S ↔ palace_move side board opposition loc m)
  ∧ (∃ S, get_legal_moves (Guard_of side) (Some loc) board opposition = Some S
          ∧ ∀ m, m ∈ S ↔ palace_move side board opposition loc m).
Proof.
  destruct side; split; apply palace_entry_iff; unfold recursion_limit; lia.
Qed.

(** X2.  The moves of a Horse are exactly the cells of the board one
    orthogonal step and then one diagonal step away whose first step, the
    leg, is an empty cell, and that hold no piece of the mover's side; the
    cell the Horse lands on may hold an opposing piece. *)
Theorem Horse_legal_moves (loc : pos) (board : board_t) (opposition : gset pos) :
  ∃ S, get_legal_moves Horse (Some loc) board opposition = Some S
       ∧ ∀ m, m ∈ S ↔
           on_board loc = true ∧ horse_jump loc m ∧ on_board m = true
           ∧ is_empty board (horse_leg loc m) = true
           ∧ friendly board opposition m = false.
Proof. apply Horse_entry_iff. unfold recursion_limit. lia. Qed.

(** X3.  The moves of an Elephant are exactly the cells of the board one
    orthogonal step and then two diagonal steps away, both cells crossed
    on the way being empty, that hold no piece of the mover's side. *)
Theorem Elephant_legal_moves (loc : pos) (board : board_t) (opposition : gset pos) :
  ∃ S, get_legal_moves Elephant (Some loc) board opposition = Some S
       ∧ ∀ m, m ∈ S ↔
           on_board loc = true ∧ elephant_jump loc m ∧ on_board m = true
           ∧ is_empty board (elephant_legs loc m).1 = true
           ∧ is_empty board (elephant_legs loc m).2 = true
           ∧ friendly board opposition m = false.
Proof. apply Elephant_entry_iff. unfold recursion_limit. lia. Qed.

(** X4.  The moves of a Chariot are exactly the cells reached by sliding
    in one of the eight directions over empty cells of the board,
    stopping on an empty cell or on the first opposing piece; a diagonal
    slide starts on a corner or the centre of a fortress and stays inside
    the fortresses. *)
Theorem Chariot_legal_moves (loc : pos) (board : board_t) (opposition : gset pos) :
  ∃ S, get_legal_moves Chariot (Some loc) board opposition = Some S
       ∧ ∀ m, m ∈ S ↔
           on_board loc = true
           ∧ ∃ d k, 1 ≤ k ∧ m = ray loc d k
                    ∧ (is_diagonal (Some d) = true → loc ∈ fortress_diagonal_cells)
                    ∧ (∀ j, 1 ≤ j < k → chariot_passes board opposition d (ray loc d j))
                    ∧ chariot_stops board opposition d m.
Proof. apply Chariot_entry_iff. unfold recursion_limit. lia. Qed.

(** X5.  The moves of a Cannon that stands on its cell of the board are
    its fortress diagonal jumps together with, along each row and column,
    the cells beyond exactly one screen: the first piece met, which must
    not be a Cannon, is jumped, and the Cannon lands on any empty cell
    behind it up to the next piece, or on that piece when it is an
    opposing piece other than a Cannon. *)
Theorem Cannon_legal_moves (loc : pos) (q : piece) (board : board_t) (opposition : gset pos) :
  on_board loc = true → board_at board loc = Some q → get_type q = "Cannon" →
  ∃ S, get_legal_moves Cannon (Some loc) board opposition = Some S
       ∧ ∀ m, m ∈ S ↔
           m ∈ cannon_diagonals loc (non_cannon_positions board)
           ∨ ∃ d s k, orthogonal d ∧ 1 ≤ s ∧ s < k
                ∧ (∀ j, 1 ≤ j < s →
                     on_board (ray loc d j) = true ∧ is_empty board (ray loc d j) = true)
                ∧ cannon_screen board (non_cannon_positions board) (ray loc d s)
                ∧ (∀ j, s < j < k → cannon_passes board opposition (ray loc d j))
                ∧ m = ray loc d k
                ∧ cannon_lands board opposition (non_cannon_positions board) m.
Proof.
  intros Hon Hq Hty. cbn [get_legal_moves].
  apply (Cannon_entry_iff _ _ _ _ _ q); [unfold recursion_limit; lia | done ..].
Qed.

Lemma Cannon_legal_moves_witness :
  ∃ S, get_legal_moves Cannon (Some (7, 1)) (_board initial_game)
         (get_opposition_positions initial_game blue) = Some S
       ∧ ∀ m, m ∈ S ↔
           m ∈ cannon_diagonals (7, 1) (non_cannon_positions (_board initial_game))
           ∨ ∃ d s k, orthogonal d ∧ 1 ≤ s ∧ s < k
                ∧ (∀ j, 1 ≤ j < s →
                     on_board (ray (7, 1) d j) = true
                     ∧ is_empty (_board initial_game) (ray (7, 1) d j) = true)
                ∧ cannon_screen (_board initial_game)
                    (non_cannon_positions (_board initial_game)) (ray (7, 1) d s)
                ∧ (∀ j, s < j < k →
                     cannon_passes (_board initial_game)
                       (get_opposition_positions initial_game blue) (ray (7, 1) d j))
                ∧ m = ray (7, 1) d k
                ∧ cannon_lands (_board initial_game)
                    (get_opposition_positions initial_game blue)
                    (non_cannon_positions (_board initial_game)) m.
Proof.
  apply (Cannon_legal_moves (7, 1) (Piece 6 blue "Cannon" Cannon)); reflexivity.
Defined.

(** X6.  For every piece class, every location and every board
    [get_legal_moves] returns within the recursion limit, and no move it
    returns leaves the 10 x 9 grid or is the cell the piece stands on. *)
Theorem legal_moves_stay_on_the_board (class : piece_class) (loc : pos) (board : board_t)
    (opposition : gset pos) :
  ∃ S, get_legal_moves class (Some loc) board opposition = Some S
       ∧ ∀ m, m ∈ S → on_board m = true ∧ m ≠ loc.
Proof. apply get_legal_moves_spec. Qed.

(** X7.  A piece without a location (a captured piece) has no base case:
    each class's [get_legal_moves] calls itself with the same arguments
    for ever, so whatever the recursion limit the call does not return. *)
Theorem no_location_no_return (fuel : nat) (board : board_t) (opposition : gset pos)
    (count : Z) (positions : list pos) (direction : option direction) :
  BlueGeneral_get_legal_moves fuel None board opposition count None = None
  ∧ RedGeneral_get_legal_moves fuel None board opposition count None = None
  ∧ BlueGuard_get_legal_moves fuel None board opposition count None = None
  ∧ RedGuard_get_legal_moves fuel None board opposition count None = None
  ∧ Horse_get_legal_moves fuel None board opposition count None = None
  ∧ Elephant_get_legal_moves fuel None board opposition count None direction = None
  ∧ Chariot_get_legal_moves fuel None board opposition None direction = None
  ∧ Cannon_get_legal_moves fuel None board opposition positions count None direction = None
  ∧ RedSoldier_get_legal_moves fuel None board opposition count None = None
  ∧ BlueSoldier_get_legal_moves fuel None board opposition count None = None.
Proof.
  split_and!; try apply palace_None.
  - induction fuel as [|fuel IH]; [done | exact IH].
  - revert direction. induction fuel as [|fuel IH]; intros direction; [done | apply IH].
  - revert direction. induction fuel as [|fuel IH]; intros direction; [done | apply IH].
  - revert positions direction.
    induction fuel as [|fuel IH]; intros positions direction; [done | apply IH].
  - induction fuel as [|fuel IH]; [done | exact IH].
  - induction fuel as [|fuel IH]; [done | exact IH].
Qed.

(** X8.  A piece whose recorded location lies outside the grid has no
    legal move, whatever its class and whatever the board holds. *)
Theorem off_board_no_moves (class : piece_class) (loc : pos) (board : board_t)
    (opposition : gset pos) :
  on_board loc = false →
  get_legal_moves class (Some loc) board opposition = Some ∅.
Proof.
  intros Hoff.
  assert (Hb : in_blue_fortress loc = false).
  { destruct (in_blue_fortress loc) eqn:E; [| done].
    apply in_blue_fortress_on_board in E. congruence. }
  assert (Hr : in_red_fortress loc = false).
  { destruct (in_red_fortress loc) eqn:E; [| done].
    apply in_red_fortress_on_board in E. congruence. }
  destruct loc as [row column].
  assert (Hfuel : ∃ fuel, recursion_limit = S (S fuel)) by (by exists 14%nat).
  destruct Hfuel as [fuel Hfuel].
  destruct class; cbn [get_legal_moves]; rewrite Hfuel;
    unfold BlueGeneral_get_legal_moves, RedGeneral_get_legal_moves,
      BlueGuard_get_legal_moves, RedGuard_get_legal_moves;
    cbn [palace_get_legal_moves Horse_get_legal_moves Elephant_get_legal_moves
         Chariot_get_legal_moves Cannon_get_legal_moves RedSoldier_get_legal_moves
         BlueSoldier_get_legal_moves];
    rewrite ?Hoff, ?Hb, ?Hr; reflexivity.
Qed.

Lemma off_board_no_moves_witness :
  get_legal_moves RedSoldier (Some (-5, 2)) (_board initial_game) ∅ = Some ∅.
Proof. apply (off_board_no_moves RedSoldier (-5, 2)). reflexivity. Defined.

(** X9.  [update_board] on an occupied origin and a different destination,
    both on the board, returns and has made the move: the piece stands on
    the destination and records it, the origin is empty, the other cells
    and locations are untouched, a piece that stood on the destination has
    lost its location and its place in its owner's list, and the turn, the
    state and the invariant of the game are kept. *)
Theorem update_board_makes_the_move (g : JanggiGame) (f t : pos) (p : piece) :
  consistent g → on_board f = true → on_board t = true → f ≠ t →
  board_at (_board g) f = Some p →
  ∃ g', update_board f t g = Return tt g' ∧ consistent g'
        ∧ _game_state g' = _game_state g ∧ _current_turn g' = _current_turn g
        ∧ moved g g' p f t.
Proof. apply update_board_moved. Qed.

Lemma update_board_makes_the_move_witness :
  let g := play initial_game rank_two_check in
  ∃ g', update_board (5, 2) (6, 2) g = Return tt g' ∧ consistent g'
        ∧ _game_state g' = _game_state g ∧ _current_turn g' = _current_turn g
        ∧ moved g g' (Piece 25 red "Soldier" RedSoldier) (5, 2) (6, 2).
Proof.
  apply (update_board_makes_the_move (play initial_game rank_two_check) (5, 2) (6, 2)
           (Piece 25 red "Soldier" RedSoldier)).
  - apply consistent_check_sound. vm_compute. reflexivity.
  - reflexivity.
  - reflexivity.
  - intros [=].
  - vm_compute. reflexivity.
Defined.

(** X10.  [leaves_in_check] answers for the position after the move: on
    an occupied origin and a different destination, both on the board, it
    returns, and its answer is the answer of [is_in_check] for the owner
    of the moved piece in the state [update_board] produces, that is,
    whether an opposing piece then has the owner's General among its legal
    moves. *)
Theorem leaves_in_check_is_check_after_the_move (g : JanggiGame) (f t : pos) (p : piece) :
  consistent g → on_board f = true → on_board t = true → f ≠ t →
  board_at (_board g) f = Some p →
  ∃ b g1 g2,
    leaves_in_check f t g = Return b g1
    ∧ update_board f t g = Return tt g2
    ∧ is_in_check_pure g2 (get_owner p) = Some b
    ∧ (b = true ↔ general_attacked g2 (get_owner p)).
Proof. apply leaves_in_check_meaning. Qed.

Lemma leaves_in_check_is_check_after_the_move_witness :
  let g := play initial_game rank_two_check in
  ∃ b g1 g2,
    leaves_in_check (5, 2) (6, 2) g = Return b g1
    ∧ update_board (5, 2) (6, 2) g = Return tt g2
    ∧ is_in_check_pure g2 red = Some b
    ∧ (b = true ↔ general_attacked g2 red).
Proof.
  apply (leaves_in_check_is_check_after_the_move (play initial_game rank_two_check)
           (5, 2) (6, 2) (Piece 25 red "Soldier" RedSoldier)).
  - apply consistent_check_sound. vm_compute. reflexivity.
  - reflexivity.
  - reflexivity.
  - intros [=].
  - vm_compute. reflexivity.
Defined.

(** X11.  [is_check_mate] returns on every consistent game and leaves it
    as it was up to the order of the piece lists; when it answers False,
    some listed piece of that side has a legal move that
    [leaves_in_check] finds safe. *)
Theorem is_check_mate_false_has_an_escape (side : player) (g : JanggiGame) :
  consistent g →
  ∃ b g', is_check_mate side g = Return b g' ∧ same_up_to_order g g'
          ∧ (b = false →
             ∃ piece l moves m g1 g2,
               piece ∈ pieces_of side g ∧ get_location g piece = Some l
               ∧ piece_legal_moves g piece (get_opposition_positions g side) = Some moves
               ∧ m ∈ moves ∧ same_up_to_order g g1
               ∧ leaves_in_check l m g1 = Return false g2).
Proof. apply is_check_mate_spec. Qed.

Lemma is_check_mate_false_has_an_escape_witness :
  let g := play initial_game rank_two_check in
  ∃ b g', is_check_mate red g = Return b g' ∧ same_up_to_order g g'
          ∧ (b = false →
             ∃ piece l moves m g1 g2,
               piece ∈ pieces_of red g ∧ get_location g piece = Some l
               ∧ piece_legal_moves g piece (get_opposition_positions g red) = Some moves
               ∧ m ∈ moves ∧ same_up_to_order g g1
               ∧ leaves_in_check l m g1 = Return false g2).
Proof.
  apply (is_check_mate_false_has_an_escape red (play initial_game rank_two_check)).
  apply consistent_check_sound. vm_compute. reflexivity.
Defined.

(** X12.  [make_move] keeps the invariant of the game object: called with
    an origin of rank 1 or more on a consistent game (the grid is 10 x 9,
    grid and recorded locations agree, every listed piece is on the board
    and on one list only), a call that returns leaves a consistent game,
    and a call that raises raises ValueError, IndexError or KeyError and
    has changed nothing. *)
Theorem make_move_keeps_the_invariant (g : JanggiGame) (move_from move_to : string) :
  consistent g → rank_ok move_from = true →
  match make_move move_from move_to g with
  | Return _ g' => consistent g'
  | Raise e g' => g' = g ∧ (e = ValueError ∨ e = IndexError ∨ e = KeyError)
  end.
Proof. apply make_move_consistent. Qed.

Lemma make_move_keeps_the_invariant_witness :
  match make_move "a7" "a6" initial_game with
  | Return _ g' => consistent g'
  | Raise e g' => g' = initial_game ∧ (e = ValueError ∨ e = IndexError ∨ e = KeyError)
  end.
Proof.
  apply (make_move_keeps_the_invariant initial_game "a7" "a6");
    [apply consistent_initial_game | reflexivity].
Defined.

(** X13.  Every game reached from the layout that [__init__] builds by
    any sequence of [make_move] calls, valid or not, whose origins have a
    rank of 1 or more, is consistent. *)
Theorem reachable_games_are_consistent (calls : list (string * string)) :
  Forall (λ call, rank_ok call.1 = true) calls → consistent (play initial_game calls).
Proof. apply play_consistent, consistent_initial_game. Qed.

Lemma reachable_games_are_consistent_witness : consistent (play initial_game demo_calls).
Proof.
  apply (reachable_games_are_consistent demo_calls).
  apply (bool_decide_unpack _). vm_compute. exact I.
Defined.

(** X14.  What an accepted move has done: when [make_move] returns True
    for two different strings, the game was unfinished, the origin held a
    piece of the player to move, the destination was among its legal
    moves and [leaves_in_check] found it safe; afterwards the piece has
    moved as [update_board] moves it, and either the game is unfinished
    and the turn has passed to the opponent, or the mover has won and the
    turn is unchanged. *)
Theorem accepted_move_effect (g : JanggiGame) (move_from move_to : string) (f t : pos)
    (g' : JanggiGame) :
  consistent g →
  parse_position move_from = inr f → parse_position move_to = inr t → 0 ≤ fst f →
  move_from ≠ move_to →
  make_move move_from move_to g = Return true g' →
  ∃ p moves g1,
    _game_state g = UNFINISHED ∧ on_board f = true
    ∧ board_at (_board g) f = Some p ∧ get_owner p = _current_turn g
    ∧ piece_legal_moves g p (get_opposition_positions g (_current_turn g)) = Some moves
    ∧ t ∈ moves
    ∧ leaves_in_check f t g = Return false g1
    ∧ moved g g' p f t
    ∧ (_game_state g' = UNFINISHED ∧ _current_turn g' = other (_current_turn g)
       ∨ _game_state g' = win (_current_turn g) ∧ _current_turn g' = _current_turn g).
Proof. apply accepted_move. Qed.

Lemma accepted_move_effect_witness :
  let g := initial_game in
  let g' := state_of (make_move "a7" "a6" initial_game) in
  ∃ p moves g1,
    _game_state g = UNFINISHED ∧ on_board (6, 0) = true
    ∧ board_at (_board g) (6, 0) = Some p ∧ get_owner p = _current_turn g
    ∧ piece_legal_moves g p (get_opposition_positions g (_current_turn g)) = Some moves
    ∧ (5, 0) ∈ moves
    ∧ leaves_in_check (6, 0) (5, 0) g = Return false g1
    ∧ moved g g' p (6, 0) (5, 0)
    ∧ (_game_state g' = UNFINISHED ∧ _current_turn g' = other (_current_turn g)
       ∨ _game_state g' = win (_current_turn g) ∧ _current_turn g' = _current_turn g).
Proof.
  apply (accepted_move_effect initial_game "a7" "a6" (6, 0) (5, 0)
           (state_of (make_move "a7" "a6" initial_game))).
  - apply consistent_initial_game.
  - reflexivity.
  - reflexivity.
  - cbn. lia.
  - intros [=].
  - vm_compute. reflexivity.
Defined.

(** X15.  No accepted move leaves the mover in check: when [make_move]
    returns True for two different strings, [is_in_check] answers False
    for the mover in the position the move produces, and no opposing
    piece there has the mover's General among its legal moves. *)
Theorem accepted_move_safe g move_from move_to f t g' :
  consistent g →
  parse_position move_from = inr f → parse_position move_to = inr t → 0 ≤ fst f →
  move_from ≠ move_to →
  make_move move_from move_to g = Return true g' →
  ∃ g2, update_board f t g = Return tt g2
        ∧ is_in_check_pure g2 (_current_turn g) = Some false
        ∧ ¬ general_attacked g2 (_current_turn g).
Proof.
  intros Hc Hf Ht Hrow Hne Hmm. pose proof Hc as [Hwf _].
  destruct (accepted_move g move_from move_to f t g' Hc Hf Ht Hrow Hne Hmm)
    as (p & moves & g1 & _ & Hon & Hp & Hown & Hlm & Htm & Hlc & _).
  destruct (wf_cell g _ _ Hwf Hon Hp) as [Hloc _].
  destruct (legal_target _ _ _ _ _ _ Hloc Hlm Htm) as [Hto Hft].
  destruct (leaves_in_check_meaning g f t p Hc Hon Hto Hft Hp)
    as (b & g1' & g2 & Hlc' & Hup & Hpure & Hiff).
  rewrite Hlc in Hlc'. injection Hlc' as <- <-.
  exists g2. rewrite <- Hown. split_and!; [done | done |].
  intros H. apply Hiff in H. done.
Qed.

Lemma accepted_move_safe_witness :
  ∃ g2, update_board (6, 0) (5, 0) initial_game = Return tt g2
        ∧ is_in_check_pure g2 (_current_turn initial_game) = Some false
        ∧ ¬ general_attacked g2 (_current_turn initial_game).
Proof.
  apply (accepted_move_safe initial_game "a7" "a6" (6, 0) (5, 0)
           (state_of (make_move "a7" "a6" initial_game))).
  - apply consistent_initial_game.
  - reflexivity.
  - reflexivity.
  - cbn. lia.
  - intros [=].
  - vm_compute. reflexivity.
Defined.

(** X16.  How the turn and the state change over one call of [make_move]
    that returns: a call that returns True was made on an unfinished game
    and either passes the turn to the opponent with the game still
    unfinished, or ends the game as a win of the player who moved without
    changing the turn; a call that returns False changes neither the turn
    nor the state. *)
Theorem turn_and_state g move_from move_to b g' :
  consistent g → rank_ok move_from = true →
  make_move move_from move_to g = Return b g' →
  if b then
    _game_state g = UNFINISHED
    ∧ (_game_state g' = UNFINISHED ∧ _current_turn g' = other (_current_turn g)
       ∨ _game_state g' = win (_current_turn g) ∧ _current_turn g' = _current_turn g)
  else _game_state g' = _game_state g ∧ _current_turn g' = _current_turn g.
Proof.
  intros Hc Hrank Hmm. pose proof Hc as [Hwf _].
  destruct (make_move_returns_parsed _ _ _ _ _ Hmm) as (f & t & Hf & Ht).
  assert (Hrow : 0 ≤ fst f) by (unfold rank_ok in Hrank; rewrite Hf in Hrank; lia).
  destruct b.
  2: { destruct (make_move_rejected g move_from move_to f g' Hwf Hf Hrow Hmm)
         as (_ & _ & ? & ? & _). done. }
  destruct (decide (move_from = move_to)) as [<- | Hne].
  - destruct (decide (_game_state g = UNFINISHED)) as [Hst | Hst].
    2: { rewrite make_move_finished, Hf in Hmm by done. done. }
    split; [done |].
    pose proof (make_move_outcome g move_from move_from f t Hc Hst Hf Ht Hrow) as Hout.
    rewrite Hmm in Hout. rewrite Hf in Ht. injection Ht as <-.
    remember (Return true g') as r eqn:Hr.
    destruct Hout as [ | | | p Hon Hp Hown Heq Hck | 
                       | | p moves ? ? Hon Hp Hown ? Hlm Htm
                       | p moves ? ? ? Hon Hp Hown ? Hlm Htm
                       | p moves ? ? ? Hon Hp Hown ? Hlm Htm ];
      try discriminate Hr.
    + injection Hr as <-. left. done.
    + destruct (wf_cell g _ _ Hwf Hon Hp) as [Hloc _].
      by destruct (legal_target _ _ _ _ _ _ Hloc Hlm Htm).
    + destruct (wf_cell g _ _ Hwf Hon Hp) as [Hloc _].
      by destruct (legal_target _ _ _ _ _ _ Hloc Hlm Htm).
    + destruct (wf_cell g _ _ Hwf Hon Hp) as [Hloc _].
      by destruct (legal_target _ _ _ _ _ _ Hloc Hlm Htm).
  - destruct (accepted_move g move_from move_to f t g' Hc Hf Ht Hrow Hne Hmm)
      as (p & moves & g1 & ? & _ & _ & _ & _ & _ & _ & _ & ?). done.
Qed.

Lemma turn_and_state_witness :
  let g' := state_of (make_move "a7" "a6" initial_game) in
  _game_state initial_game = UNFINISHED
  ∧ (_game_state g' = UNFINISHED ∧ _current_turn g' = other (_current_turn initial_game)
     ∨ _game_state g' = win (_current_turn initial_game)
       ∧ _current_turn g' = _current_turn initial_game).
Proof.
  apply (turn_and_state initial_game "a7" "a6" true
           (state_of (make_move "a7" "a6" initial_game)));
    [apply consistent_initial_game | reflexivity | vm_compute; reflexivity].
Defined.

(** X17.  A pass is recognised by comparing the two strings, not the two
    positions: two different strings that name the same cell of the board
    (such as a7 and a07) are not a pass; on an unfinished game the call
    returns False and changes nothing, whatever stands on the cell. *)
Theorem pass_needs_equal_strings g move_from move_to f :
  consistent g → _game_state g = UNFINISHED →
  parse_position move_from = inr f → parse_position move_to = inr f →
  on_board f = true → move_from ≠ move_to →
  make_move move_from move_to g = Return false g.
Proof.
  intros Hc Hst Hf Ht Hon Hne. pose proof Hc as [Hwf _].
  assert (Hrow : 0 ≤ fst f) by (apply on_board_spec in Hon; lia).
  pose proof (make_move_outcome g move_from move_to f f Hc Hst Hf Ht Hrow) as Hout.
  assert (Hnot : ∀ p moves, board_at (_board g) f = Some p →
            piece_legal_moves g p (get_opposition_positions g (_current_turn g)) = Some moves →
            f ∈ moves → False).
  { intros p moves Hp Hlm Hm. destruct (wf_cell g _ _ Hwf Hon Hp) as [Hloc _].
    by destruct (legal_target _ _ _ _ _ _ Hloc Hlm Hm). }
  destruct Hout as [ Hbig | | | | | p moves ? ? Hp ? ? Hlm Htm | p moves ? ? ? Hp ? ? Hlm Htm
                   | p moves ? ? ? ? Hp ? ? Hlm Htm | p moves ? ? ? ? Hp ? ? Hlm Htm ];
    try done.
  - apply on_board_spec in Hon. lia.
  - by destruct (Hnot p moves).
  - by destruct (Hnot p moves).
  - by destruct (Hnot p moves).
  - by destruct (Hnot p moves).
Qed.

Lemma pass_needs_equal_strings_witness :
  make_move "a7" "a07" initial_game = Return false initial_game.
Proof.
  apply (pass_needs_equal_strings initial_game "a7" "a07" (6, 0));
    [apply consistent_initial_game | reflexivity | reflexivity | reflexivity | reflexivity
    | intros [=]].
Defined.

(** X18.  An origin of rank 11 or more is not rejected with False: on an
    unfinished game the first subscript of the grid raises IndexError,
    and nothing has been written. *)
Theorem rank_beyond_the_grid_raises (g : JanggiGame) (move_from move_to : string)
    (f t : pos) :
  board_shape (_board g) → _game_state g = UNFINISHED →
  parse_position move_from = inr f → parse_position move_to = inr t →
  10 ≤ fst f →
  make_move move_from move_to g = Raise IndexError g.
Proof. apply origin_rank_too_large. Qed.

Lemma rank_beyond_the_grid_raises_witness :
  make_move "a11" "a1" initial_game = Raise IndexError initial_game.
Proof.
  apply (rank_beyond_the_grid_raises initial_game "a11" "a1" (10, 0) (0, 0));
    [apply wf_initial_game | reflexivity | reflexivity | reflexivity | cbn; lia].
Defined.

(** X19.  A rank from -9 to 0 is a negative row index, which Python
    counts from the far end of the grid: a pass named with such a rank
    does what the pass named with that rank plus ten does (a0 is a10). *)
Theorem pass_with_rank_below_one g s s' f :
  consistent g →
  parse_position s = inr f → parse_position s' = inr (fst f + 10, snd f) →
  -10 ≤ fst f < 0 →
  make_move s s g = make_move s' s' g.
Proof.
  intros Hc Hf Hf' Hrow. pose proof Hc as [Hwf _].
  pose proof (wf_shape g Hwf) as Hs.
  destruct (decide (_game_state g = UNFINISHED)) as [Hst | Hst].
  2: { rewrite !make_move_finished by done. by rewrite Hf, Hf'. }
  set (f' := (fst f + 10, snd f)) in *.
  assert (Hon' : on_board f' = true).
  { apply on_board_spec. pose proof (parse_position_column _ _ Hf'). cbn in *. lia. }
  assert (Hoff : on_board f = false).
  { destruct (on_board f) eqn:E; [| done]. apply on_board_spec in E. lia. }
  assert (Hread' : board_read f' g = Return (board_at (_board g) f') g) by (by apply board_read_ok).
  assert (Hread : board_read f g = Return (board_at (_board g) f') g).
  { unfold board_read in *. by rewrite board_get_negative. }
  assert (Hlisted : ∀ p, board_at (_board g) f' = Some p → p ∈ pieces_of (get_owner p) g).
  { intros p Hp. by destruct (wf_cell g _ _ Hwf Hon' Hp). }
  rewrite (make_move_pass_eval g s f _ Hc Hst Hf Hread Hlisted).
  2: { intros p moves Hp Hlm Hm. destruct (wf_cell g _ _ Hwf Hon' Hp) as [Hloc _].
       destruct (legal_target _ _ _ _ _ _ Hloc Hlm Hm). congruence. }
  rewrite (make_move_pass_eval g s' f' _ Hc Hst Hf' Hread' Hlisted); [done |].
  intros p moves Hp Hlm Hm. destruct (wf_cell g _ _ Hwf Hon' Hp) as [Hloc _].
  by destruct (legal_target _ _ _ _ _ _ Hloc Hlm Hm).
Qed.

Lemma pass_with_rank_below_one_witness :
  make_move "a0" "a0" initial_game = make_move "a10" "a10" initial_game.
Proof.
  apply (pass_with_rank_below_one initial_game "a0" "a10" (-1, 0));
    [apply consistent_initial_game | reflexivity | reflexivity | cbn; lia].
Defined.

(** X20.  The Generals and the Guards never leave their fortresses: in
    every game reached from the initial layout by [make_move] calls whose
    origins have a rank of 1 or more, each listed General and Guard
    stands on a cell of its own fortress. *)
Theorem generals_and_guards_stay_home (calls : list (string * string)) :
  Forall (λ call, rank_ok call.1 = true) calls → confined (play initial_game calls).
Proof.
  intros Hcalls.
  apply play_confined; [apply consistent_initial_game | apply confined_initial_game | done].
Qed.

Lemma generals_and_guards_stay_home_witness : confined (play initial_game demo_calls).
Proof.
  apply (generals_and_guards_stay_home demo_calls).
  apply (bool_decide_unpack _). vm_compute. exact I.
Defined.

(** X21.  On a 10 x 9 grid whose pieces have names of at most thirteen
    characters, [print_board] returns, leaves the game as it is, and has
    printed the line of column letters, ten lines of cells and an empty
    line; the first eleven lines are all 138 characters wide. *)
Theorem print_board_is_a_rectangle (g : JanggiGame) :
  board_shape (_board g) →
  (∀ l p, on_board l = true → board_at (_board g) l = Some p →
          (String.length (get_name p) ≤ 13)%nat) →
  ∃ lines, print_board g = Return (top_line :: lines ++ [""]) g
           ∧ length lines = 10%nat
           ∧ Forall (λ line, String.length line = 138%nat) (top_line :: lines).
Proof.
  intros Hs Hnames. unfold print_board.
  destruct (print_rows_spec g (Z.of_nat <$> seq 0 10) Hs Hnames) as (lines & Hrun & Hlen & Hall).
  { apply Forall_forall. intros row (k & -> & Hk%elem_of_seq)%list_elem_of_fmap. lia. }
  step Hrun. exists lines. split_and!; [done | by rewrite Hlen | by constructor].
Qed.

Lemma print_board_is_a_rectangle_witness :
  ∃ lines, print_board initial_game = Return (top_line :: lines ++ [""]) initial_game
           ∧ length lines = 10%nat
           ∧ Forall (λ line, String.length line = 138%nat) (top_line :: lines).
Proof.
  apply print_board_is_a_rectangle; [apply wf_initial_game |].
  intros l p Hl%elem_of_all_cells%list_elem_of_In Hp.
  assert (H : forallb (λ l, match board_at (_board initial_game) l with
                            | Some p => (String.length (get_name p) <=? 13)%nat
                            | None => true
                            end) all_cells = true) by (vm_compute; reflexivity).
  rewrite forallb_forall in H. specialize (H l Hl). rewrite Hp in H.
  by apply Nat.leb_le.
Defined.

(** X22.  The labels that [print_board] puts on the columns and the rows
    are the names by which [make_move] knows the cells: the letter over
    column [column] followed by the number before row [row] is translated
    to [(row, column)]. *)
Theorem labels_name_the_cells (row column : Z) (letter : ascii) :
  on_board (row, column) = true →
  String.get (Z.to_nat column) a_i = Some letter →
  parse_position (String.String letter (str (row + 1))) = inr (row, column).
Proof.
  intros [Hr Hc]%on_board_spec. cbn [fst snd] in Hr, Hc.
  assert (row = 0 ∨ row = 1 ∨ row = 2 ∨ row = 3 ∨ row = 4 ∨ row = 5 ∨ row = 6
          ∨ row = 7 ∨ row = 8 ∨ row = 9) as Hrow by lia.
  assert (column = 0 ∨ column = 1 ∨ column = 2 ∨ column = 3 ∨ column = 4 ∨ column = 5
          ∨ column = 6 ∨ column = 7 ∨ column = 8) as Hcol by lia.
  repeat (destruct Hcol as [-> | Hcol]); [.. | subst column];
    intros H; vm_compute in H; injection H as <-;
    (repeat (destruct Hrow as [-> | Hrow]); [.. | subst row]); reflexivity.
Qed.

Lemma labels_name_the_cells_witness :
  parse_position (String.String "c" (str (6 + 1))) = inr (6, 2).
Proof. apply (labels_name_the_cells 6 2 "c"); reflexivity. Defined.
